(** * megaorm-builder: a shallow embedding of the SQL statement builders

    The development follows the TypeScript sources:
      - [src/sql/Query.ts]      the abstract statement builder,
      - [src/sql/Condition.ts]  the condition builder and the date helpers,
      - [src/sql/Select.ts], [Insert.ts], [Update.ts], [Delete.ts],
      - [src/MegaBuilder.ts]    the factory of the builders.

    Builders are mutable objects made for method chaining; every method is
    modelled as a function from the state before the call to either the
    state after the call or the error it throws.  A condition keeps a
    reference to the statement that owns it and pushes bound values onto
    the owner's [values]; the methods of a condition therefore thread the
    pair (condition, sink of the owner).

    A chain of calls is followed as long as every call returns.  A call
    that throws ends the chain: what it has assigned before it threw stays
    in the builder, and a caller who catches the error can drive that
    builder further.  [left_by] gives this state for the calls on a
    condition; the statements about chains speak of chains in which every
    call returns. *)

From Stdlib Require Import String Ascii List ZArith Bool Lia.
From Stdlib Require Import Numbers.DecimalString Sorting.Permutation.
Import ListNotations.

Local Open Scope list_scope.
Local Open Scope string_scope.

Set Implicit Arguments.

(** ** JavaScript values and the result of a call *)

(** The values a caller can hand to the builders.  A JavaScript string is
    read as the sequence of its code units, taken below 256; a number is
    either integral or not ([NaN] and the infinities included), the latter
    identified by its rendering; a Symbol is kept apart from the other
    values because a template literal cannot render it. *)
Inductive jsval : Type :=
| VUndefined
| VNull
| VStr (s : string)
| VNum (z : Z)
| VReal (repr : string)
| VSymbol (description : string)
| VOther (described : string).

(** A call either returns or throws an error with a message: a
    [QueryError], or the [TypeError] of the language.  The builder a
    throwing call leaves behind is not part of the result. *)
Inductive result (A : Type) : Type :=
| Ok (a : A)
| Throw (message : string).

Arguments Ok {A} a.
Arguments Throw {A} message.

Definition bind {A B} (r : result A) (k : A -> result B) : result B :=
  match r with
  | Ok a => k a
  | Throw m => Throw m
  end.

Notation "x <- r ;; k" := (bind r (fun x => k))
  (at level 61, r at next level, right associativity).
Notation "' pat <- r ;; k" := (bind r (fun x => match x with pat => k end))
  (at level 61, pat pattern, r at next level, right associativity).

Definition guard (ok : bool) (message : string) : result unit :=
  if ok then Ok tt else Throw message.

(** ** Numbers

    A number is an IEEE double.  The integers up to [2^53 - 1] in
    magnitude are the safe integers: every one of them is a double, and a
    sum, a difference or a product of safe integers that is a safe integer
    is computed exactly. *)
Module Double.

(** [Number.isSafeInteger] on an integral number. *)
Definition safe (z : Z) : bool := (Z.abs z <=? 9007199254740991)%Z.

(** The integer nearest to [n / d], the even one of two that are as near
    ([0 <= n] and [0 < d]). *)
Definition round_even (n d : Z) : Z :=
  let q := (n / d)%Z in
  let r := (n mod d)%Z in
  if (2 * r <? d)%Z then q
  else if (d <? 2 * r)%Z then (q + 1)%Z
  else if Z.even q then q else (q + 1)%Z.

(** The double nearest to the integer [z], [0 <= z]: a double keeps the
    53 leading bits. *)
Definition nearest (z : Z) : Z :=
  let e := (Z.log2 z - 52)%Z in
  if (e <=? 0)%Z then z else (round_even z (2 ^ e) * 2 ^ e)%Z.

(** The decimal digits of an integer. *)
Definition positional (z : Z) : string := NilZero.string_of_int (Z.to_int z).

Definition digits (z : Z) : Z := Z.of_nat (String.length (positional z)).

(** [Number::toString] looks for the least number [k] of digits such
    that a [k]-digit [s] scaled by a power of ten, [s * 10^(n - k)], has
    [z] as its nearest double, and takes the [s] nearest to [z].  [z] has
    [D] digits; the result is [(s, k, n)]. *)
Fixpoint shortest (fuel : nat) (k : Z) (z D : Z) : Z * Z * Z :=
  match fuel with
  | O => (z, D, D)
  | S fuel' =>
      let p := (D - k)%Z in
      if (p <=? 0)%Z then (z, D, D) else
      let unit := (10 ^ p)%Z in
      let lo := (z / unit)%Z in
      let hi := (lo + 1)%Z in
      let lo_ok := (nearest (lo * unit) =? z)%Z in
      let hi_ok := (nearest (hi * unit) =? z)%Z in
      let up := if (hi =? 10 ^ k)%Z then (1, 1, D + 1)%Z else (hi, k, D) in
      let down := (lo, k, D) in
      if lo_ok && hi_ok then
        let below := (z - lo * unit)%Z in
        let above := (hi * unit - z)%Z in
        if (below <? above)%Z then down
        else if (above <? below)%Z then up
        else if Z.even lo then down else up
      else if lo_ok then down
      else if hi_ok then up
      else shortest fuel' (k + 1)%Z z D
  end.

Fixpoint zeros (n : nat) : string :=
  match n with
  | O => EmptyString
  | S n' => String "0" (zeros n')
  end.

(** [Number::toString] of an integral number [0 < z] beyond the safe
    integers: the digits of [s] followed by zeros up to 21 digits, the
    exponent form from there on. *)
Definition render (z : Z) : string :=
  let '(s, k, n) := shortest 17 1 z (digits z) in
  if (n <=? 21)%Z then positional s ++ zeros (Z.to_nat (n - k))
  else match positional s with
       | String d rest =>
           String d (if (k =? 1)%Z then EmptyString else "." ++ rest)
             ++ "e+" ++ positional (n - 1)
       | EmptyString => EmptyString
       end.

(** [String(n)] for an integral number: a safe integer prints its
    digits. *)
Definition text (z : Z) : string :=
  if safe z then positional z
  else if (z <? 0)%Z then "-" ++ render (- z) else render z.

End Double.

(** ** Strings *)

Module Str.

(** [Array.prototype.join]. *)
Fixpoint join (sep : string) (l : list string) : string :=
  match l with
  | [] => ""
  | [x] => x
  | x :: rest => x ++ sep ++ join sep rest
  end.

(** White space and line terminators of ECMAScript below code unit 256:
    TAB, LF, VT, FF, CR, SP and NBSP.  This is the class [\s] of a regular
    expression and the set [String.prototype.trim] strips. *)
Definition is_space (a : ascii) : bool :=
  let n := nat_of_ascii a in
  ((9 <=? n) && (n <=? 13) || (n =? 32) || (n =? 160))%nat.

Fixpoint trimStart (s : string) : string :=
  match s with
  | String a rest => if is_space a then trimStart rest else s
  | EmptyString => EmptyString
  end.

Fixpoint trimEnd (s : string) : string :=
  match s with
  | EmptyString => EmptyString
  | String a rest =>
      match trimEnd rest with
      | EmptyString => if is_space a then EmptyString else String a EmptyString
      | t => String a t
      end
  end.

Definition trim (s : string) : string := trimEnd (trimStart s).

Definition startsWith (s p : string) : bool := String.prefix p s.

Fixpoint endsWith (s p : string) : bool :=
  String.eqb s p ||
  match s with
  | EmptyString => false
  | String _ rest => endsWith rest p
  end.

(** [s] with the prefix [p] removed, when [s] starts with [p]. *)
Fixpoint after (p s : string) : option string :=
  match p, s with
  | EmptyString, _ => Some s
  | String a p', String b s' => if Ascii.eqb a b then after p' s' else None
  | String _ _, EmptyString => None
  end.

(** [RegExp.prototype.test] for a pattern given by the function that
    decides whether the pattern matches at the start of a suffix. *)
Fixpoint test (matches_here : string -> bool) (s : string) : bool :=
  matches_here s ||
  match s with
  | EmptyString => false
  | String _ rest => test matches_here rest
  end.

(** [kw\s*kw'] at the start of [s]; the second key word never starts with
    white space, so the greedy [\s*] takes all of it. *)
Definition seq_ws (kw kw' : string) (s : string) : bool :=
  match after kw s with
  | Some rest => String.prefix kw' (trimStart rest)
  | None => false
  end.

(** Number of placeholders [?] in a text. *)
Fixpoint placeholders (s : string) : nat :=
  match s with
  | EmptyString => 0
  | String a rest =>
      (if Ascii.eqb a "?" then 1 else 0) + placeholders rest
  end.

(** [String(n)] for an integral number. *)
Definition of_Z (z : Z) : string := Double.text z.

End Str.

(** [String(v)] as used inside error messages. *)
Definition String_ (v : jsval) : string :=
  match v with
  | VUndefined => "undefined"
  | VNull => "null"
  | VStr s => s
  | VNum z => Str.of_Z z
  | VReal r => r
  | VSymbol d => "Symbol(" ++ d ++ ")"
  | VOther d => d
  end.

(** A template literal [`${v}`]: it renders as [String(v)] does, but for
    a Symbol, on which it throws a [TypeError]. *)
Definition template (v : jsval) : result string :=
  match v with
  | VSymbol _ => Throw "Cannot convert a Symbol value to a string"
  | _ => Ok (String_ v)
  end.

(** [if (!ok) throw new QueryError(`message${v}`)]: the template is
    rendered when the check fails. *)
Definition guard_template (ok : bool) (message : string) (v : jsval)
  : result unit :=
  if ok then Ok tt
  else text <- template v ;; Throw (message ++ text).

(** ** The predicates of [@megaorm/test] and [@megaorm/utils]

    The two packages are dependencies of the builder; their sources are
    not part of it.  The predicates are named after what they test, and
    the specification and the tests of the builder fix their meaning. *)
Module Is.

(** Modelled from the spec: [isStr] of [@megaorm/test], true of strings. *)
Definition isStr (v : jsval) : bool :=
  match v with VStr _ => true | _ => false end.

(** Modelled from the spec: [isFullStr] of [@megaorm/test], true of
    non-empty strings ("fails if name is not a non-empty string"). *)
Definition isFullStr (v : jsval) : bool :=
  match v with VStr s => negb (String.eqb s "") | _ => false end.

(** Modelled from the spec: [isNum] of [@megaorm/test], true of numbers. *)
Definition isNum (v : jsval) : bool :=
  match v with VNum _ | VReal _ => true | _ => false end.

(** Modelled from the spec: [isInt] of [@megaorm/test], true of integral
    numbers. *)
Definition isInt (v : jsval) : bool :=
  match v with VNum _ => true | _ => false end.

(** Modelled from the spec: [isNull] of [@megaorm/test], true of [null]. *)
Definition isNull (v : jsval) : bool :=
  match v with VNull => true | _ => false end.

(** Modelled from the spec: [isEmptyStr] of [@megaorm/test], true of the
    empty string ("empty string overall"). *)
Definition isEmptyStr (s : string) : bool := String.eqb s "".

(** Modelled from the spec: [isFullStr] on a value known to be a string. *)
Definition fullStr (s : string) : bool := negb (String.eqb s "").

(** Modelled from the spec: [isEmptyArr] of [@megaorm/test], true of the
    array without elements. *)
Definition isEmptyArr {A} (l : list A) : bool :=
  match l with [] => true | _ => false end.

(** Modelled from the spec: [isFullArr] of [@megaorm/test], true of arrays
    with an element; [isArrOfStr], [isArrOfArr] and [isArrOfObj] are this
    test on an array whose elements have the type asked for ("requires
    table, column list, and at least one row-vector"). *)
Definition isFullArr {A} (l : list A) : bool := negb (isEmptyArr l).

End Is.

(** Modelled from the spec: the driver kinds that [isMySQL] and
    [isPostgreSQL] of [@megaorm/utils] tell apart; every other pool
    connection is served the SQLite fragments. *)
Inductive Driver : Type := MySQL | PostgreSQL | SQLite.

(** Modelled from the spec: [isMySQL] of [@megaorm/utils]. *)
Definition isMySQL (d : Driver) : bool :=
  match d with MySQL => true | _ => false end.

(** Modelled from the spec: [isPostgreSQL] of [@megaorm/utils]. *)
Definition isPostgreSQL (d : Driver) : bool :=
  match d with PostgreSQL => true | _ => false end.

(** [Row] of [@megaorm/driver], a row of a result or of an insertion: the
    own enumerable properties of an object, in the order of [Object.keys]. *)
Definition Row : Type := list (string * jsval).
Definition Rows : Type := list Row.

Definition keys (row : Row) : list string := map fst row.
Definition vals (row : Row) : list jsval := map snd row.

(** Modelled from the spec: the injected connection of [@megaorm/pool],
    with its driver kind and its [query] operation, whose promise resolves
    to rows or rejects. *)
Record MegaPoolConnection : Type :=
  { driver : Driver;
    connection_query : string -> list jsval -> result Rows }.

(** ** [src/sql/Condition.ts]: references, date helpers, operators *)

(** [class Ref]: a reference to a column. *)
Inductive Ref : Type := mkRef (column : string).

Definition ref_column (r : Ref) : string := let (c) := r in c.

Definition ref (column : jsval) : result Ref :=
  _ <- guard_template (Is.isFullStr column)
         "Invalid column reference: " column ;;
  Ok (mkRef (String_ column)).

(** Modelled from the spec: [isPoolCon] of [@megaorm/utils].  The
    connection of a query is checked by the constructor of [Query], so the
    guard [isPoolCon(con)] of the helpers holds for it. *)
Definition isPoolCon (con : MegaPoolConnection) : bool := true.

Definition exDate (col : jsval) : result string :=
  _ <- guard_template (Is.isStr col) "Invalid column name: " col ;;
  Ok ("DATE(" ++ String_ col ++ ")").

Definition exTime (col : jsval) (con : MegaPoolConnection) : result string :=
  _ <- guard_template (Is.isStr col) "Invalid column name: " col ;;
  _ <- guard (isPoolCon con) "Invalid connection: [object Object]" ;;
  if isMySQL (driver con) then Ok ("TIME(" ++ String_ col ++ ")")
  else if isPostgreSQL (driver con)
       then Ok ("TO_CHAR(" ++ String_ col ++ ", 'HH24:MI:SS')")
       else Ok ("STRFTIME('%H:%M:%S', " ++ String_ col ++ ")").

Definition exYear (col : jsval) (con : MegaPoolConnection) : result string :=
  _ <- guard_template (Is.isStr col) "Invalid column name: " col ;;
  _ <- guard (isPoolCon con) "Invalid connection: [object Object]" ;;
  if isMySQL (driver con) then Ok ("YEAR(" ++ String_ col ++ ")")
  else if isPostgreSQL (driver con)
       then Ok ("EXTRACT(YEAR FROM " ++ String_ col ++ ")")
       else Ok ("STRFTIME('%Y', " ++ String_ col ++ ")").

Definition exMonth (col : jsval) (con : MegaPoolConnection) : result string :=
  _ <- guard_template (Is.isStr col) "Invalid column name: " col ;;
  _ <- guard (isPoolCon con) "Invalid connection: [object Object]" ;;
  if isMySQL (driver con) then Ok ("MONTH(" ++ String_ col ++ ")")
  else if isPostgreSQL (driver con)
       then Ok ("EXTRACT(MONTH FROM " ++ String_ col ++ ")")
       else Ok ("STRFTIME('%m', " ++ String_ col ++ ")").

Definition exDay (col : jsval) (con : MegaPoolConnection) : result string :=
  _ <- guard_template (Is.isStr col) "Invalid column name: " col ;;
  _ <- guard (isPoolCon con) "Invalid connection: [object Object]" ;;
  if isMySQL (driver con) then Ok ("DAY(" ++ String_ col ++ ")")
  else if isPostgreSQL (driver con)
       then Ok ("EXTRACT(DAY FROM " ++ String_ col ++ ")")
       else Ok ("STRFTIME('%d', " ++ String_ col ++ ")").

Definition exHour (col : jsval) (con : MegaPoolConnection) : result string :=
  _ <- guard_template (Is.isStr col) "Invalid column name: " col ;;
  _ <- guard (isPoolCon con) "Invalid connection: [object Object]" ;;
  if isMySQL (driver con) then Ok ("HOUR(" ++ String_ col ++ ")")
  else if isPostgreSQL (driver con)
       then Ok ("EXTRACT(HOUR FROM " ++ String_ col ++ ")")
       else Ok ("STRFTIME('%H', " ++ String_ col ++ ")").

Definition exMinute (col : jsval) (con : MegaPoolConnection) : result string :=
  _ <- guard_template (Is.isStr col) "Invalid column name: " col ;;
  _ <- guard (isPoolCon con) "Invalid connection: [object Object]" ;;
  if isMySQL (driver con) then Ok ("MINUTE(" ++ String_ col ++ ")")
  else if isPostgreSQL (driver con)
       then Ok ("EXTRACT(MINUTE FROM " ++ String_ col ++ ")")
       else Ok ("STRFTIME('%M', " ++ String_ col ++ ")").

Definition exSecond (col : jsval) (con : MegaPoolConnection) : result string :=
  _ <- guard_template (Is.isStr col) "Invalid column name: " col ;;
  _ <- guard (isPoolCon con) "Invalid connection: [object Object]" ;;
  if isMySQL (driver con) then Ok ("SECOND(" ++ String_ col ++ ")")
  else if isPostgreSQL (driver con)
       then Ok ("EXTRACT(SECOND FROM " ++ String_ col ++ ")")
       else Ok ("STRFTIME('%S', " ++ String_ col ++ ")").

(** The comparison operators of [any] and [all], and the description of
    the symbol of each. *)
Inductive Operator : Type :=
| EQUAL | NOT_EQUAL | LESS | LESS_OR_EQUAL | MORE | MORE_OR_EQUAL.

Definition description (o : Operator) : string :=
  match o with
  | EQUAL => "="
  | NOT_EQUAL => "!="
  | LESS => "<"
  | LESS_OR_EQUAL => "<="
  | MORE => ">"
  | MORE_OR_EQUAL => ">="
  end.

Definition Operator_eqb (a b : Operator) : bool :=
  String.eqb (description a) (description b).

Definition invalidOperator (operator : Operator) : bool :=
  negb (existsb (Operator_eqb operator)
          [EQUAL; NOT_EQUAL; LESS; LESS_OR_EQUAL; MORE; MORE_OR_EQUAL]).

(** An operand of a comparison: a [Ref] or any other value. *)
Inductive operand : Type :=
| ORef (r : Ref)
| OVal (v : jsval).

(** [isRef ? value.column : '?'], where [isRef] is [value instanceof Ref]. *)
Definition placeholder (o : operand) : string :=
  match o with ORef r => ref_column r | OVal _ => "?" end.

(** [if (!isRef) this.query.values.push(value)]. *)
Definition push_unless_ref (values : list jsval) (o : operand) : list jsval :=
  match o with ORef _ => values | OVal v => (values ++ [v])%list end.

(** [isRef || test(value)]. *)
Definition ref_or (test : jsval -> bool) (o : operand) : bool :=
  match o with ORef _ => true | OVal v => test v end.

(** [String(value)] of an operand; an object without [toString] of its
    own prints as [[object Object]]. *)
Definition String_operand (o : operand) : string :=
  match o with ORef _ => "[object Object]" | OVal v => String_ v end.

(** The number a value is, read after [isInt] has accepted the value. *)
Definition number (v : jsval) : Z :=
  match v with VNum z => z | _ => 0%Z end.

(** [isInt(n) && n >= lo && n <= hi]. *)
Definition int_between (lo hi : Z) (v : jsval) : bool :=
  Is.isInt v && (lo <=? number v)%Z && (number v <=? hi)%Z.

(** [isInt(n) && n > 0]. *)
Definition int_positive (v : jsval) : bool :=
  Is.isInt v && (0 <? number v)%Z.

(** ** [src/sql/Condition.ts]: class [Condition] *)

Module Condition.

Record t : Type := mk
  { stack : list string;
    negate : bool;
    opened : Z;
    column : option string }.

(** [new Condition(query)]. *)
Definition new : t :=
  {| stack := []; negate := false; opened := 0%Z; column := None |}.

(** A method runs on the condition and on the [values] of the query the
    condition belongs to, and returns [this]. *)
Definition state : Type := (t * list jsval)%type.
Definition method : Type := state -> result state.

Definition push (fragment : string) (c : t) : t :=
  {| stack := (stack c ++ [fragment])%list; negate := negate c;
     opened := opened c; column := column c |}.

Definition set_negate (b : bool) (c : t) : t :=
  {| stack := stack c; negate := b; opened := opened c;
     column := column c |}.

Definition set_opened (n : Z) (c : t) : t :=
  {| stack := stack c; negate := negate c; opened := n;
     column := column c |}.

Definition set_column (name : string) (c : t) : t :=
  {| stack := stack c; negate := negate c; opened := opened c;
     column := Some name |}.

(** [this.stack.join('').trim()]. *)
Definition text (c : t) : string := Str.trim (Str.join "" (stack c)).

Definition build (c : t) : result string :=
  let condition := text c in
  _ <- guard (opened c =? 0)%Z "Syntax error: Unmatched parentheses." ;;
  _ <- guard (negb (Str.test (fun s => Str.seq_ws "(" "AND" s
                                      || Str.seq_ws "(" "OR" s) condition))
         "Invalid syntax: AND/OR cannot directly follow an opening parenthesis." ;;
  _ <- guard (negb (Str.test (fun s => Str.seq_ws "AND" ")" s
                                      || Str.seq_ws "OR" ")" s) condition))
         "Invalid syntax: AND/OR cannot directly precede a closing parenthesis." ;;
  _ <- guard (negb (Str.test (fun s => Str.seq_ws "AND" "AND" s
                                      || Str.seq_ws "OR" "OR" s) condition))
         "Invalid syntax: Consecutive AND/OR operators found." ;;
  _ <- guard (negb (Str.test (Str.seq_ws "(" ")") condition))
         "Invalid syntax: Empty parentheses found." ;;
  _ <- guard (negb (Str.endsWith condition "AND"
                    || Str.endsWith condition "OR"))
         "Invalid syntax: Condition cannot end with an operator." ;;
  _ <- guard (negb (Str.startsWith condition "AND"
                    || Str.startsWith condition "OR"))
         "Invalid syntax: Condition cannot start with an operator." ;;
  _ <- guard (negb (Is.isEmptyStr condition))
         "Invalid syntax: Condition cannot be empty." ;;
  Ok condition.

(** [values.forEach(...)] of [raw]: each value is checked, then pushed. *)
Fixpoint raw_values (vs : list jsval) (values : list jsval)
  : result (list jsval) :=
  match vs with
  | [] => Ok values
  | value :: rest =>
      _ <- guard (Is.isFullStr value || Is.isNum value)
             ("Invalid condition value: " ++ String_ value) ;;
      raw_values rest (values ++ [value])%list
  end.

Definition raw (condition : string) (vs : list jsval) : method :=
  fun '(c, values) =>
    _ <- guard (Is.fullStr condition) ("Invalid condition: " ++ condition) ;;
    values' <- raw_values vs values ;;
    Ok (push condition c, values').

Definition not : method :=
  fun '(c, values) => Ok (set_negate true c, values).

Definition open : method :=
  fun '(c, values) => Ok (set_opened (opened c + 1)%Z (push "(" c), values).

Definition close : method :=
  fun '(c, values) => Ok (set_opened (opened c - 1)%Z (push ")" c), values).

Definition paren : method :=
  fun '(c, values) =>
    if (opened c =? 0)%Z then open (c, values) else close (c, values).

Definition and : method :=
  fun '(c, values) => Ok (push " AND " c, values).

Definition or : method :=
  fun '(c, values) => Ok (push " OR " c, values).

Definition col (name : string) : method :=
  fun '(c, values) =>
    _ <- guard (Is.fullStr name) ("Invalid column name: " ++ name) ;;
    Ok (set_column name c, values).

(** [if (!isFullStr(this.column)) throw ...], returning the column. *)
Definition checked_column (c : t) : result string :=
  match column c with
  | Some name =>
      _ <- guard (Is.fullStr name) ("Invalid column: " ++ name) ;; Ok name
  | None => Throw "Invalid column: undefined"
  end.

(** [this.negate ? 'NOT ' : '']. *)
Definition not_ (c : t) : string := if negate c then "NOT " else "".

(** The comparisons against a value or a reference. *)

Definition equal (value : operand) : method :=
  fun '(c, values) =>
    column <- checked_column c ;;
    _ <- guard (ref_or (fun v => Is.isFullStr v || Is.isNum v) value)
           ("Invalid value: " ++ String_operand value) ;;
    let not := not_ c in
    let placeholder := placeholder value in
    Ok (set_negate false (push (not ++ column ++ " = " ++ placeholder) c),
        push_unless_ref values value).

Definition lessThan (value : operand) : method :=
  fun '(c, values) =>
    column <- checked_column c ;;
    _ <- guard (ref_or (fun v => Is.isFullStr v || Is.isNum v) value)
           ("Invalid value: " ++ String_operand value) ;;
    let not := not_ c in
    let placeholder := placeholder value in
    Ok (set_negate false (push (not ++ column ++ " < " ++ placeholder) c),
        push_unless_ref values value).

Definition lessThanOrEqual (value : operand) : method :=
  fun '(c, values) =>
    column <- checked_column c ;;
    _ <- guard (ref_or (fun v => Is.isFullStr v || Is.isNum v) value)
           ("Invalid value: " ++ String_operand value) ;;
    let not := not_ c in
    let placeholder := placeholder value in
    Ok (set_negate false (push (not ++ column ++ " <= " ++ placeholder) c),
        push_unless_ref values value).

Definition greaterThan (value : operand) : method :=
  fun '(c, values) =>
    column <- checked_column c ;;
    _ <- guard (ref_or (fun v => Is.isFullStr v || Is.isNum v) value)
           ("Invalid value: " ++ String_operand value) ;;
    let not := not_ c in
    let placeholder := placeholder value in
    Ok (set_negate false (push (not ++ column ++ " > " ++ placeholder) c),
        push_unless_ref values value).

Definition greaterThanOrEqual (value : operand) : method :=
  fun '(c, values) =>
    column <- checked_column c ;;
    _ <- guard (ref_or (fun v => Is.isFullStr v || Is.isNum v) value)
           ("Invalid value: " ++ String_operand value) ;;
    let not := not_ c in
    let placeholder := placeholder value in
    Ok (set_negate false (push (not ++ column ++ " >= " ++ placeholder) c),
        push_unless_ref values value).

Definition between (start end_ : operand) : method :=
  fun '(c, values) =>
    column <- checked_column c ;;
    _ <- guard (ref_or (fun v => Is.isFullStr v || Is.isNum v) start)
           ("Invalid start value: " ++ String_operand start) ;;
    _ <- guard (ref_or (fun v => Is.isFullStr v || Is.isNum v) end_)
           ("Invalid end value: " ++ String_operand end_) ;;
    let not := not_ c in
    let startHolder := placeholder start in
    let endHolder := placeholder end_ in
    let condition :=
      not ++ column ++ " BETWEEN " ++ startHolder ++ " AND " ++ endHolder in
    Ok (set_negate false (push condition c),
        push_unless_ref (push_unless_ref values start) end_).

(** [values.forEach(...)] of [in]: the first invalid value throws. *)
Fixpoint in_check (vs : list operand) : result unit :=
  match vs with
  | [] => Ok tt
  | v :: rest =>
      _ <- guard (ref_or (fun v => Is.isFullStr v || Is.isNum v) v)
             ("Invalid value: " ++ String_operand v) ;;
      in_check rest
  end.

Definition in_ (vs : list operand) : method :=
  fun '(c, values) =>
    column <- checked_column c ;;
    _ <- guard (negb (Is.isEmptyArr vs))
           "Values array cannot be empty for IN clause" ;;
    _ <- in_check vs ;;
    let not := not_ c in
    let placeholders := Str.join ", " (map placeholder vs) in
    let condition := not ++ column ++ " IN (" ++ placeholders ++ ")" in
    Ok (set_negate false (push condition c),
        fold_left push_unless_ref vs values).

Definition like (value : operand) : method :=
  fun '(c, values) =>
    column <- checked_column c ;;
    _ <- guard (ref_or Is.isFullStr value)
           ("Invalid value: " ++ String_operand value) ;;
    let not := not_ c in
    let placeholder := placeholder value in
    let condition := not ++ column ++ " LIKE " ++ placeholder in
    Ok (set_negate false (push condition c), push_unless_ref values value).

Definition isNull : method :=
  fun '(c, values) =>
    column <- checked_column c ;;
    let not := not_ c in
    let condition := not ++ column ++ " IS NULL" in
    Ok (set_negate false (push condition c), values).

(** The comparisons of a part of a date. *)

Definition inDate (date : operand) : method :=
  fun '(c, values) =>
    column <- checked_column c ;;
    _ <- guard (ref_or Is.isFullStr date)
           ("Invalid date: " ++ String_operand date) ;;
    let not := not_ c in
    let placeholder := placeholder date in
    part <- exDate (VStr column) ;;
    Ok (set_negate false (push (not ++ part ++ " = " ++ placeholder) c),
        push_unless_ref values date).

Definition inTime (connection : MegaPoolConnection) (time : operand)
  : method :=
  fun '(c, values) =>
    column <- checked_column c ;;
    _ <- guard (ref_or Is.isFullStr time)
           ("Invalid time: " ++ String_operand time) ;;
    let not := not_ c in
    let placeholder := placeholder time in
    part <- exTime (VStr column) connection ;;
    Ok (set_negate false (push (not ++ part ++ " = " ++ placeholder) c),
        push_unless_ref values time).

Definition inYear (connection : MegaPoolConnection) (year : operand)
  : method :=
  fun '(c, values) =>
    column <- checked_column c ;;
    _ <- guard (ref_or int_positive year)
           ("Invalid year: " ++ String_operand year) ;;
    let not := not_ c in
    let placeholder := placeholder year in
    part <- exYear (VStr column) connection ;;
    Ok (set_negate false (push (not ++ part ++ " = " ++ placeholder) c),
        push_unless_ref values year).

Definition inMonth (connection : MegaPoolConnection) (month : operand)
  : method :=
  fun '(c, values) =>
    column <- checked_column c ;;
    _ <- guard (ref_or (int_between 1 12) month)
           ("Invalid month: " ++ String_operand month) ;;
    let not := not_ c in
    let placeholder := placeholder month in
    part <- exMonth (VStr column) connection ;;
    Ok (set_negate false (push (not ++ part ++ " = " ++ placeholder) c),
        push_unless_ref values month).

Definition inDay (connection : MegaPoolConnection) (day : operand)
  : method :=
  fun '(c, values) =>
    column <- checked_column c ;;
    _ <- guard (ref_or (int_between 1 31) day)
           ("Invalid day: " ++ String_operand day) ;;
    let not := not_ c in
    let placeholder := placeholder day in
    part <- exDay (VStr column) connection ;;
    Ok (set_negate false (push (not ++ part ++ " = " ++ placeholder) c),
        push_unless_ref values day).

Definition inHour (connection : MegaPoolConnection) (hour : operand)
  : method :=
  fun '(c, values) =>
    column <- checked_column c ;;
    _ <- guard (ref_or (int_between 0 23) hour)
           ("Invalid hour: " ++ String_operand hour) ;;
    let not := not_ c in
    let placeholder := placeholder hour in
    part <- exHour (VStr column) connection ;;
    Ok (set_negate false (push (not ++ part ++ " = " ++ placeholder) c),
        push_unless_ref values hour).

Definition inMinute (connection : MegaPoolConnection) (minute : operand)
  : method :=
  fun '(c, values) =>
    column <- checked_column c ;;
    _ <- guard (ref_or (int_between 0 59) minute)
           ("Invalid minute: " ++ String_operand minute) ;;
    let not := not_ c in
    let placeholder := placeholder minute in
    part <- exMinute (VStr column) connection ;;
    Ok (set_negate false (push (not ++ part ++ " = " ++ placeholder) c),
        push_unless_ref values minute).

Definition inSecond (connection : MegaPoolConnection) (second : operand)
  : method :=
  fun '(c, values) =>
    column <- checked_column c ;;
    _ <- guard (ref_or (int_between 0 59) second)
           ("Invalid second: " ++ String_operand second) ;;
    let not := not_ c in
    let placeholder := placeholder second in
    part <- exSecond (VStr column) connection ;;
    Ok (set_negate false (push (not ++ part ++ " = " ++ placeholder) c),
        push_unless_ref values second).

End Condition.

(** ** [src/sql/Query.ts]: the abstract class [Query]

    A concrete builder provides [build] and [reset]; [Query] owns the
    fields [values], [connection] and [query] and provides [get] and
    [exec].  [build] returns the text together with the builder, whose
    [values] it may have replaced; [flat_values] is
    [this.get.values().flat()]. *)
Class Query (B : Type) : Type :=
  { this_query : B -> option string;
    flat_values : B -> list jsval;
    this_connection : B -> MegaPoolConnection;
    build_ : B -> result (string * B);
    reset_ : B -> B }.

(** [this.get.query()]: [this.query ? this.query : this.build()]. *)
Definition get_query {B} `{Query B} (b : B) : result (string * B) :=
  match this_query b with
  | Some q => if Is.fullStr q then Ok (q, b) else build_ b
  | None => build_ b
  end.

(** What [exec] hands to [connection.query]: the text of [get.query()]
    and [get.values().flat()], evaluated in this order. *)
Definition exec_arguments {B} `{Query B} (b : B)
  : result (string * list jsval * B) :=
  '(text, b') <- get_query b ;;
  Ok (text, flat_values b', b').

Definition exec {B} `{Query B} (b : B) : result (Rows * B) :=
  '(text, values, b') <- exec_arguments b ;;
  rows <- connection_query (this_connection b') text values ;;
  Ok (rows, b').

(** ** [src/sql/Select.ts] *)

Inductive Order : Type := ASC | DESC.

Definition Order_description (o : Order) : string :=
  match o with ASC => "ASC" | DESC => "DESC" end.

(** [Pagination<R>]. *)
Record Page : Type :=
  { prev : option Z; next : option Z; current : Z; items : Z }.
Record Total : Type := { total_items : Z; total_pages : Z }.
Record Pagination : Type :=
  { result_ : Rows; page : Page; total : Total }.

(** [Math.ceil(a / b)] for safe integers [0 <= a] and [1 <= b].  The
    double [a / b] is the quotient rounded by at most [a / b * 2^-53],
    which is less than [1 / b], the least distance of a quotient that is
    no integer to an integer: the ceiling of the double is the ceiling
    of the quotient. *)
Definition ceil_div (a b : Z) : Z := (- ((- a) / b))%Z.

Module Select.

Inductive Columns : Type :=
| Star
| Cols (names : list string).

Record Join : Type :=
  { join_table : string; join_type : string; join_condition : Condition.t }.

Record State : Type :=
  { table : option string;
    columns : Columns;
    order : list (string * string);
    group : list string;
    distinct_ : bool;
    limit_ : option Z;
    joins : list Join;
    where_condition : option Condition.t;
    having_condition : option Condition.t;
    unions : list (string * bool);
    offset_ : option Z }.

Record t : Type :=
  { state : State;
    values : list jsval;
    connection : MegaPoolConnection;
    query : option string }.

Definition initial : State :=
  {| table := None; columns := Star; order := []; group := [];
     distinct_ := false; limit_ := None; joins := [];
     where_condition := None;
     having_condition := None; unions := []; offset_ := None |}.

(** [new Select(connection)]. *)
Definition new (con : MegaPoolConnection) : t :=
  {| state := initial; values := []; connection := con; query := None |}.

Definition with_state (st : State) (s : t) : t :=
  {| state := st; values := values s; connection := connection s;
     query := query s |}.

Definition with_values (vs : list jsval) (s : t) : t :=
  {| state := state s; values := vs; connection := connection s;
     query := query s |}.

Definition set_table v (st : State) : State :=
  {| table := v; columns := columns st; order := order st;
     group := group st; distinct_ := distinct_ st; limit_ := limit_ st;
     joins := joins st; where_condition := where_condition st;
     having_condition := having_condition st;
     unions := unions st; offset_ := offset_ st |}.

Definition set_columns v (st : State) : State :=
  {| table := table st; columns := v; order := order st;
     group := group st; distinct_ := distinct_ st; limit_ := limit_ st;
     joins := joins st; where_condition := where_condition st;
     having_condition := having_condition st;
     unions := unions st; offset_ := offset_ st |}.

Definition set_order v (st : State) : State :=
  {| table := table st; columns := columns st; order := v;
     group := group st; distinct_ := distinct_ st; limit_ := limit_ st;
     joins := joins st; where_condition := where_condition st;
     having_condition := having_condition st;
     unions := unions st; offset_ := offset_ st |}.

Definition set_group v (st : State) : State :=
  {| table := table st; columns := columns st; order := order st;
     group := v; distinct_ := distinct_ st; limit_ := limit_ st;
     joins := joins st; where_condition := where_condition st;
     having_condition := having_condition st;
     unions := unions st; offset_ := offset_ st |}.

Definition set_distinct v (st : State) : State :=
  {| table := table st; columns := columns st; order := order st;
     group := group st; distinct_ := v; limit_ := limit_ st;
     joins := joins st; where_condition := where_condition st;
     having_condition := having_condition st;
     unions := unions st; offset_ := offset_ st |}.

Definition set_limit v (st : State) : State :=
  {| table := table st; columns := columns st; order := order st;
     group := group st; distinct_ := distinct_ st; limit_ := v;
     joins := joins st; where_condition := where_condition st;
     having_condition := having_condition st;
     unions := unions st; offset_ := offset_ st |}.

Definition set_joins v (st : State) : State :=
  {| table := table st; columns := columns st; order := order st;
     group := group st; distinct_ := distinct_ st; limit_ := limit_ st;
     joins := v; where_condition := where_condition st;
     having_condition := having_condition st;
     unions := unions st; offset_ := offset_ st |}.

Definition set_where v (st : State) : State :=
  {| table := table st; columns := columns st; order := order st;
     group := group st; distinct_ := distinct_ st; limit_ := limit_ st;
     joins := joins st; where_condition := v;
     having_condition := having_condition st;
     unions := unions st; offset_ := offset_ st |}.

Definition set_having v (st : State) : State :=
  {| table := table st; columns := columns st; order := order st;
     group := group st; distinct_ := distinct_ st; limit_ := limit_ st;
     joins := joins st; where_condition := where_condition st;
     having_condition := v;
     unions := unions st; offset_ := offset_ st |}.

Definition set_unions v (st : State) : State :=
  {| table := table st; columns := columns st; order := order st;
     group := group st; distinct_ := distinct_ st; limit_ := limit_ st;
     joins := joins st; where_condition := where_condition st;
     having_condition := having_condition st;
     unions := v; offset_ := offset_ st |}.

Definition set_offset v (st : State) : State :=
  {| table := table st; columns := columns st; order := order st;
     group := group st; distinct_ := distinct_ st; limit_ := limit_ st;
     joins := joins st; where_condition := where_condition st;
     having_condition := having_condition st;
     unions := unions st; offset_ := v |}.

(** [reset]: the assignments of the source, in their order. *)
Definition reset (s : t) : t :=
  let st := state s in
  let st := set_table None st in
  let st := set_columns Star st in
  let st := set_order [] st in
  let st := set_group [] st in
  let st := set_distinct false st in
  let st := set_limit None st in
  let st := set_joins [] st in
  let st := set_where None st in
  let st := set_unions [] st in
  let st := set_having None st in
  {| state := st; values := []; connection := connection s;
     query := None |}.

(** [if (!isFullStr(this.state.table)) throw ...], returning the table. *)
Definition checked_table (st : State) : result string :=
  match table st with
  | Some name =>
      _ <- guard (Is.fullStr name) ("Invalid SELECT table: " ++ name) ;;
      Ok name
  | None => Throw "Invalid SELECT table: undefined"
  end.

(** The clauses of [build], in the order in which they are appended to
    [statement]. *)

Fixpoint joins_map (js : list Join) : result (list string) :=
  match js with
  | [] => Ok []
  | join :: rest =>
      on <- Condition.build (join_condition join) ;;
      others <- joins_map rest ;;
      Ok ((join_type join ++ " JOIN " ++ join_table join ++ " ON " ++ on)
            :: others)
  end.

Definition joins_clause (st : State) : result string :=
  match joins st with
  | [] => Ok ""
  | js => joins <- joins_map js ;; Ok (" " ++ Str.join " " joins)
  end.

Definition where_clause (st : State) : result string :=
  match where_condition st with
  | Some c => w <- Condition.build c ;; Ok (" WHERE " ++ w)
  | None => Ok ""
  end.

Definition group_clause (st : State) : string :=
  match group st with
  | [] => ""
  | g => " GROUP BY " ++ Str.join ", " g
  end.

Definition having_clause (st : State) : result string :=
  match having_condition st with
  | Some c => h <- Condition.build c ;; Ok (" HAVING " ++ h)
  | None => Ok ""
  end.

Definition order_clause (st : State) : string :=
  match order st with
  | [] => ""
  | os =>
      " ORDER BY "
      ++ Str.join ", " (map (fun o : string * string => fst o ++ " " ++ snd o) os)
  end.

Definition limit_clause (st : State) : string :=
  match limit_ st with
  | Some n => " LIMIT " ++ Str.of_Z n
  | None => ""
  end.

Definition offset_clause (st : State) : string :=
  match offset_ st with
  | Some n => " OFFSET " ++ Str.of_Z n
  | None => ""
  end.

Definition unions_clause (st : State) : string :=
  match unions st with
  | [] => ""
  | us =>
      " " ++ Str.join " "
               (map (fun union : string * bool =>
                       (if snd union then "UNION ALL" else "UNION")
                       ++ " " ++ fst union) us)
  end.

Definition build (subquery : bool) (s : t) : result string :=
  let st := state s in
  table <- checked_table st ;;
  let columns :=
    match columns st with
    | Cols names => Str.join ", " names
    | Star => "*"
    end in
  let distinct := if distinct_ st then "DISTINCT " else "" in
  let statement := "SELECT " ++ distinct ++ columns ++ " FROM " ++ table in
  joins <- joins_clause st ;;
  let statement := statement ++ joins in
  where_ <- where_clause st ;;
  let statement := statement ++ where_ in
  let statement := statement ++ group_clause st in
  having <- having_clause st ;;
  let statement := statement ++ having in
  let statement := statement ++ order_clause st in
  let statement := statement ++ limit_clause st in
  let statement := statement ++ offset_clause st in
  let statement := statement ++ unions_clause st in
  Ok (if subquery then statement else statement ++ ";").

#[global] Instance Query_Select : Query t :=
  {| this_query := query;
     flat_values := values;
     this_connection := connection;
     build_ := fun s => text <- build false s ;; Ok (text, s);
     reset_ := reset |}.

(** A method applied to the [WHERE] condition [c] of the statement. *)
Definition on_where (m : Condition.method) (c : Condition.t) (s : t)
  : result t :=
  '(c', values') <- m (c, values s) ;;
  Ok (with_values values' (with_state (set_where (Some c') (state s)) s)).

Definition on_having (m : Condition.method) (c : Condition.t) (s : t)
  : result t :=
  '(c', values') <- m (c, values s) ;;
  Ok (with_values values' (with_state (set_having (Some c') (state s)) s)).

Definition and (s : t) : result t :=
  match where_condition (state s) with
  | None => Throw "Invalid SELECT condition"
  | Some c => on_where Condition.and c s
  end.

Definition or (s : t) : result t :=
  match where_condition (state s) with
  | None => Throw "Invalid SELECT condition"
  | Some c => on_where Condition.or c s
  end.

Definition paren (s : t) : result t :=
  match where_condition (state s) with
  | None => on_where Condition.paren Condition.new s
  | Some c => on_where Condition.paren c s
  end.

Definition open (s : t) : result t :=
  match where_condition (state s) with
  | None => on_where Condition.open Condition.new s
  | Some c => on_where Condition.open c s
  end.

Definition close (s : t) : result t :=
  match where_condition (state s) with
  | None => Throw "Invalid SELECT condition"
  | Some c => on_where Condition.close c s
  end.

Fixpoint check_names (message : string) (names : list string)
  : result unit :=
  match names with
  | [] => Ok tt
  | name :: rest =>
      _ <- guard (Is.fullStr name) (message ++ name) ;;
      check_names message rest
  end.

Definition col (names : list string) (s : t) : result t :=
  _ <- check_names "Invalid SELECT column: " names ;;
  Ok (with_state (set_columns (Cols names) (state s)) s).

Definition from (name : string) (s : t) : result t :=
  _ <- guard (Is.fullStr name) ("Invalid SELECT table: " ++ name) ;;
  Ok (with_state (set_table (Some name) (state s)) s).

Definition distinct (s : t) : result t :=
  Ok (with_state (set_distinct true (state s)) s).

Definition offset (value : jsval) (s : t) : result t :=
  _ <- guard (negb (negb (Is.isInt value) || (number value <? 0)%Z))
         ("Invalid OFFSET value: " ++ String_ value) ;;
  Ok (with_state (set_offset (Some (number value)) (state s)) s).

Definition limit (value : jsval) (s : t) : result t :=
  _ <- guard (negb (negb (Is.isInt value) || (number value <? 0)%Z))
         ("Invalid LIMIT value: " ++ String_ value) ;;
  Ok (with_state (set_limit (Some (number value)) (state s)) s).

(** [join], [leftJoin] and [rightJoin] differ in the [type] only. *)
Definition join_as (type : string) (table : string)
  (condition : Condition.method) (s : t) : result t :=
  _ <- guard (Is.fullStr table) ("Invalid JOIN table: " ++ table) ;;
  '(c, values') <- condition (Condition.new, values s) ;;
  let join :=
    {| join_table := table; join_type := type; join_condition := c |} in
  Ok (with_values values'
        (with_state (set_joins (joins (state s) ++ [join])%list (state s)) s)).

Definition join := join_as "INNER".
Definition leftJoin := join_as "LEFT".
Definition rightJoin := join_as "RIGHT".

Definition groupBy (names : list string) (s : t) : result t :=
  _ <- check_names "Invalid GROUP BY column: " names ;;
  Ok (with_state (set_group (group (state s) ++ names)%list (state s)) s).

Definition orderBy (column : string) (type : Order) (s : t) : result t :=
  _ <- guard (Is.fullStr column) ("Invalid ORDER BY column: " ++ column) ;;
  Ok (with_state
        (set_order (order (state s) ++ [(column, Order_description type)])%list
           (state s)) s).

Definition where_ (condition : Condition.method) (s : t) : result t :=
  match where_condition (state s) with
  | None => on_where condition Condition.new s
  | Some c => on_where condition c s
  end.

Definition having (condition : Condition.method) (s : t) : result t :=
  match having_condition (state s) with
  | None => on_having condition Condition.new s
  | Some c => on_having condition c s
  end.

(** [union] and [unionAll] differ in the flag [all] only. *)
Definition union_as (all : bool) (subquery : t -> result t) (s : t)
  : result t :=
  select <- subquery (new (connection s)) ;;
  text <- build true select ;;
  Ok (with_values (values s ++ values select)%list
        (with_state (set_unions (unions (state s) ++ [(text, all)])%list
                       (state s)) s)).

Definition union := union_as false.
Definition unionAll := union_as true.

(** [r[0].count] of the rows the counting query resolves to: the property
    of the first row, whatever it holds, and [undefined] when the row has
    none.  Without a first row the read throws a [TypeError], which
    rejects the promise. *)
Definition first_count (r : Rows) : result jsval :=
  match r with
  | row :: _ =>
      match find (fun kv => String.eqb (fst kv) "count") row with
      | Some (_, v) => Ok v
      | None => Ok VUndefined
      end
  | [] => Throw "Cannot read properties of undefined (reading 'count')"
  end.

(** [count]: the column list is swapped for the aggregate, the query is
    sent, and the column list is restored. *)
Definition count (s : t) : result (jsval * t) :=
  _ <- checked_table (state s) ;;
  let columns := columns (state s) in
  let s := with_state (set_columns (Cols ["COUNT(*) AS count"]) (state s)) s in
  '(text, s) <- get_query s ;;
  r <- connection_query (connection s) text (values s) ;;
  let s := with_state (set_columns columns (state s)) s in
  n <- first_count r ;;
  Ok (n, s).

(** [if (!isInt(n) || n < 1) n = fallback]. *)
Definition normalize (fallback : Z) (n : jsval) : Z :=
  if negb (Is.isInt n) || (number n <? 1)%Z then fallback else number n.

(** [paginate] computes on doubles: [(page - 1) * items], [page - 1],
    [page + 1] and [Math.ceil(total / items)].  The outcome is given where
    this arithmetic is exact: for a page number, a number of items and an
    offset that are safe integers, and a count that is a safe integer from
    zero on.  Elsewhere -- a count that is no integral number (a driver
    may report a string), a product that a double rounds or turns into
    [Infinity] -- the outcome is not computed, and the function has no
    result: [None].  A rejection of [count] comes before any of this. *)
Definition paginate (page items : jsval) (s : t)
  : option (result (Pagination * t)) :=
  let page := normalize 1 page in
  let items := normalize 10 items in
  match count s with
  | Throw message => Some (Throw message)
  | Ok (count, s) =>
      let offset_value := ((page - 1) * items)%Z in
      if negb (Double.safe page && Double.safe items
               && Double.safe offset_value)
      then None
      else
        match (s <- limit (VNum items) s ;;
               s <- offset (VNum offset_value) s ;;
               exec s) with
        | Throw message => Some (Throw message)
        | Ok (result, s) =>
            match count with
            | VNum total =>
                if Double.safe total && (0 <=? total)%Z
                then
                  let totalPages := ceil_div total items in
                  Some (Ok ({| result_ := result;
                               page :=
                                 {| current := page;
                                    prev := if (page - 1 =? 0)%Z then None
                                            else Some (page - 1)%Z;
                                    next := if (page <? totalPages)%Z
                                            then Some (page + 1)%Z else None;
                                    items := items |};
                               total := {| total_pages := totalPages;
                                           total_items := total |} |},
                            s))
                else None
            | _ => None
            end
        end
  end.

End Select.

(** ** [src/sql/Condition.ts]: the comparisons against a subquery

    They build a nested [Select]; [subquery] is the caller's function,
    which receives the new [Select] and chains calls on it. *)

Module Subquery.

Definition inSubquery (connection : MegaPoolConnection)
  (subquery : Select.t -> result Select.t) : Condition.method :=
  fun '(c, values) =>
    column <- Condition.checked_column c ;;
    select <- subquery (Select.new connection) ;;
    let not := Condition.not_ c in
    text <- Select.build true select ;;
    let condition := not ++ column ++ " IN (" ++ text ++ ")" in
    Ok (Condition.set_negate false (Condition.push condition c),
        (values ++ Select.values select)%list).

Definition exists_ (connection : MegaPoolConnection)
  (subquery : Select.t -> result Select.t) : Condition.method :=
  fun '(c, values) =>
    select <- subquery (Select.new connection) ;;
    let not := Condition.not_ c in
    text <- Select.build true select ;;
    let condition := not ++ "EXISTS (" ++ text ++ ")" in
    Ok (Condition.set_negate false (Condition.push condition c),
        (values ++ Select.values select)%list).

Definition any (connection : MegaPoolConnection) (operator : Operator)
  (subquery : Select.t -> result Select.t) : Condition.method :=
  fun '(c, values) =>
    column <- Condition.checked_column c ;;
    _ <- guard (negb (invalidOperator operator))
           ("Invalid operator: Symbol(" ++ description operator ++ ")") ;;
    select <- subquery (Select.new connection) ;;
    let not := Condition.not_ c in
    let sign := description operator in
    query <- Select.build true select ;;
    let condition :=
      not ++ column ++ " " ++ sign ++ " ANY (" ++ query ++ ")" in
    Ok (Condition.set_negate false (Condition.push condition c),
        (values ++ Select.values select)%list).

Definition all (connection : MegaPoolConnection) (operator : Operator)
  (subquery : Select.t -> result Select.t) : Condition.method :=
  fun '(c, values) =>
    column <- Condition.checked_column c ;;
    _ <- guard (negb (invalidOperator operator))
           ("Invalid operator: Symbol(" ++ description operator ++ ")") ;;
    select <- subquery (Select.new connection) ;;
    let not := Condition.not_ c in
    let sign := description operator in
    query <- Select.build true select ;;
    let condition :=
      not ++ column ++ " " ++ sign ++ " ALL (" ++ query ++ ")" in
    Ok (Condition.set_negate false (Condition.push condition c),
        (values ++ Select.values select)%list).

End Subquery.

(** ** [src/sql/Insert.ts] *)

Module Insert.

(** [values] holds one array per row. *)
Record t : Type :=
  { table : option string;
    columns : option (list string);
    returnings : option (list string);
    values : list (list jsval);
    connection : MegaPoolConnection;
    query : option string }.

(** [new Insert(connection)]. *)
Definition new (con : MegaPoolConnection) : t :=
  {| table := None; columns := None; returnings := None; values := [];
     connection := con; query := None |}.

Definition reset (i : t) : t :=
  {| table := None;
     columns := None;
     returnings := returnings i;
     values := [];
     connection := connection i;
     query := None |}.

(** [v === null ? 'NULL' : '?']. *)
Definition holder (v : jsval) : string :=
  match v with VNull => "NULL" | _ => "?" end.

(** [v !== null]. *)
Definition not_null (v : jsval) : bool := negb (Is.isNull v).

Definition build (i : t) : result (string * t) :=
  match table i with
  | None => Throw "Invalid INSERT table: undefined"
  | Some table =>
      _ <- guard (Is.fullStr table) ("Invalid INSERT table: " ++ table) ;;
      match columns i with
      | None => Throw ("Invalid INSERT columns: " ++ table)
      | Some cols =>
          _ <- guard (Is.isFullArr cols)
                 ("Invalid INSERT columns: " ++ table) ;;
          _ <- guard (Is.isFullArr (values i))
                 ("Invalid INSERT values: " ++ table) ;;
          let columns := Str.join ", " cols in
          let values :=
            Str.join ", "
              (map (fun r => "(" ++ Str.join ", " (map holder r) ++ ")")
                 (values i)) in
          let returnings :=
            match returnings i with
            | Some rs => " RETURNING " ++ Str.join ", " rs
            | None => ""
            end in
          let i' :=
            {| table := Some table; columns := Some cols;
               returnings := Insert.returnings i;
               values := map (filter not_null) (Insert.values i);
               connection := connection i; query := query i |} in
          Ok ("INSERT INTO " ++ table ++ " (" ++ columns ++ ") VALUES "
                ++ values ++ returnings ++ ";", i')
      end
  end.

#[global] Instance Query_Insert : Query t :=
  {| this_query := query;
     flat_values := fun i => concat (values i);
     this_connection := connection;
     build_ := build;
     reset_ := reset |}.

Definition into (table : string) (i : t) : result t :=
  _ <- guard (Is.fullStr table) ("Invalid INSERT table: " ++ table) ;;
  Ok {| table := Some table; columns := columns i;
        returnings := returnings i; values := values i;
        connection := connection i; query := query i |}.

Definition returning (columns : list string) (i : t) : result t :=
  _ <- guard (Is.isFullArr columns)
         ("Invalid RETURNING columns: " ++ Str.join "," columns) ;;
  Ok {| table := table i; columns := Insert.columns i;
        returnings := Some columns; values := values i;
        connection := connection i; query := query i |}.

(** [values.forEach(...)] of [row]: the first invalid value throws. *)
Fixpoint check_values (vs : list jsval) : result unit :=
  match vs with
  | [] => Ok tt
  | value :: rest =>
      _ <- guard (Is.isNull value || Is.isStr value || Is.isNum value)
             ("Invalid INSERT value: " ++ String_ value) ;;
      check_values rest
  end.

(** [columns.includes(column)]. *)
Definition includes (columns : list string) (column : string) : bool :=
  existsb (String.eqb column) columns.

Definition row (row : Row) (i : t) : result t :=
  cols <-
    match columns i with
    | Some established =>
        let columns := keys row in
        (* Test length *)
        _ <- guard (length established =? length columns)%nat
               "Invalid INSERT row: [object Object]" ;;
        (* Test names *)
        _ <- guard (forallb (includes columns) established)
               "Invalid INSERT row: [object Object]" ;;
        Ok established
    | None =>
        let columns := keys row in
        _ <- guard (negb (Is.isEmptyArr columns))
               "Empty INSERT row: [object Object]" ;;
        Ok columns
    end ;;
  let values := vals row in
  _ <- check_values values ;;
  Ok {| table := table i; columns := Some cols;
        returnings := returnings i;
        values := (Insert.values i ++ [values])%list;
        connection := connection i; query := query i |}.

(** [rows.forEach((row) => this.row(row))]. *)
Fixpoint each_row (rs : Rows) (i : t) : result t :=
  match rs with
  | [] => Ok i
  | r :: rest => i' <- row r i ;; each_row rest i'
  end.

Definition rows (rs : Rows) (i : t) : result t :=
  _ <- guard (Is.isFullArr rs) "Invalid rows: " ;;
  _ <- guard (negb (length rs <? 2)%nat)
         "Bulk insert requires at least 2 rows." ;;
  each_row rs i.

End Insert.

(** ** [src/sql/Update.ts] *)

Module Update.

Record State : Type :=
  { table : option string;
    columns : list string;
    condition : option Condition.t }.

Record t : Type :=
  { state : State;
    values : list jsval;
    connection : MegaPoolConnection;
    query : option string }.

(** [new Update(connection)]. *)
Definition new (con : MegaPoolConnection) : t :=
  {| state := {| table := None; columns := []; condition := None |};
     values := []; connection := con; query := None |}.

Definition reset (u : t) : t :=
  {| state := {| table := None; columns := []; condition := None |};
     values := []; connection := connection u; query := None |}.

(** [columns.map((c, i) => ...)]: the callback with its index. *)
Fixpoint mapi {A B} (f : A -> nat -> B) (from : nat) (l : list A) : list B :=
  match l with
  | [] => []
  | x :: rest => f x from :: mapi f (S from) rest
  end.

(** [this.values[i] === null]; an index past the end reads [undefined]. *)
Definition null_at (values : list jsval) (i : nat) : bool :=
  match nth_error values i with
  | Some v => Is.isNull v
  | None => false
  end.

Definition build (u : t) : result (string * t) :=
  match table (state u) with
  | None => Throw "Invalid UPDATE table: undefined"
  | Some table =>
      _ <- guard (Is.fullStr table) ("Invalid UPDATE table: " ++ table) ;;
      _ <- guard (Is.isFullArr (columns (state u)))
             "Invalid UPDATE columns" ;;
      _ <- guard (Is.isFullArr (values u)) "Invalid UPDATE values" ;;
      match condition (state u) with
      | None => Throw "UPDATE condition is required"
      | Some c =>
          let columns :=
            Str.join ", "
              (mapi (fun c i => if null_at (values u) i
                                then c ++ " = NULL" else c ++ " = ?")
                 0 (columns (state u))) in
          let u' :=
            {| state := state u;
               values := filter Insert.not_null (values u);
               connection := connection u; query := query u |} in
          where_ <- Condition.build c ;;
          Ok ("UPDATE " ++ table ++ " SET " ++ columns ++ " WHERE "
                ++ where_ ++ ";", u')
      end
  end.

#[global] Instance Query_Update : Query t :=
  {| this_query := query;
     flat_values := values;
     this_connection := connection;
     build_ := build;
     reset_ := reset |}.

(** [values.forEach(...)] of [set]: the first invalid value throws. *)
Fixpoint check_values (vs : list jsval) : result unit :=
  match vs with
  | [] => Ok tt
  | v :: rest =>
      _ <- guard (Is.isStr v || Is.isNum v || Is.isNull v)
             ("Invalid UPDATE value: " ++ String_ v) ;;
      check_values rest
  end.

Definition set (row : Row) (u : t) : result t :=
  let columns := keys row in
  let values := vals row in
  _ <- check_values values ;;
  Ok {| state := {| table := table (state u); columns := columns;
                    condition := condition (state u) |};
        values := values; connection := connection u; query := query u |}.

Definition table_ (name : string) (u : t) : result t :=
  _ <- guard (Is.fullStr name) ("Invalid UPDATE table: " ++ name) ;;
  Ok {| state := {| table := Some name; columns := columns (state u);
                    condition := condition (state u) |};
        values := values u; connection := connection u; query := query u |}.

(** A method applied to the condition [c] of the statement. *)
Definition on_condition (m : Condition.method) (c : Condition.t) (u : t)
  : result t :=
  '(c', values') <- m (c, values u) ;;
  Ok {| state := {| table := table (state u); columns := columns (state u);
                    condition := Some c' |};
        values := values'; connection := connection u; query := query u |}.

Definition where_ (condition : Condition.method) (u : t) : result t :=
  match Update.condition (state u) with
  | None => on_condition condition Condition.new u
  | Some c => on_condition condition c u
  end.

Definition and (u : t) : result t :=
  match condition (state u) with
  | None => Throw "Invalid UPDATE condition"
  | Some c => on_condition Condition.and c u
  end.

Definition or (u : t) : result t :=
  match condition (state u) with
  | None => Throw "Invalid UPDATE condition"
  | Some c => on_condition Condition.or c u
  end.

Definition paren (u : t) : result t :=
  match condition (state u) with
  | None => on_condition Condition.paren Condition.new u
  | Some c => on_condition Condition.paren c u
  end.

Definition open (u : t) : result t :=
  match condition (state u) with
  | None => on_condition Condition.open Condition.new u
  | Some c => on_condition Condition.open c u
  end.

Definition close (u : t) : result t :=
  match condition (state u) with
  | None => Throw "Invalid UPDATE condition"
  | Some c => on_condition Condition.close c u
  end.

End Update.

(** ** [src/sql/Delete.ts] *)

Module Delete.

Record t : Type :=
  { table : option string;
    condition : option Condition.t;
    values : list jsval;
    connection : MegaPoolConnection;
    query : option string }.

(** [new Delete(connection)]. *)
Definition new (con : MegaPoolConnection) : t :=
  {| table := None; condition := None; values := []; connection := con;
     query := None |}.

Definition reset (d : t) : t :=
  {| table := None; condition := None; values := [];
     connection := connection d; query := None |}.

Definition build (d : t) : result string :=
  match table d with
  | None => Throw "Invalid DELETE table: undefined"
  | Some table =>
      _ <- guard (Is.fullStr table) ("Invalid DELETE table: " ++ table) ;;
      match condition d with
      | None => Throw "DELETE condition is required"
      | Some c =>
          where_ <- Condition.build c ;;
          Ok ("DELETE FROM " ++ table ++ " WHERE " ++ where_ ++ ";")
      end
  end.

#[global] Instance Query_Delete : Query t :=
  {| this_query := query;
     flat_values := values;
     this_connection := connection;
     build_ := fun d => text <- build d ;; Ok (text, d);
     reset_ := reset |}.

Definition from (table : string) (d : t) : result t :=
  _ <- guard (Is.fullStr table) ("Invalid DELETE table: " ++ table) ;;
  Ok {| table := Some table; condition := condition d; values := values d;
        connection := connection d; query := query d |}.

(** A method applied to the condition [c] of the statement. *)
Definition on_condition (m : Condition.method) (c : Condition.t) (d : t)
  : result t :=
  '(c', values') <- m (c, values d) ;;
  Ok {| table := table d; condition := Some c'; values := values';
        connection := connection d; query := query d |}.

Definition where_ (condition : Condition.method) (d : t) : result t :=
  match Delete.condition d with
  | None => on_condition condition Condition.new d
  | Some c => on_condition condition c d
  end.

Definition and (d : t) : result t :=
  match condition d with
  | None => Throw "Invalid DELETE condition"
  | Some c => on_condition Condition.and c d
  end.

Definition or (d : t) : result t :=
  match condition d with
  | None => Throw "Invalid DELETE condition"
  | Some c => on_condition Condition.or c d
  end.

Definition paren (d : t) : result t :=
  match condition d with
  | None => on_condition Condition.paren Condition.new d
  | Some c => on_condition Condition.paren c d
  end.

Definition open (d : t) : result t :=
  match condition d with
  | None => on_condition Condition.open Condition.new d
  | Some c => on_condition Condition.open c d
  end.

Definition close (d : t) : result t :=
  match condition d with
  | None => Throw "Invalid DELETE condition"
  | Some c => on_condition Condition.close c d
  end.

End Delete.

(** ** Chains of calls

    A caller drives a builder by a chain of method calls; the functions
    it passes to [where], [join], [union], [inSubquery] and the like chain
    calls on the condition or on the nested [Select] they receive.  A chain
    is a list of calls, and a function argument is the chain it runs. *)

Inductive ConditionCall : Type :=
| CRaw (condition : string) (vs : list jsval)
| CNot
| COpen
| CClose
| CParen
| CAnd
| COr
| CCol (name : string)
| CEqual (value : operand)
| CLessThan (value : operand)
| CLessThanOrEqual (value : operand)
| CGreaterThan (value : operand)
| CGreaterThanOrEqual (value : operand)
| CBetween (start end_ : operand)
| CIn (vs : list operand)
| CLike (value : operand)
| CIsNull
| CInDate (date : operand)
| CInTime (time : operand)
| CInYear (year : operand)
| CInMonth (month : operand)
| CInDay (day : operand)
| CInHour (hour : operand)
| CInMinute (minute : operand)
| CInSecond (second : operand)
| CInSubquery (subquery : SelectChain)
| CExists (subquery : SelectChain)
| CAny (operator : Operator) (subquery : SelectChain)
| CAll (operator : Operator) (subquery : SelectChain)
with ConditionChain : Type :=
| CDone
| CThen (call : ConditionCall) (rest : ConditionChain)
with SelectCall : Type :=
| SFrom (name : string)
| SCol (names : list string)
| SDistinct
| SOffset (value : jsval)
| SLimit (value : jsval)
| SJoin (table : string) (condition : ConditionChain)
| SLeftJoin (table : string) (condition : ConditionChain)
| SRightJoin (table : string) (condition : ConditionChain)
| SGroupBy (names : list string)
| SOrderBy (column : string) (type : Order)
| SWhere (condition : ConditionChain)
| SHaving (condition : ConditionChain)
| SUnion (subquery : SelectChain)
| SUnionAll (subquery : SelectChain)
| SAnd
| SOr
| SParen
| SOpen
| SClose
| SReset
with SelectChain : Type :=
| SDone
| SThen (call : SelectCall) (rest : SelectChain).

Fixpoint call_condition (con : MegaPoolConnection) (call : ConditionCall)
  {struct call} : Condition.method :=
  match call with
  | CRaw condition vs => Condition.raw condition vs
  | CNot => Condition.not
  | COpen => Condition.open
  | CClose => Condition.close
  | CParen => Condition.paren
  | CAnd => Condition.and
  | COr => Condition.or
  | CCol name => Condition.col name
  | CEqual value => Condition.equal value
  | CLessThan value => Condition.lessThan value
  | CLessThanOrEqual value => Condition.lessThanOrEqual value
  | CGreaterThan value => Condition.greaterThan value
  | CGreaterThanOrEqual value => Condition.greaterThanOrEqual value
  | CBetween start end_ => Condition.between start end_
  | CIn vs => Condition.in_ vs
  | CLike value => Condition.like value
  | CIsNull => Condition.isNull
  | CInDate date => Condition.inDate date
  | CInTime time => Condition.inTime con time
  | CInYear year => Condition.inYear con year
  | CInMonth month => Condition.inMonth con month
  | CInDay day => Condition.inDay con day
  | CInHour hour => Condition.inHour con hour
  | CInMinute minute => Condition.inMinute con minute
  | CInSecond second => Condition.inSecond con second
  | CInSubquery subquery => Subquery.inSubquery con (run_select subquery)
  | CExists subquery => Subquery.exists_ con (run_select subquery)
  | CAny operator subquery => Subquery.any con operator (run_select subquery)
  | CAll operator subquery => Subquery.all con operator (run_select subquery)
  end
with run_condition (con : MegaPoolConnection) (chain : ConditionChain)
  {struct chain} : Condition.method :=
  match chain with
  | CDone => fun st => Ok st
  | CThen call rest =>
      fun st => st' <- call_condition con call st ;; run_condition con rest st'
  end
with call_select (call : SelectCall) {struct call} : Select.t -> result Select.t :=
  match call with
  | SFrom name => Select.from name
  | SCol names => Select.col names
  | SDistinct => Select.distinct
  | SOffset value => Select.offset value
  | SLimit value => Select.limit value
  | SJoin table condition =>
      fun s => Select.join table
                 (run_condition (Select.connection s) condition) s
  | SLeftJoin table condition =>
      fun s => Select.leftJoin table
                 (run_condition (Select.connection s) condition) s
  | SRightJoin table condition =>
      fun s => Select.rightJoin table
                 (run_condition (Select.connection s) condition) s
  | SGroupBy names => Select.groupBy names
  | SOrderBy column type => Select.orderBy column type
  | SWhere condition =>
      fun s => Select.where_
                 (run_condition (Select.connection s) condition) s
  | SHaving condition =>
      fun s => Select.having
                 (run_condition (Select.connection s) condition) s
  | SUnion subquery => Select.union (run_select subquery)
  | SUnionAll subquery => Select.unionAll (run_select subquery)
  | SAnd => Select.and
  | SOr => Select.or
  | SParen => Select.paren
  | SOpen => Select.open
  | SClose => Select.close
  | SReset => fun s => Ok (Select.reset s)
  end
with run_select (chain : SelectChain) {struct chain}
  : Select.t -> result Select.t :=
  match chain with
  | SDone => fun s => Ok s
  | SThen call rest => fun s => s' <- call_select call s ;; run_select rest s'
  end.

Inductive InsertCall : Type :=
| IInto (table : string)
| IReturning (columns : list string)
| IRow (row : Row)
| IRows (rows : Rows)
| IReset.

Definition call_insert (call : InsertCall) : Insert.t -> result Insert.t :=
  match call with
  | IInto table => Insert.into table
  | IReturning columns => Insert.returning columns
  | IRow row => Insert.row row
  | IRows rows => Insert.rows rows
  | IReset => fun i => Ok (Insert.reset i)
  end.

Fixpoint run_insert (chain : list InsertCall) (i : Insert.t)
  : result Insert.t :=
  match chain with
  | [] => Ok i
  | call :: rest => i' <- call_insert call i ;; run_insert rest i'
  end.

Inductive UpdateCall : Type :=
| UTable (name : string)
| USet (row : Row)
| UWhere (condition : ConditionChain)
| UAnd
| UOr
| UParen
| UOpen
| UClose
| UReset.

Definition call_update (call : UpdateCall) : Update.t -> result Update.t :=
  match call with
  | UTable name => Update.table_ name
  | USet row => Update.set row
  | UWhere condition =>
      fun u => Update.where_
                 (run_condition (Update.connection u) condition) u
  | UAnd => Update.and
  | UOr => Update.or
  | UParen => Update.paren
  | UOpen => Update.open
  | UClose => Update.close
  | UReset => fun u => Ok (Update.reset u)
  end.

Fixpoint run_update (chain : list UpdateCall) (u : Update.t)
  : result Update.t :=
  match chain with
  | [] => Ok u
  | call :: rest => u' <- call_update call u ;; run_update rest u'
  end.

Inductive DeleteCall : Type :=
| DFrom (table : string)
| DWhere (condition : ConditionChain)
| DAnd
| DOr
| DParen
| DOpen
| DClose
| DReset.

Definition call_delete (call : DeleteCall) : Delete.t -> result Delete.t :=
  match call with
  | DFrom table => Delete.from table
  | DWhere condition =>
      fun d => Delete.where_
                 (run_condition (Delete.connection d) condition) d
  | DAnd => Delete.and
  | DOr => Delete.or
  | DParen => Delete.paren
  | DOpen => Delete.open
  | DClose => Delete.close
  | DReset => fun d => Ok (Delete.reset d)
  end.

Fixpoint run_delete (chain : list DeleteCall) (d : Delete.t)
  : result Delete.t :=
  match chain with
  | [] => Ok d
  | call :: rest => d' <- call_delete call d ;; run_delete rest d'
  end.

(** A connection for the examples: MySQL, every query resolving to no row. *)
Definition mysql : MegaPoolConnection :=
  {| driver := MySQL; connection_query := fun _ _ => Ok [] |}.

(** ** The date helpers as one table

    [extract part col con] is the helper of [Condition.ts] for [part]. *)
Inductive DatePart : Type :=
| PDate | PTime | PYear | PMonth | PDay | PHour | PMinute | PSecond.

Definition extract (part : DatePart) (col : jsval) (con : MegaPoolConnection)
  : result string :=
  match part with
  | PDate => exDate col
  | PTime => exTime col con
  | PYear => exYear col con
  | PMonth => exMonth col con
  | PDay => exDay col con
  | PHour => exHour col con
  | PMinute => exMinute col con
  | PSecond => exSecond col con
  end.

Definition part_name (part : DatePart) : string :=
  match part with
  | PDate => "DATE" | PTime => "TIME" | PYear => "YEAR" | PMonth => "MONTH"
  | PDay => "DAY" | PHour => "HOUR" | PMinute => "MINUTE"
  | PSecond => "SECOND"
  end.

(** The format of [STRFTIME] that selects a part. *)
Definition strftime_format (part : DatePart) : string :=
  match part with
  | PDate => "%Y-%m-%d" | PTime => "%H:%M:%S" | PYear => "%Y"
  | PMonth => "%m" | PDay => "%d" | PHour => "%H" | PMinute => "%M"
  | PSecond => "%S"
  end.

(** The fragments as the specification lists them per driver kind:
    MySQL wraps the column in the function named after the part;
    PostgreSQL casts with [::DATE], formats the time with [TO_CHAR] and
    uses [EXTRACT(part FROM col)] otherwise; SQLite uses [DATE()] for the
    date and [STRFTIME] otherwise. *)
Definition specified_fragment (d : Driver) (part : DatePart) (col : string)
  : string :=
  match d, part with
  | MySQL, _ => part_name part ++ "(" ++ col ++ ")"
  | PostgreSQL, PDate => col ++ "::DATE"
  | PostgreSQL, PTime => "TO_CHAR(" ++ col ++ ", 'HH24:MI:SS')"
  | PostgreSQL, _ => "EXTRACT(" ++ part_name part ++ " FROM " ++ col ++ ")"
  | SQLite, PDate => "DATE(" ++ col ++ ")"
  | SQLite, _ => "STRFTIME('" ++ strftime_format part ++ "', " ++ col ++ ")"
  end.

(** The same table with the date part of PostgreSQL written [DATE(col)]. *)
Definition dialect_fragment (d : Driver) (part : DatePart) (col : string)
  : string :=
  match d, part with
  | PostgreSQL, PDate => "DATE(" ++ col ++ ")"
  | _, _ => specified_fragment d part col
  end.

Definition postgres : MegaPoolConnection :=
  {| driver := PostgreSQL; connection_query := fun _ _ => Ok [] |}.

Definition sqlite : MegaPoolConnection :=
  {| driver := SQLite; connection_query := fun _ _ => Ok [] |}.

(** ** What an operand of a comparison shows and binds

    [shown] is the text that stands for the operand in the fragment and
    [bound] the entries it adds to the sink: a reference shows its raw
    column and binds nothing, any other value shows the placeholder and
    binds itself. *)
Definition shown (o : operand) : string :=
  match o with
  | ORef (mkRef column) => column
  | OVal _ => "?"
  end.

Definition bound (o : operand) : list jsval :=
  match o with
  | ORef _ => []
  | OVal v => [v]
  end.

(** The operands of a call of a comparison that accepts operands. *)
Definition operands (call : ConditionCall) : option (list operand) :=
  match call with
  | CEqual v | CLessThan v | CLessThanOrEqual v | CGreaterThan v
  | CGreaterThanOrEqual v | CLike v
  | CInDate v | CInTime v | CInYear v | CInMonth v | CInDay v | CInHour v
  | CInMinute v | CInSecond v => Some [v]
  | CBetween a b => Some [a; b]
  | CIn vs => Some vs
  | _ => None
  end.

(** The fragment of such a call on the column [column], without the
    negation prefix. *)
Definition comparison (d : Driver) (call : ConditionCall) (column : string)
  : string :=
  match call with
  | CEqual v => column ++ " = " ++ shown v
  | CLessThan v => column ++ " < " ++ shown v
  | CLessThanOrEqual v => column ++ " <= " ++ shown v
  | CGreaterThan v => column ++ " > " ++ shown v
  | CGreaterThanOrEqual v => column ++ " >= " ++ shown v
  | CLike v => column ++ " LIKE " ++ shown v
  | CBetween a b => column ++ " BETWEEN " ++ shown a ++ " AND " ++ shown b
  | CIn vs => column ++ " IN (" ++ Str.join ", " (map shown vs) ++ ")"
  | CInDate v => dialect_fragment d PDate column ++ " = " ++ shown v
  | CInTime v => dialect_fragment d PTime column ++ " = " ++ shown v
  | CInYear v => dialect_fragment d PYear column ++ " = " ++ shown v
  | CInMonth v => dialect_fragment d PMonth column ++ " = " ++ shown v
  | CInDay v => dialect_fragment d PDay column ++ " = " ++ shown v
  | CInHour v => dialect_fragment d PHour column ++ " = " ++ shown v
  | CInMinute v => dialect_fragment d PMinute column ++ " = " ++ shown v
  | CInSecond v => dialect_fragment d PSecond column ++ " = " ++ shown v
  | _ => ""
  end.

(** ** The kinds of calls with respect to the negation flag *)
Inductive CallKind : Type := Terminal | Negation | Neutral.

Definition kind (call : ConditionCall) : CallKind :=
  match call with
  | CNot => Negation
  | CRaw _ _ | CAnd | COr | COpen | CClose | CParen | CCol _ => Neutral
  | _ => Terminal
  end.

(** The comparisons that read the selected column: all of them but
    [exists]. *)
Definition needs_column (call : ConditionCall) : bool :=
  match call with
  | CExists _ => false
  | _ => match kind call with Terminal => true | _ => false end
  end.

(** ** What a call accepts

    The check that a call makes on its arguments.  For a comparison, which
    makes it once the selected column has passed, every operand is a
    reference or passes the test of the method, and [in] needs an operand;
    [raw] takes a fragment that is not empty and values that are strings
    that are not empty or numbers; [col] takes a name that is not empty.
    The other calls check no argument. *)
Definition accepts (call : ConditionCall) : bool :=
  match call with
  | CRaw condition vs =>
      Is.fullStr condition
      && forallb (fun v => Is.isFullStr v || Is.isNum v) vs
  | CCol name => Is.fullStr name
  | CEqual v | CLessThan v | CLessThanOrEqual v | CGreaterThan v
  | CGreaterThanOrEqual v =>
      ref_or (fun v => Is.isFullStr v || Is.isNum v) v
  | CBetween a b =>
      ref_or (fun v => Is.isFullStr v || Is.isNum v) a
      && ref_or (fun v => Is.isFullStr v || Is.isNum v) b
  | CIn vs =>
      negb (Is.isEmptyArr vs)
      && forallb (ref_or (fun v => Is.isFullStr v || Is.isNum v)) vs
  | CLike v | CInDate v | CInTime v => ref_or Is.isFullStr v
  | CInYear v => ref_or int_positive v
  | CInMonth v => ref_or (int_between 1 12) v
  | CInDay v => ref_or (int_between 1 31) v
  | CInHour v => ref_or (int_between 0 23) v
  | CInMinute v | CInSecond v => ref_or (int_between 0 59) v
  | _ => true
  end.

(** The function handed to a comparison against a subquery. *)
Definition subquery_of (call : ConditionCall) : option SelectChain :=
  match call with
  | CInSubquery q | CExists q | CAny _ q | CAll _ q => Some q
  | _ => None
  end.

(** What a comparison needs in order to return: the column it reads is
    selected, its operands pass the checks, and the function it is handed
    returns on a new [Select] that builds. *)
Definition accepted (con : MegaPoolConnection) (call : ConditionCall)
  (c : Condition.t) : Prop :=
  (needs_column call = true ->
   exists column, Condition.column c = Some column
                  /\ Is.fullStr column = true)
  /\ accepts call = true
  /\ forall q, subquery_of call = Some q ->
       exists select text,
         run_select q (Select.new con) = Ok select
         /\ Select.build true select = Ok text.

(** ** A call whose error is caught

    Every method of a condition but [raw] makes its checks, and runs the
    function it is handed on a [Select] of its own, before it assigns:
    when it throws, the condition and the sink of the owner are as they
    were before the call.  [raw] pushes each value as soon as it has
    checked it: when it throws on a value, the values before that one are
    in the sink. *)
Fixpoint raw_pushed (vs : list jsval) : list jsval :=
  match vs with
  | [] => []
  | value :: rest =>
      if Is.isFullStr value || Is.isNum value
      then value :: raw_pushed rest
      else []
  end.

(** The condition and the sink that a call leaves, whether it returns or
    throws. *)
Definition left_by (con : MegaPoolConnection) (call : ConditionCall)
  (st : Condition.state) : Condition.state :=
  match call_condition con call st with
  | Ok st' => st'
  | Throw _ =>
      match call with
      | CRaw condition vs =>
          if Is.fullStr condition
          then (fst st, (snd st ++ raw_pushed vs)%list)
          else st
      | _ => st
      end
  end.

(** States used by the examples. *)
Definition on_age : Condition.t :=
  {| Condition.stack := []; Condition.negate := true;
     Condition.opened := 0%Z; Condition.column := Some "age" |}.

Definition where_id_1 : Update.t :=
  {| Update.state :=
       {| Update.table := Some "users"; Update.columns := [];
          Update.condition :=
            Some (Condition.mk ["id = ?"] false 0%Z (Some "id")) |};
     Update.values := [VNum 1]; Update.connection := mysql;
     Update.query := None |}.

(** A connection whose database counts [n] matching rows and returns no
    row for any other query. *)
Definition counting (n : Z) : MegaPoolConnection :=
  {| driver := MySQL;
     connection_query :=
       fun text _ =>
         if String.prefix "SELECT COUNT(*) AS count" text
         then Ok [[("count", VNum n)]]
         else Ok [] |}.

Definition active_users (con : MegaPoolConnection) : result Select.t :=
  run_select
    (SThen (SFrom "users")
       (SThen (SWhere (CThen (CCol "status")
                         (CThen (CEqual (OVal (VStr "active"))) CDone)))
          SDone))
    (Select.new con).

Definition users_55 : Select.t :=
  match active_users (counting 55) with
  | Ok s => s
  | Throw _ => Select.new (counting 55)
  end.

(** [row[column]] for each established column: the row-vector in the
    order of the column list. *)
Definition ordered_by (columns : list string) (row : Row) : list jsval :=
  map (fun column =>
         match find (fun kv => String.eqb (fst kv) column) row with
         | Some (_, v) => v
         | None => VUndefined
         end) columns.

(** The chains of the examples. *)

Definition product_with_null : list InsertCall :=
  [IInto "products"; IRow [("name", VStr "Nice product"); ("category", VNull)]].

Definition ban_user : list UpdateCall :=
  [UTable "users";
   USet [("name", VNull); ("status", VStr "banned")];
   UWhere (CThen (CCol "id") (CThen (CEqual (OVal (VNum 1))) CDone))].

Definition two_users_keys_swapped : list InsertCall :=
  [IInto "users";
   IRow [("id", VNum 1); ("name", VStr "John")];
   IRow [("name", VStr "Jane"); ("id", VNum 2)]].

Definition a_and_or_b : ConditionChain :=
  CThen (CCol "a") (CThen CIsNull (CThen CAnd (CThen COr
    (CThen (CCol "b") (CThen CIsNull CDone))))).

(** [build] called twice in a row on a builder. *)
Definition build_twice {B} `{Query B} (b : B) : result (string * string * B) :=
  '(first, b1) <- build_ b ;;
  '(second, b2) <- build_ b1 ;;
  Ok (first, second, b2).


(** ** Texts without a question mark of their own

    The count of placeholders in a statement can only be compared with the
    sink when the names the caller splices (tables, columns, references)
    hold no question mark, and when a raw fragment holds as many question
    marks as it binds values. *)
Definition clean (s : string) : bool := (Str.placeholders s =? 0)%nat.

Definition clean_operand (o : operand) : bool :=
  match o with
  | ORef r => clean (ref_column r)
  | OVal _ => true
  end.

Fixpoint plain_call (call : ConditionCall) : bool :=
  match call with
  | CRaw condition vs => (Str.placeholders condition =? length vs)%nat
  | CCol name => clean name
  | CEqual v | CLessThan v | CLessThanOrEqual v | CGreaterThan v
  | CGreaterThanOrEqual v | CLike v
  | CInDate v | CInTime v | CInYear v | CInMonth v | CInDay v | CInHour v
  | CInMinute v | CInSecond v => clean_operand v
  | CBetween a b => clean_operand a && clean_operand b
  | CIn vs => forallb clean_operand vs
  | CInSubquery sub | CExists sub | CAny _ sub | CAll _ sub =>
      plain_select sub
  | CNot | COpen | CClose | CParen | CAnd | COr | CIsNull => true
  end
with plain_condition (chain : ConditionChain) : bool :=
  match chain with
  | CDone => true
  | CThen call rest => plain_call call && plain_condition rest
  end
with plain_select_call (call : SelectCall) : bool :=
  match call with
  | SFrom name => clean name
  | SCol names | SGroupBy names => forallb clean names
  | SJoin table condition | SLeftJoin table condition
  | SRightJoin table condition => clean table && plain_condition condition
  | SOrderBy column _ => clean column
  | SWhere condition | SHaving condition => plain_condition condition
  | SUnion sub | SUnionAll sub => plain_select sub
  | SDistinct | SOffset _ | SLimit _ | SAnd | SOr | SParen | SOpen | SClose
  | SReset => true
  end
with plain_select (chain : SelectChain) : bool :=
  match chain with
  | SDone => true
  | SThen call rest => plain_select_call call && plain_select rest
  end.

Definition plain_insert_call (call : InsertCall) : bool :=
  match call with
  | IInto table => clean table
  | IReturning columns => forallb clean columns
  | IRow row => forallb clean (keys row)
  | IRows rows => forallb (fun row => forallb clean (keys row)) rows
  | IReset => true
  end.

Definition plain_delete_call (call : DeleteCall) : bool :=
  match call with
  | DFrom table => clean table
  | DWhere condition => plain_condition condition
  | _ => true
  end.

Definition plain_update_call (call : UpdateCall) : bool :=
  match call with
  | UTable name => clean name
  | USet row => forallb clean (keys row)
  | UWhere condition => plain_condition condition
  | _ => true
  end.

(** In a chain on an [Update], every [set] comes before the calls that
    build the condition ([where], [and], [or], [open], [close], [paren]);
    [reset] starts over.  [conditioned] tells whether a condition has been
    started. *)
Fixpoint set_first (conditioned : bool) (chain : list UpdateCall) : bool :=
  match chain with
  | [] => true
  | USet _ :: rest => negb conditioned && set_first conditioned rest
  | UTable _ :: rest => set_first conditioned rest
  | UReset :: rest => set_first false rest
  | _ :: rest => set_first true rest
  end.

(** The text the rows of an insertion or the assignments of an update
    show for a value. *)
Definition row_text (r : list jsval) : string :=
  "(" ++ Str.join ", " (map Insert.holder r) ++ ")".

Definition assignment (column : string) (v : jsval) : string :=
  column ++ " = " ++ Insert.holder v.

(** ** Placeholders held by a builder *)

(** The placeholders in the tokens of a condition. *)
Definition marks (c : Condition.t) : nat :=
  Str.placeholders (Str.join "" (Condition.stack c)).

Definition clean_column (c : Condition.t) : bool :=
  match Condition.column c with
  | Some name => clean name
  | None => true
  end.

Definition option_marks (c : option Condition.t) : nat :=
  match c with Some c => marks c | None => 0 end.

Definition option_clean (c : option Condition.t) : bool :=
  match c with Some c => clean_column c | None => true end.

(** The placeholders in the conditions and the unions of a [Select]. *)
Definition state_marks (st : Select.State) : nat :=
  list_sum (map (fun j => marks (Select.join_condition j)) (Select.joins st))
  + option_marks (Select.where_condition st)
  + option_marks (Select.having_condition st)
  + list_sum (map (fun u : string * bool => Str.placeholders (fst u))
                (Select.unions st)).

Definition clean_state (st : Select.State) : bool :=
  match Select.table st with Some name => clean name | None => true end
  && match Select.columns st with
     | Select.Cols names => forallb clean names
     | Select.Star => true
     end
  && forallb clean (Select.group st)
  && forallb (fun o : string * string => clean (fst o) && clean (snd o))
       (Select.order st)
  && forallb (fun j => clean (Select.join_table j)
                       && clean (Select.join_type j)) (Select.joins st)
  && option_clean (Select.where_condition st)
  && option_clean (Select.having_condition st).

(** A [Select] whose sink has one non-null value per placeholder of its
    conditions and unions, whose names are clean, and whose [query] has
    not been assigned. *)
Definition aligned (s : Select.t) : Prop :=
  state_marks (Select.state s) = length (Select.values s)
  /\ clean_state (Select.state s) = true
  /\ Forall (fun v => Insert.not_null v = true) (Select.values s)
  /\ Select.query s = None.

(** A call on a condition grows the sink by the non-null values [added]
    and the tokens by as many placeholders, and keeps the column clean. *)
Definition grows (c : Condition.t) (values : list jsval)
  (c' : Condition.t) (values' : list jsval) : Prop :=
  exists added,
    values' = (values ++ added)%list
    /\ marks c' = marks c + length added
    /\ clean_column c' = true
    /\ Forall (fun v => Insert.not_null v = true) added.

Definition condition_grows (m : Condition.method) : Prop :=
  forall c values c' values',
    clean_column c = true ->
    m (c, values) = Ok (c', values') ->
    grows c values c' values'.

Definition keeps_aligned (f : Select.t -> result Select.t) : Prop :=
  forall s s', aligned s -> f s = Ok s' -> aligned s'.

Scheme ConditionCall_chains := Induction for ConditionCall Sort Prop
  with ConditionChain_chains := Induction for ConditionChain Sort Prop
  with SelectCall_chains := Induction for SelectCall Sort Prop
  with SelectChain_chains := Induction for SelectChain Sort Prop.

Combined Scheme chains_ind from ConditionCall_chains, ConditionChain_chains,
  SelectCall_chains, SelectChain_chains.

(** ** The other builders: clean names, aligned sinks *)

Definition option_clean_name (name : option string) : bool :=
  match name with Some name => clean name | None => true end.

Definition option_clean_names (names : option (list string)) : bool :=
  match names with Some names => forallb clean names | None => true end.

Definition insert_clean (i : Insert.t) : Prop :=
  option_clean_name (Insert.table i) = true
  /\ option_clean_names (Insert.columns i) = true
  /\ option_clean_names (Insert.returnings i) = true
  /\ Insert.query i = None.

(** A [Delete] whose sink has one value per placeholder of its
    condition. *)
Definition delete_aligned (d : Delete.t) : Prop :=
  option_marks (Delete.condition d) = length (Delete.values d)
  /\ option_clean (Delete.condition d) = true
  /\ option_clean_name (Delete.table d) = true
  /\ Delete.query d = None.

(** An [Update] whose sink holds one value per column, followed by one
    non-null value per placeholder of its condition.  [conditioned] is the
    flag of [set_first]: while it is false no condition exists. *)
Definition update_aligned (conditioned : bool) (u : Update.t) : Prop :=
  (exists of_row of_condition,
      Update.values u = (of_row ++ of_condition)%list
      /\ length of_row = length (Update.columns (Update.state u))
      /\ length of_condition
         = option_marks (Update.condition (Update.state u))
      /\ Forall (fun v => Insert.not_null v = true) of_condition)
  /\ option_clean (Update.condition (Update.state u)) = true
  /\ option_clean_name (Update.table (Update.state u)) = true
  /\ forallb clean (Update.columns (Update.state u)) = true
  /\ Update.query u = None
  /\ (conditioned = false -> Update.condition (Update.state u) = None).

(** ** A statement built by a chain on a new builder *)
Inductive Statement : Type :=
| OnSelect (chain : SelectChain)
| OnInsert (chain : list InsertCall)
| OnUpdate (chain : list UpdateCall)
| OnDelete (chain : list DeleteCall).

(** The chain splices clean names only, binds as many values in a raw
    fragment as the fragment has question marks, and calls [set] of an
    [Update] before the condition is started. *)
Definition plain (st : Statement) : bool :=
  match st with
  | OnSelect chain => plain_select chain
  | OnInsert chain => forallb plain_insert_call chain
  | OnUpdate chain => forallb plain_update_call chain && set_first false chain
  | OnDelete chain => forallb plain_delete_call chain
  end.

(** The text and the flattened sink that [exec] hands to the connection
    after the chain. *)
Definition handed (con : MegaPoolConnection) (st : Statement)
  : result (string * list jsval) :=
  match st with
  | OnSelect chain =>
      s <- run_select chain (Select.new con) ;;
      '(text, values, _) <- exec_arguments s ;; Ok (text, values)
  | OnInsert chain =>
      i <- run_insert chain (Insert.new con) ;;
      '(text, values, _) <- exec_arguments i ;; Ok (text, values)
  | OnUpdate chain =>
      u <- run_update chain (Update.new con) ;;
      '(text, values, _) <- exec_arguments u ;; Ok (text, values)
  | OnDelete chain =>
      d <- run_delete chain (Delete.new con) ;;
      '(text, values, _) <- exec_arguments d ;; Ok (text, values)
  end.

(** The values of the rows of an [Insert], or of the row of an [Update],
    as the chain leaves them before [build] filters them. *)
Definition row_values (con : MegaPoolConnection) (st : Statement)
  : list (list jsval) :=
  match st with
  | OnInsert chain =>
      match run_insert chain (Insert.new con) with
      | Ok i => Insert.values i
      | Throw _ => []
      end
  | OnUpdate chain =>
      match run_update chain (Update.new con) with
      | Ok u => [firstn (length (Update.columns (Update.state u)))
                   (Update.values u)]
      | Throw _ => []
      end
  | _ => []
  end.

(** The assignments of an [Update]: each column with the text its value
    shows. *)
Definition assignments (columns : list string) (values : list jsval)
  : list string :=
  map (fun cv : string * jsval => assignment (fst cv) (snd cv))
    (combine columns values).

Definition where_before_set : list UpdateCall :=
  [UTable "users";
   UWhere (CThen (CCol "id") (CThen (CEqual (OVal (VNum 1))) CDone));
   USet [("name", VStr "John")]].

Definition set_before_where : list UpdateCall :=
  [UTable "users";
   USet [("name", VStr "John"); ("bio", VNull)];
   UWhere (CThen (CCol "id") (CThen (CEqual (OVal (VNum 1))) CDone))].

(** ** The patterns that [Condition.build] rejects, as texts

    [Pair kw kw' s]: somewhere in [s] the word [kw] is followed, after
    white space only, by the word [kw']. *)
Fixpoint all_space (s : string) : bool :=
  match s with
  | EmptyString => true
  | String a rest => Str.is_space a && all_space rest
  end.

Definition Pair (kw kw' : string) (s : string) : Prop :=
  exists before ws rest,
    all_space ws = true /\ s = before ++ kw ++ ws ++ kw' ++ rest.

Definition After_open (s : string) : Prop := Pair "(" "AND" s \/ Pair "(" "OR" s.
Definition Before_close (s : string) : Prop :=
  Pair "AND" ")" s \/ Pair "OR" ")" s.
Definition Repeated (s : string) : Prop :=
  Pair "AND" "AND" s \/ Pair "OR" "OR" s.
Definition Empty_parens (s : string) : Prop := Pair "(" ")" s.
Definition Trailing (s : string) : Prop :=
  exists before, s = before ++ "AND" \/ s = before ++ "OR".
Definition Leading (s : string) : Prop :=
  exists rest, s = "AND" ++ rest \/ s = "OR" ++ rest.

(** An operator directly followed by an operator, the same or the other
    one: what "consecutive AND/OR" says. *)
Definition Consecutive (s : string) : Prop :=
  Repeated s \/ Pair "AND" "OR" s \/ Pair "OR" "AND" s.


(** ** [src/MegaBuilder.ts]

    The factory of the four builders.  It keeps one connection, which the
    constructor and [set.connection] check with [isPoolCon], and hands it
    to every builder it creates. *)
Module MegaBuilder.

Record t : Type := { connection : MegaPoolConnection }.

(** [new MegaBuilder(connection)]. *)
Definition new (con : MegaPoolConnection) : result t :=
  _ <- guard (isPoolCon con) "Invalid connection: [object Object]" ;;
  Ok {| connection := con |}.

(** [builder.get.connection()]. *)
Definition get_connection (b : t) : result MegaPoolConnection :=
  _ <- guard (isPoolCon (connection b)) "Invalid connection: [object Object]" ;;
  Ok (connection b).

(** [builder.set.connection(connection)]. *)
Definition set_connection (con : MegaPoolConnection) (b : t) : result t :=
  _ <- guard (isPoolCon con) "Invalid connection: [object Object]" ;;
  Ok {| connection := con |}.

Definition insert (b : t) : Insert.t := Insert.new (connection b).
Definition select (b : t) : Select.t := Select.new (connection b).
Definition update (b : t) : Update.t := Update.new (connection b).
Definition delete (b : t) : Delete.t := Delete.new (connection b).

End MegaBuilder.

(** ** What a call on a condition touches *)

(** The tokens a call pushes: [not] and [col] push none, every other call
    pushes one. *)
Definition pushes (call : ConditionCall) : nat :=
  match call with
  | CNot | CCol _ => 0
  | _ => 1
  end.

(** The selected column after a call: only [col] selects another one. *)
Definition column_after (call : ConditionCall) (column : option string)
  : option string :=
  match call with
  | CCol name => Some name
  | _ => column
  end.

(** The depth after a call: [open] adds one, [close] takes one, [paren]
    opens at depth zero and closes at any other depth. *)
Definition depth_after (call : ConditionCall) (opened : Z) : Z :=
  match call with
  | COpen => (opened + 1)%Z
  | CClose => (opened - 1)%Z
  | CParen => if (opened =? 0)%Z then (opened + 1)%Z else (opened - 1)%Z
  | _ => opened
  end.

(** The comparisons of a part of a date that take a number, with the
    operand and the bounds the number is checked against. *)
Definition part_range (call : ConditionCall)
  : option (operand * Z * option Z) :=
  match call with
  | CInYear v => Some (v, 1%Z, None)
  | CInMonth v => Some (v, 1%Z, Some 12%Z)
  | CInDay v => Some (v, 1%Z, Some 31%Z)
  | CInHour v => Some (v, 0%Z, Some 23%Z)
  | CInMinute v => Some (v, 0%Z, Some 59%Z)
  | CInSecond v => Some (v, 0%Z, Some 59%Z)
  | _ => None
  end.

(** An integral number within the bounds. *)
Definition within (lo : Z) (hi : option Z) (v : jsval) : Prop :=
  exists z, v = VNum z
            /\ (lo <= z)%Z
            /\ match hi with Some h => (z <= h)%Z | None => True end.

(** A chain that groups with [paren] only. *)
Fixpoint no_open_close (chain : ConditionChain) : bool :=
  match chain with
  | CDone => true
  | CThen COpen _ | CThen CClose _ => false
  | CThen _ rest => no_open_close rest
  end.

(** ** The values a builder accepts for its sink *)

(** What [raw] and the comparisons accept as a value: a non-empty string
    or a number. *)
Definition scalar (v : jsval) : bool := Is.isFullStr v || Is.isNum v.

(** What [row] of [Insert] and [set] of [Update] accept as a value:
    [null], a string or a number. *)
Definition storable (v : jsval) : bool :=
  Is.isNull v || Is.isStr v || Is.isNum v.

(** A method of a condition that appends accepted values only. *)
Definition binds_scalars (m : Condition.method) : Prop :=
  forall c values c' values',
    m (c, values) = Ok (c', values') ->
    exists added,
      values' = (values ++ added)%list
      /\ Forall (fun v => scalar v = true) added.

(** A function on a [Select] that keeps a sink of accepted values so. *)
Definition keeps_scalars (f : Select.t -> result Select.t) : Prop :=
  forall s s',
    Forall (fun v => scalar v = true) (Select.values s) ->
    f s = Ok s' ->
    Forall (fun v => scalar v = true) (Select.values s').

(** ** Functions handed to [where], one after the other *)

(** The function that runs [first] and then [second] on the condition it
    receives. *)
Definition and_then (first second : Condition.method) : Condition.method :=
  fun st => st' <- first st ;; second st'.

(** ** Conditions that build *)

Definition builds (c : Condition.t) : Prop :=
  exists w, Condition.build c = Ok w.

Definition option_builds (c : option Condition.t) : Prop :=
  match c with
  | Some c => builds c
  | None => True
  end.

(** ** The rows of an [Insert] *)

(** Every row-vector has one entry per column of the column list, each
    entry [null], a string or a number; without a column list there is no
    row-vector. *)
Definition rectangular (i : Insert.t) : Prop :=
  match Insert.columns i with
  | Some columns =>
      columns <> []
      /\ Forall (fun r => length r = length columns
                          /\ Forall (fun v => storable v = true) r)
           (Insert.values i)
  | None => Insert.values i = []
  end.

(** A table name, when set, is not empty. *)
Definition named (table : option string) : Prop :=
  match table with
  | Some name => Is.fullStr name = true
  | None => True
  end.

(** States used by the examples. *)

Definition banned_user : Update.t :=
  {| Update.state :=
       {| Update.table := Some "users"; Update.columns := ["name"; "status"];
          Update.condition :=
            Some (Condition.mk ["id = ?"] false 0%Z (Some "id")) |};
     Update.values := [VNull; VStr "banned"; VNum 1];
     Update.connection := mysql; Update.query := None |}.

Definition banned_user_built : Update.t :=
  {| Update.state := Update.state banned_user;
     Update.values := [VStr "banned"; VNum 1];
     Update.connection := mysql; Update.query := None |}.

Definition two_users : Insert.t :=
  {| Insert.table := Some "users"; Insert.columns := Some ["id"; "name"];
     Insert.returnings := None;
     Insert.values := [[VNum 1; VStr "John"]];
     Insert.connection := mysql; Insert.query := None |}.

Definition inactive_users : Delete.t :=
  {| Delete.table := Some "users";
     Delete.condition :=
       Some (Condition.mk ["status = ?"] false 0%Z (Some "status"));
     Delete.values := [VStr "inactive"]; Delete.connection := mysql;
     Delete.query := None |}.

(** ** The column list of a [Select] as [build] renders it *)
Definition columns_text (columns : Select.Columns) : string :=
  match columns with
  | Select.Cols names => Str.join ", " names
  | Select.Star => "*"
  end.

(** The [Select] with another column list. *)
Definition with_columns (columns : Select.Columns) (s : Select.t) : Select.t :=
  Select.with_state (Select.set_columns columns (Select.state s)) s.

(** ** The sink along the tokens of a condition *)

(** The calls of a chain, in the order in which they are made. *)
Fixpoint calls (chain : ConditionChain) : list ConditionCall :=
  match chain with
  | CDone => []
  | CThen call rest => call :: calls rest
  end.

(** The values that a call binds when it returns: the values handed to
    [raw], the operands of a comparison that are no references, and the
    sink of the [Select] that the function of a comparison against a
    subquery has filled. *)
Definition bound_by (con : MegaPoolConnection) (call : ConditionCall)
  : list jsval :=
  match call with
  | CRaw _ vs => vs
  | CInSubquery q | CExists q | CAny _ q | CAll _ q =>
      match run_select q (Select.new con) with
      | Ok select => Select.values select
      | Throw _ => []
      end
  | _ =>
      match operands call with
      | Some ops => flat_map bound ops
      | None => []
      end
  end.

(** The prefix of a fragment: nothing, or the negation. *)
Definition negation (prefix : string) : Prop :=
  prefix = "" \/ prefix = "NOT ".

(** [token] is a token that the call pushes: the fragment handed to
    [raw], the key word or the parenthesis of the call, or the fragment
    of the comparison on some column, which shows its operands, behind
    the prefix. *)
Definition pushed_by (con : MegaPoolConnection) (call : ConditionCall)
  (token : string) : Prop :=
  match call with
  | CRaw condition _ => token = condition
  | CNot | CCol _ => False
  | COpen => token = "("
  | CClose => token = ")"
  | CParen => token = "(" \/ token = ")"
  | CAnd => token = " AND "
  | COr => token = " OR "
  | CIsNull =>
      exists prefix column,
        negation prefix /\ token = prefix ++ column ++ " IS NULL"
  | CInSubquery q =>
      exists prefix column select text,
        negation prefix
        /\ run_select q (Select.new con) = Ok select
        /\ Select.build true select = Ok text
        /\ token = prefix ++ column ++ " IN (" ++ text ++ ")"
  | CExists q =>
      exists prefix select text,
        negation prefix
        /\ run_select q (Select.new con) = Ok select
        /\ Select.build true select = Ok text
        /\ token = prefix ++ "EXISTS (" ++ text ++ ")"
  | CAny operator q =>
      exists prefix column select text,
        negation prefix
        /\ run_select q (Select.new con) = Ok select
        /\ Select.build true select = Ok text
        /\ token = prefix ++ column ++ " " ++ description operator
                   ++ " ANY (" ++ text ++ ")"
  | CAll operator q =>
      exists prefix column select text,
        negation prefix
        /\ run_select q (Select.new con) = Ok select
        /\ Select.build true select = Ok text
        /\ token = prefix ++ column ++ " " ++ description operator
                   ++ " ALL (" ++ text ++ ")"
  | _ =>
      exists prefix column,
        negation prefix
        /\ token = prefix ++ comparison (driver con) call column
  end.

(** The tokens and the sink follow the calls: a call that pushes no
    token binds no value; a call that pushes a token has pushed it behind
    the tokens of the calls before it, and has bound its values behind
    the values of the calls before it, as many as the token has
    placeholders.  So the values of a call stand in the sink where its
    token stands among the tokens. *)
Inductive follows (con : MegaPoolConnection)
  : list ConditionCall -> list string -> list jsval -> Prop :=
| follows_done : follows con [] [] []
| follows_silent (call : ConditionCall) (rest : list ConditionCall)
    (tokens : list string) (values : list jsval) :
    pushes call = 0 ->
    bound_by con call = [] ->
    follows con rest tokens values ->
    follows con (call :: rest) tokens values
| follows_token (call : ConditionCall) (rest : list ConditionCall)
    (token : string) (tokens : list string) (values : list jsval) :
    pushes call = 1 ->
    pushed_by con call token ->
    Str.placeholders token = length (bound_by con call) ->
    follows con rest tokens values ->
    follows con (call :: rest) (token :: tokens)
      (bound_by con call ++ values)%list.

(** A method of a condition that appends tokens and values as the calls
    [made] do, none of the values [null]. *)
Definition appends_calls (con : MegaPoolConnection)
  (made : list ConditionCall) (m : Condition.method) : Prop :=
  forall c values c' values',
    clean_column c = true ->
    m (c, values) = Ok (c', values') ->
    clean_column c' = true
    /\ exists pushed added,
        Condition.stack c' = (Condition.stack c ++ pushed)%list
        /\ values' = (values ++ added)%list
        /\ follows con made pushed added
        /\ Forall (fun v => Insert.not_null v = true) added.

(** The calls that a chain of calls on a [Delete] has made on its
    condition since the last [reset]: those of the functions handed to
    [where], and those that [and], [or], [paren], [open] and [close] of
    the statement make.  [made] holds the calls made before the chain. *)
Fixpoint delete_calls (chain : list DeleteCall) (made : list ConditionCall)
  : list ConditionCall :=
  match chain with
  | [] => made
  | DFrom _ :: rest => delete_calls rest made
  | DWhere condition :: rest =>
      delete_calls rest (made ++ calls condition)%list
  | DAnd :: rest => delete_calls rest (made ++ [CAnd])%list
  | DOr :: rest => delete_calls rest (made ++ [COr])%list
  | DParen :: rest => delete_calls rest (made ++ [CParen])%list
  | DOpen :: rest => delete_calls rest (made ++ [COpen])%list
  | DClose :: rest => delete_calls rest (made ++ [CClose])%list
  | DReset :: rest => delete_calls rest []
  end.

(** The same for an [Update]. *)
Fixpoint update_calls (chain : list UpdateCall) (made : list ConditionCall)
  : list ConditionCall :=
  match chain with
  | [] => made
  | UTable _ :: rest | USet _ :: rest => update_calls rest made
  | UWhere condition :: rest =>
      update_calls rest (made ++ calls condition)%list
  | UAnd :: rest => update_calls rest (made ++ [CAnd])%list
  | UOr :: rest => update_calls rest (made ++ [COr])%list
  | UParen :: rest => update_calls rest (made ++ [CParen])%list
  | UOpen :: rest => update_calls rest (made ++ [COpen])%list
  | UClose :: rest => update_calls rest (made ++ [CClose])%list
  | UReset :: rest => update_calls rest []
  end.

(** The sink of a [Delete] follows the tokens of its condition along the
    calls [made]; without a condition no call is made and the sink is
    empty. *)
Definition delete_follows (con : MegaPoolConnection)
  (made : list ConditionCall) (d : Delete.t) : Prop :=
  Delete.connection d = con
  /\ match Delete.condition d with
     | Some c =>
         clean_column c = true
         /\ follows con made (Condition.stack c) (Delete.values d)
     | None => made = [] /\ Delete.values d = []
     end.

(** The sink of an [Update] holds one value per column, followed by the
    values of the condition, which follow its tokens along the calls
    [made].  [conditioned] is the flag of [set_first]. *)
Definition update_follows (con : MegaPoolConnection)
  (made : list ConditionCall) (conditioned : bool) (u : Update.t) : Prop :=
  Update.connection u = con
  /\ (exists of_row of_condition,
         Update.values u = (of_row ++ of_condition)%list
         /\ length of_row = length (Update.columns (Update.state u))
         /\ Forall (fun v => Insert.not_null v = true) of_condition
         /\ match Update.condition (Update.state u) with
            | Some c =>
                clean_column c = true
                /\ follows con made (Condition.stack c) of_condition
            | None => made = [] /\ of_condition = []
            end)
  /\ (conditioned = false -> Update.condition (Update.state u) = None).

(** ** The clauses that one call sets *)

(** The clause of a [Select] that a call sets without touching the
    conditions and the sink. *)
Inductive Clause : Type :=
| TableClause | ColumnsClause | DistinctClause | OffsetClause | LimitClause
| GroupClause | OrderClause.

Definition clause_of (call : SelectCall) : option Clause :=
  match call with
  | SFrom _ => Some TableClause
  | SCol _ => Some ColumnsClause
  | SDistinct => Some DistinctClause
  | SOffset _ => Some OffsetClause
  | SLimit _ => Some LimitClause
  | SGroupBy _ => Some GroupClause
  | SOrderBy _ _ => Some OrderClause
  | _ => None
  end.

(** What such a call does to the state when its arguments pass the
    checks. *)
Definition clause_set (call : SelectCall) (st : Select.State) : Select.State :=
  match call with
  | SFrom name => Select.set_table (Some name) st
  | SCol names => Select.set_columns (Select.Cols names) st
  | SDistinct => Select.set_distinct true st
  | SOffset value => Select.set_offset (Some (number value)) st
  | SLimit value => Select.set_limit (Some (number value)) st
  | SGroupBy names => Select.set_group (Select.group st ++ names)%list st
  | SOrderBy column type =>
      Select.set_order
        (Select.order st ++ [(column, Order_description type)])%list st
  | _ => st
  end.

(** ** Scenarios

    The scenarios of the specification, run through the model. *)

Example select_users :
  (s <- run_select (SThen (SFrom "users") SDone) (Select.new mysql) ;;
   Select.build false s)
  = Ok "SELECT * FROM users;".
Proof. reflexivity. Qed.

Example select_where_city :
  (s <- run_select
          (SThen (SFrom "profiles")
             (SThen (SWhere (CThen (CCol "city")
                               (CThen (CEqual (OVal (VStr "Tokyo"))) CDone)))
                SDone)) (Select.new mysql) ;;
   text <- Select.build false s ;; Ok (text, Select.values s))
  = Ok ("SELECT * FROM profiles WHERE city = ?;", [VStr "Tokyo"]).
Proof. reflexivity. Qed.

Example update_with_null :
  (u <- run_update
          [UTable "profiles";
           USet [("gender", VStr "male"); ("city", VNull)];
           UWhere (CThen (CCol "user_id")
                     (CThen (CEqual (OVal (VNum 100))) CDone))]
          (Update.new mysql) ;;
   '(text, u') <- Update.build u ;; Ok (text, Update.values u'))
  = Ok ("UPDATE profiles SET gender = ?, city = NULL WHERE user_id = ?;",
        [VStr "male"; VNum 100]).
Proof. reflexivity. Qed.

Example insert_user :
  (i <- run_insert
          [IInto "users";
           IRow [("email", VStr "a@b.com"); ("password", VStr "123")]]
          (Insert.new mysql) ;;
   '(text, _) <- Insert.build i ;; Ok text)
  = Ok "INSERT INTO users (email, password) VALUES (?, ?);".
Proof. reflexivity. Qed.

Example select_empty_condition :
  (s <- run_select (SThen (SFrom "users") (SThen (SWhere CDone) SDone))
          (Select.new mysql) ;;
   Select.build false s)
  = Throw "Invalid syntax: Condition cannot be empty.".
Proof. reflexivity. Qed.

(** Cases of the test suite of the repository. *)

Example in_with_reference :
  ('(c, values) <-
     run_condition mysql
       (CThen (CCol "id")
          (CThen (CIn [ORef (mkRef "table.column"); OVal (VNum 2);
                       OVal (VNum 3)]) CDone))
       (Condition.new, []) ;;
   text <- Condition.build c ;; Ok (text, values))
  = Ok ("id IN (table.column, ?, ?)", [VNum 2; VNum 3]).
Proof. reflexivity. Qed.

Example not_in_subquery :
  ('(c, values) <-
     run_condition mysql
       (CThen (CCol "user_id")
          (CThen CNot
             (CThen (CInSubquery
                       (SThen (SCol ["id"])
                          (SThen (SFrom "users")
                             (SThen (SWhere
                                       (CThen (CCol "status")
                                          (CThen (CEqual (OVal (VStr "active")))
                                             CDone)))
                                SDone))))
                CDone)))
       (Condition.new, []) ;;
   text <- Condition.build c ;; Ok (text, values))
  = Ok ("NOT user_id IN (SELECT id FROM users WHERE status = ?)",
        [VStr "active"]).
Proof. reflexivity. Qed.

Example more_than_any :
  ('(c, values) <-
     run_condition mysql
       (CThen (CCol "age")
          (CThen (CAny MORE (SThen (SCol ["age"]) (SThen (SFrom "users") SDone)))
             CDone))
       (Condition.new, []) ;;
   text <- Condition.build c ;; Ok (text, values))
  = Ok ("age > ANY (SELECT age FROM users)", []).
Proof. reflexivity. Qed.

Example empty_parentheses :
  ('(c, _) <-
     run_condition mysql
       (CThen COpen (CThen CClose (CThen (CCol "status")
          (CThen (CEqual (OVal (VStr "active"))) CDone))))
       (Condition.new, []) ;;
   Condition.build c)
  = Throw "Invalid syntax: Empty parentheses found.".
Proof. reflexivity. Qed.

Example join_on_reference :
  (s <- run_select
          (SThen (SFrom "users")
             (SThen (SJoin "orders"
                       (CThen (CCol "users.id")
                          (CThen (CEqual (ORef (mkRef "orders.user_id")))
                             CDone)))
                SDone)) (Select.new mysql) ;;
   text <- Select.build false s ;; Ok (text, Select.values s))
  = Ok ("SELECT * FROM users INNER JOIN orders ON users.id = orders.user_id;",
        []).
Proof. reflexivity. Qed.

Example insert_with_nulls :
  (i <- run_insert
          [IInto "products";
           IRow [("name", VStr "Nice product"); ("price", VNum 123);
                 ("category", VNull); ("description", VNull)]]
          (Insert.new mysql) ;;
   '(text, i') <- Insert.build i ;; Ok (text, Insert.values i'))
  = Ok ("INSERT INTO products (name, price, category, description) VALUES (?, ?, NULL, NULL);",
        [[VStr "Nice product"; VNum 123]]).
Proof. reflexivity. Qed.

Example delete_in_parentheses :
  (d <- run_delete
          [DFrom "users"; DOpen;
           DWhere (CThen (CCol "age")
                     (CThen (CLessThan (OVal (VStr "18"))) CDone));
           DClose]
          (Delete.new mysql) ;;
   Delete.build d)
  = Ok "DELETE FROM users WHERE (age < ?);".
Proof. reflexivity. Qed.

Example hundred_items_two_per_page :
  match active_users (counting 100) with
  | Ok s =>
      option_map (fun r => '(pg, _) <- r ;; Ok (page pg, total pg))
        (Select.paginate (VNum 1) (VNum 2) s)
  | Throw _ => None
  end
  = Some (Ok ({| prev := None; next := Some 2%Z; current := 1%Z;
                 items := 2%Z |},
              {| total_items := 100%Z; total_pages := 50%Z |})).
Proof. reflexivity. Qed.

Example no_item :
  match active_users (counting 0) with
  | Ok s =>
      option_map (fun r => '(pg, _) <- r ;; Ok (page pg, total pg))
        (Select.paginate (VNum 1) (VNum 10) s)
  | Throw _ => None
  end
  = Some (Ok ({| prev := None; next := None; current := 1%Z;
                 items := 10%Z |},
              {| total_items := 0%Z; total_pages := 0%Z |})).
Proof. reflexivity. Qed.

(** ** Reasoning about calls that return *)

Lemma bind_Ok {A B} (r : result A) (k : A -> result B) (b : B) :
  bind r k = Ok b -> exists a, r = Ok a /\ k a = Ok b.
Proof. destruct r as [a|m]; simpl; [eauto | discriminate]. Qed.

Lemma guard_Ok (ok : bool) (m : string) (u : unit) :
  guard ok m = Ok u -> ok = true.
Proof. destruct ok; [reflexivity | discriminate]. Qed.

(** Splits a hypothesis [x <- r ;; k = Ok b] into [r = Ok x] and
    [k = Ok b], as often as possible. *)
Ltac returns H :=
  repeat
    (let a := fresh "a" in
     let E := fresh "E" in
     apply bind_Ok in H; destruct H as [a [E H]];
     try (apply guard_Ok in E);
     try match type of a with
         | ?T => let T' := eval hnf in T in
                 match T' with
                 | unit => destruct a
                 | prod _ _ => destruct a
                 end
         end;
     cbv beta iota in H).

(** Uses up the equations between returned values. *)
Ltac finish :=
  repeat match goal with
    | H : Ok _ = Ok _ |- _ => inversion H; subst; clear H
    end.

Lemma checked_column_Ok (c : Condition.t) (name : string) :
  Condition.checked_column c = Ok name ->
  Condition.column c = Some name /\ Is.fullStr name = true.
Proof.
  unfold Condition.checked_column.
  destruct (Condition.column c) as [n|]; [|discriminate].
  intros H. returns H. now inversion H; subst.
Qed.

Lemma extract_fragment (con : MegaPoolConnection) (part : DatePart)
  (col : string) :
  extract part (VStr col) con = Ok (dialect_fragment (driver con) part col).
Proof. destruct con as [d q]; destruct d, part; reflexivity. Qed.

Lemma shown_placeholder (o : operand) : placeholder o = shown o.
Proof. destruct o as [[c]|v]; reflexivity. Qed.

Lemma push_unless_ref_bound (values : list jsval) (o : operand) :
  push_unless_ref values o = (values ++ bound o)%list.
Proof. destruct o; simpl; [now rewrite app_nil_r | reflexivity]. Qed.

Lemma fold_push_unless_ref (vs : list operand) (values : list jsval) :
  fold_left push_unless_ref vs values = (values ++ flat_map bound vs)%list.
Proof.
  revert values; induction vs as [|o vs IH]; intros values; simpl.
  - now rewrite app_nil_r.
  - now rewrite IH, push_unless_ref_bound, <- app_assoc.
Qed.

Lemma map_placeholder (vs : list operand) :
  map placeholder vs = map shown vs.
Proof. apply map_ext, shown_placeholder. Qed.

(** ** Date-part helpers (C8) *)

(** C8, as the specification states it, fails: for a PostgreSQL
    connection the date part of [created_at] is not the [::DATE] cast; the
    helper [exDate] takes no connection and returns [DATE(created_at)]. *)
Lemma C8_postgres_date_is_not_a_cast :
  extract PDate (VStr "created_at") postgres = Ok "DATE(created_at)"
  /\ extract PDate (VStr "created_at") postgres
     <> Ok (specified_fragment (driver postgres) PDate "created_at").
Proof. split; [reflexivity | discriminate]. Qed.

(** C8, amended: for every column name and every driver kind the helper
    of a part returns the fragment of [dialect_fragment]: the functions
    DATE, TIME, YEAR, ... for MySQL; [DATE(col)], [TO_CHAR(col,
    'HH24:MI:SS')] and [EXTRACT(part FROM col)] for PostgreSQL; [DATE(col)]
    and [STRFTIME] with the format of the part for SQLite. *)
Theorem C8_date_helpers (con : MegaPoolConnection) (part : DatePart)
  (col : string) :
  extract part (VStr col) con = Ok (dialect_fragment (driver con) part col).
Proof.
  destruct con as [d q]; destruct d, part; reflexivity.
Qed.

(** ** Operands of comparisons (C6) *)

Lemma checked_column_returns (c : Condition.t) (name : string) :
  Condition.column c = Some name -> Is.fullStr name = true ->
  Condition.checked_column c = Ok name.
Proof.
  intros Hc Hn. unfold Condition.checked_column. now rewrite Hc, Hn.
Qed.

Lemma in_check_returns (vs : list operand) :
  forallb (ref_or (fun v => Is.isFullStr v || Is.isNum v)) vs = true <->
  Condition.in_check vs = Ok tt.
Proof.
  induction vs as [|v vs IH]; cbn [forallb Condition.in_check].
  - split; reflexivity.
  - destruct (ref_or _ v); cbn [andb guard bind]; [exact IH|].
    split; discriminate.
Qed.

Ltac as_extract con :=
  repeat match goal with
    | |- context [exDate ?x] =>
        change (exDate x) with (extract PDate x con)
    | |- context [exTime ?x ?k] => change (exTime x k) with (extract PTime x k)
    | |- context [exYear ?x ?k] => change (exYear x k) with (extract PYear x k)
    | |- context [exMonth ?x ?k] =>
        change (exMonth x k) with (extract PMonth x k)
    | |- context [exDay ?x ?k] => change (exDay x k) with (extract PDay x k)
    | |- context [exHour ?x ?k] => change (exHour x k) with (extract PHour x k)
    | |- context [exMinute ?x ?k] =>
        change (exMinute x k) with (extract PMinute x k)
    | |- context [exSecond ?x ?k] =>
        change (exSecond x k) with (extract PSecond x k)
    end.

Ltac unfold_method :=
  match goal with
  | |- context [?m (_, _)] => unfold m
  | |- context [?m _ (_, _)] => unfold m
  | |- context [?m _ _ (_, _)] => unfold m
  | |- context [?m _ _ _ (_, _)] => unfold m
  end.

(** A comparison on a selected column whose operands pass the checks
    returns, with its fragment pushed and its operands bound. *)
Lemma operands_accepted (con : MegaPoolConnection) (call : ConditionCall)
  (ops : list operand) (c : Condition.t) (values : list jsval)
  (column : string) :
  operands call = Some ops ->
  Condition.column c = Some column -> Is.fullStr column = true ->
  accepts call = true ->
  call_condition con call (c, values)
  = Ok (Condition.mk
          (Condition.stack c
             ++ [(Condition.not_ c
                    ++ comparison (driver con) call column)%string])%list
          false (Condition.opened c) (Some column),
        (values ++ flat_map bound ops)%list).
Proof.
  intros Hcall Hcol Hfull Hacc.
  pose proof (checked_column_returns c Hcol Hfull) as Hchecked.
  destruct call; cbn [operands] in Hcall; inversion Hcall; subst; clear Hcall;
    cbn [call_condition accepts] in *; unfold_method;
    rewrite Hchecked; cbn [bind];
    try (apply andb_prop in Hacc; destruct Hacc as [Hacc Hacc']);
    try (apply in_check_returns in Hacc');
    rewrite ?Hacc, ?Hacc'; cbn [guard bind];
    as_extract con; rewrite ?extract_fragment; cbn [bind];
    unfold Condition.set_negate, Condition.push;
    cbn [Condition.stack Condition.negate Condition.opened Condition.column
         comparison flat_map];
    rewrite ?shown_placeholder, ?map_placeholder, ?push_unless_ref_bound,
      ?fold_push_unless_ref, ?app_nil_r, <- ?app_assoc, Hcol;
    reflexivity.
Qed.

(** Such a comparison returns in no other case. *)
Lemma operands_checked (con : MegaPoolConnection) (call : ConditionCall)
  (ops : list operand) (c : Condition.t) (values : list jsval)
  (st : Condition.state) :
  operands call = Some ops ->
  call_condition con call (c, values) = Ok st ->
  exists column,
    Condition.column c = Some column /\ Is.fullStr column = true
    /\ accepts call = true.
Proof.
  intros Hcall Hret.
  destruct call; cbn [operands] in Hcall; inversion Hcall; subst; clear Hcall;
    cbn [call_condition accepts] in *;
    match type of Hret with
    | ?m _ (_, _) = _ => unfold m in Hret
    | ?m _ _ (_, _) = _ => unfold m in Hret
    end;
    returns Hret;
    match goal with
    | E : Condition.checked_column _ = Ok ?n |- _ =>
        apply checked_column_Ok in E; destruct E as [Hcol Hfull]; exists n
    end;
    (split; [assumption|]); (split; [assumption|]);
    repeat match goal with
      | E : Condition.in_check _ = Ok ?u |- _ =>
          destruct u; apply in_check_returns in E
      | E : negb _ = true |- _ => rewrite E
      | E : ref_or _ _ = true |- _ => rewrite E
      | E : forallb _ _ = true |- _ => rewrite E
      end;
    reflexivity.
Qed.

Lemma references_accepted (call : ConditionCall) (ops : list operand) :
  operands call = Some ops ->
  (forall o, In o ops -> exists r, o = ORef r) -> ops <> [] ->
  accepts call = true.
Proof.
  intros Hcall Hrefs Hops.
  assert (Hall : forall test,
             forallb (ref_or test) ops = true).
  { intros test. apply forallb_forall. intros o Ho.
    destruct (Hrefs o Ho) as [r ->]. reflexivity. }
  destruct call; cbn [operands] in Hcall; inversion Hcall; subst; clear Hcall;
    cbn [accepts];
    try (destruct (Hrefs _ (or_introl eq_refl)) as [r ->]);
    try (destruct (Hrefs _ (or_intror (or_introl eq_refl))) as [r' ->]);
    try reflexivity.
  rewrite Hall. destruct ops; [contradiction Hops|]; reflexivity.
Qed.

Lemma values_accepted (call : ConditionCall) (ops : list operand)
  (v : jsval) :
  operands call = Some ops -> In (OVal v) ops -> accepts call = true ->
  Is.isFullStr v = true \/ Is.isNum v = true.
Proof.
  intros Hcall Hin Hacc.
  assert (Hscalar : forall w, Is.isFullStr w || Is.isNum w = true ->
                              Is.isFullStr w = true \/ Is.isNum w = true).
  { intros w Hw. now apply orb_prop. }
  assert (Hpositive : forall w, int_positive w = true ->
                                Is.isFullStr w = true \/ Is.isNum w = true).
  { intros w Hw. right. destruct w; try discriminate Hw. reflexivity. }
  assert (Hbetween : forall lo hi w, int_between lo hi w = true ->
                                     Is.isFullStr w = true \/ Is.isNum w = true).
  { intros lo hi w Hw. right. destruct w; try discriminate Hw. reflexivity. }
  destruct call; cbn [operands] in Hcall; inversion Hcall; subst; clear Hcall;
    cbn [accepts] in Hacc.
  all: try (destruct Hin as [Hin|[]]; subst; cbn [ref_or] in Hacc; eauto; fail).
  - (* between *)
    apply andb_prop in Hacc. destruct Hacc as [Ha Hb].
    destruct Hin as [Hin|[Hin|[]]]; subst; cbn [ref_or] in *; auto.
  - (* in *)
    apply andb_prop in Hacc. destruct Hacc as [_ Hall].
    rewrite forallb_forall in Hall. apply Hscalar. exact (Hall _ Hin).
Qed.

(** C6: a comparison that accepts operands returns exactly when a column
    is selected and every operand is a reference or passes the check of
    the method; references always pass, and a value that passes is a
    string that is not empty or a number.  The comparison then pushes one
    fragment, in which every reference operand is shown as its raw column
    text and every other operand as [?]; the sink grows by exactly the
    operands that are not references, in their order. *)
Theorem C6_operands (con : MegaPoolConnection) (call : ConditionCall)
  (ops : list operand) (c : Condition.t) (values : list jsval)
  (Hcall : operands call = Some ops) :
  (forall column,
      Condition.column c = Some column -> Is.fullStr column = true ->
      accepts call = true ->
      call_condition con call (c, values)
      = Ok (Condition.mk
              (Condition.stack c
                 ++ [(Condition.not_ c
                        ++ comparison (driver con) call column)%string])%list
              false (Condition.opened c) (Some column),
            (values ++ flat_map bound ops)%list))
  /\ (forall st,
         call_condition con call (c, values) = Ok st ->
         exists column,
           Condition.column c = Some column /\ Is.fullStr column = true
           /\ accepts call = true)
  /\ ((forall o, In o ops -> exists r, o = ORef r) -> ops <> [] ->
      accepts call = true)
  /\ (forall v, In (OVal v) ops -> accepts call = true ->
                Is.isFullStr v = true \/ Is.isNum v = true)
  /\ (forall col, shown (ORef (mkRef col)) = col /\ bound (ORef (mkRef col)) = [])
  /\ (forall v, shown (OVal v) = "?" /\ bound (OVal v) = [v]).
Proof.
  split; [intros column; now apply operands_accepted|].
  split; [intros st; now apply operands_checked with (ops := ops)|].
  split; [now apply references_accepted|].
  split; [intros v; now apply values_accepted|].
  split; intros; split; reflexivity.
Qed.

Lemma C6_operands_witness :
  call_condition mysql (CLike (ORef (mkRef "pattern"))) (on_age, [VStr "x"])
  = Ok (Condition.mk ["NOT age LIKE pattern"] false 0%Z (Some "age"),
        [VStr "x"])
  /\ call_condition postgres
       (CIn [OVal (VNum 1); ORef (mkRef "b"); OVal (VStr "c")]) (on_age, [])
     = Ok (Condition.mk ["NOT age IN (?, b, ?)"] false 0%Z (Some "age"),
           [VNum 1; VStr "c"])
  /\ call_condition sqlite (CInMonth (OVal (VNum 12))) (on_age, [])
     = Ok (Condition.mk ["NOT STRFTIME('%m', age) = ?"] false 0%Z
             (Some "age"),
           [VNum 12]).
Proof.
  split; [|split].
  - exact (proj1 (@C6_operands mysql (CLike (ORef (mkRef "pattern"))) _
                    on_age [VStr "x"] eq_refl)
             "age" eq_refl eq_refl eq_refl).
  - exact (proj1 (@C6_operands postgres
                    (CIn [OVal (VNum 1); ORef (mkRef "b"); OVal (VStr "c")])
                    _ on_age [] eq_refl)
             "age" eq_refl eq_refl eq_refl).
  - exact (proj1 (@C6_operands sqlite (CInMonth (OVal (VNum 12))) _
                    on_age [] eq_refl)
             "age" eq_refl eq_refl eq_refl).
Defined.

(** ** The negation flag (C7) *)

Lemma checked_column_set_negate (flag : bool) (c : Condition.t) :
  Condition.checked_column (Condition.set_negate flag c)
  = Condition.checked_column c.
Proof. reflexivity. Qed.

Lemma raw_values_returns (vs values : list jsval) :
  forallb (fun v => Is.isFullStr v || Is.isNum v) vs = true <->
  exists values', Condition.raw_values vs values = Ok values'.
Proof.
  revert values. induction vs as [|v vs IH]; intros values;
    cbn [forallb Condition.raw_values].
  - split; eauto.
  - destruct (Is.isFullStr v || Is.isNum v); cbn [andb guard bind];
      [apply IH|].
    split; [discriminate | intros [w H]; discriminate H].
Qed.

(** A terminal comparison that is accepted returns: it pushes its
    fragment behind the prefix that the flag asks for, binds its values
    and resets the flag. *)
Lemma terminal_accepted (con : MegaPoolConnection) (call : ConditionCall)
  (c : Condition.t) (values : list jsval) :
  kind call = Terminal ->
  accepted con call c ->
  exists body added,
    forall flag,
      call_condition con call (Condition.set_negate flag c, values)
      = Ok (Condition.mk
              (Condition.stack c
                 ++ [((if flag then "NOT " else "") ++ body)%string])%list
              false (Condition.opened c) (Condition.column c),
            (values ++ added)%list).
Proof.
  intros Hkind (Hcol & Hacc & Hsub).
  destruct (operands call) as [ops|] eqn:Hops.
  - assert (Hneeds : needs_column call = true)
      by (destruct call; try discriminate Hops; reflexivity).
    destruct (Hcol Hneeds) as [column [Hc Hfull]].
    exists (comparison (driver con) call column), (flat_map bound ops).
    intros flag.
    rewrite (@operands_accepted con call ops (Condition.set_negate flag c)
               values column Hops Hc Hfull Hacc).
    destruct c; cbn in Hc |- *; subst. destruct flag; reflexivity.
  - destruct call; try discriminate Hkind; try discriminate Hops;
      cbn [call_condition].
    + (* isNull *)
      destruct (Hcol eq_refl) as [column [Hc Hfull]].
      exists (column ++ " IS NULL")%string, []. intros flag.
      unfold Condition.isNull. rewrite checked_column_set_negate.
      rewrite (checked_column_returns c Hc Hfull). cbn [bind].
      rewrite app_nil_r. destruct c; cbn in Hc |- *; subst.
      destruct flag; reflexivity.
    + (* inSubquery *)
      destruct (Hcol eq_refl) as [column [Hc Hfull]].
      destruct (Hsub _ eq_refl) as [select [text [Hrun Hbuild]]].
      exists (column ++ " IN (" ++ text ++ ")")%string, (Select.values select).
      intros flag. unfold Subquery.inSubquery.
      rewrite checked_column_set_negate.
      rewrite (checked_column_returns c Hc Hfull). cbn [bind].
      rewrite Hrun. cbn [bind]. rewrite Hbuild. cbn [bind].
      destruct c; cbn in Hc |- *; subst. destruct flag; reflexivity.
    + (* exists *)
      destruct (Hsub _ eq_refl) as [select [text [Hrun Hbuild]]].
      exists ("EXISTS (" ++ text ++ ")")%string, (Select.values select).
      intros flag. unfold Subquery.exists_.
      rewrite Hrun. cbn [bind]. rewrite Hbuild. cbn [bind].
      destruct flag; reflexivity.
    + (* any *)
      destruct (Hcol eq_refl) as [column [Hc Hfull]].
      destruct (Hsub _ eq_refl) as [select [text [Hrun Hbuild]]].
      exists (column ++ " " ++ description operator ++ " ANY (" ++ text
              ++ ")")%string, (Select.values select).
      intros flag. unfold Subquery.any.
      rewrite checked_column_set_negate.
      rewrite (checked_column_returns c Hc Hfull). cbn [bind].
      replace (invalidOperator operator) with false
        by (destruct operator; reflexivity).
      cbn [negb guard bind].
      rewrite Hrun. cbn [bind]. rewrite Hbuild. cbn [bind].
      destruct c; cbn in Hc |- *; subst. destruct flag; reflexivity.
    + (* all *)
      destruct (Hcol eq_refl) as [column [Hc Hfull]].
      destruct (Hsub _ eq_refl) as [select [text [Hrun Hbuild]]].
      exists (column ++ " " ++ description operator ++ " ALL (" ++ text
              ++ ")")%string, (Select.values select).
      intros flag. unfold Subquery.all.
      rewrite checked_column_set_negate.
      rewrite (checked_column_returns c Hc Hfull). cbn [bind].
      replace (invalidOperator operator) with false
        by (destruct operator; reflexivity).
      cbn [negb guard bind].
      rewrite Hrun. cbn [bind]. rewrite Hbuild. cbn [bind].
      destruct c; cbn in Hc |- *; subst. destruct flag; reflexivity.
Qed.

(** A terminal comparison returns in no other case. *)
Lemma terminal_checked (con : MegaPoolConnection) (call : ConditionCall)
  (c : Condition.t) (values : list jsval) (st : Condition.state) :
  kind call = Terminal ->
  call_condition con call (c, values) = Ok st ->
  accepted con call c.
Proof.
  intros Hkind Hret.
  destruct (operands call) as [ops|] eqn:Hops.
  - destruct (@operands_checked con call ops c values st Hops Hret)
      as [column [Hc [Hfull Hacc]]].
    split; [intros _; eauto|]. split; [assumption|].
    intros q Hq. destruct call; discriminate.
  - destruct call; try discriminate Hkind; try discriminate Hops;
      cbn [call_condition] in Hret;
      match type of Hret with
      | ?m (_, _) = _ => unfold m in Hret
      | ?m _ _ (_, _) = _ => unfold m in Hret
      | ?m _ _ _ (_, _) = _ => unfold m in Hret
      end;
      returns Hret;
      repeat match goal with
        | E : Condition.checked_column _ = Ok _ |- _ =>
            apply checked_column_Ok in E; destruct E as [Hc Hfull]
        end;
      (split; [intros Hneeds; try discriminate Hneeds; eauto|]);
      (split; [reflexivity|]);
      intros q Hq; inversion Hq; subst; eauto.
Qed.

(** What a terminal comparison throws does not depend on the flag. *)
Lemma terminal_throws (con : MegaPoolConnection) (call : ConditionCall)
  (c : Condition.t) (values : list jsval) (message : string) :
  kind call = Terminal ->
  call_condition con call (c, values) = Throw message ->
  forall flag,
    call_condition con call (Condition.set_negate flag c, values)
    = Throw message.
Proof.
  intros Hkind Hret flag.
  destruct call; try discriminate Hkind; cbn [call_condition] in *.
  all: match type of Hret with
       | ?m (_, _) = _ => unfold m in *
       | ?m _ (_, _) = _ => unfold m in *
       | ?m _ _ (_, _) = _ => unfold m in *
       | ?m _ _ _ (_, _) = _ => unfold m in *
       end.
  all: rewrite ?checked_column_set_negate.
  all: repeat match type of Hret with
         | bind ?r _ = Throw _ =>
             destruct r; cbn [bind] in Hret |- *;
             [|exact Hret]
         end.
  all: discriminate Hret.
Qed.

(** C7, as the specification states it, fails for a terminal comparison
    that throws.  After [col('age').not()] the flag is set; [equal] with
    [undefined] is a terminal comparison and throws, and the flag is
    still set after it: the flag is not false after this terminal call,
    and it is the comparison after the next one, [isNull], that is
    negated. *)
Lemma C7_flag_survives_a_throw :
  run_condition mysql (CThen (CCol "age") (CThen CNot CDone))
    (Condition.new, []) = Ok (on_age, [])
  /\ kind (CEqual (OVal VUndefined)) = Terminal
  /\ call_condition mysql (CEqual (OVal VUndefined)) (on_age, [])
     = Throw "Invalid value: undefined"
  /\ Condition.negate
       (fst (left_by mysql (CEqual (OVal VUndefined)) (on_age, []))) = true
  /\ call_condition mysql CIsNull
       (left_by mysql (CEqual (OVal VUndefined)) (on_age, []))
     = Ok (Condition.mk ["NOT age IS NULL"] false 0%Z (Some "age"), []).
Proof. repeat split. Qed.

(** C7, amended: [not] always returns, sets the flag and changes nothing
    else.  A terminal comparison returns exactly when it is accepted; it
    then leaves the flag false and prefixes its fragment with [NOT ]
    exactly when the flag was set.  A terminal comparison that throws
    leaves the condition, the flag included, and the sink as they were,
    and throws the same whatever the flag is.  [raw], [and], [or], [open],
    [close], [paren] and [col] return exactly when their arguments pass
    the checks, and neither change the flag nor depend on it; [raw] and
    [col] that throw leave the flag as it was. *)
Theorem C7_negation (con : MegaPoolConnection) (call : ConditionCall)
  (c : Condition.t) (values : list jsval) :
  match kind call with
  | Negation =>
      call_condition con call (c, values)
      = Ok (Condition.set_negate true c, values)
  | Terminal =>
      ((exists st, call_condition con call (c, values) = Ok st)
       <-> accepted con call c)
      /\ (accepted con call c ->
          exists body added,
            forall flag,
              call_condition con call (Condition.set_negate flag c, values)
              = Ok (Condition.mk
                      (Condition.stack c
                         ++ [((if flag then "NOT " else "")
                                ++ body)%string])%list
                      false (Condition.opened c) (Condition.column c),
                    (values ++ added)%list))
      /\ (forall message,
             call_condition con call (c, values) = Throw message ->
             left_by con call (c, values) = (c, values)
             /\ forall flag,
                 call_condition con call (Condition.set_negate flag c, values)
                 = Throw message)
  | Neutral =>
      ((exists st, call_condition con call (c, values) = Ok st)
       <-> accepts call = true)
      /\ (forall c' values',
             call_condition con call (c, values) = Ok (c', values') ->
             Condition.negate c' = Condition.negate c
             /\ forall flag,
                 call_condition con call (Condition.set_negate flag c, values)
                 = Ok (Condition.set_negate flag c', values'))
      /\ (forall message,
             call_condition con call (c, values) = Throw message ->
             Condition.negate (fst (left_by con call (c, values)))
             = Condition.negate c)
  end.
Proof.
  destruct (kind call) eqn:Hkind.
  - (* terminal *)
    split; [split|split].
    + intros [st Hret]. exact (@terminal_checked _ _ _ _ _ Hkind Hret).
    + intros Hacc.
      destruct (@terminal_accepted con call c values Hkind Hacc)
        as [body [added H]].
      specialize (H (Condition.negate c)).
      replace (Condition.set_negate (Condition.negate c) c) with c in H
        by (destruct c; reflexivity).
      eauto.
    + now apply terminal_accepted.
    + intros message Hret. split; [|now apply terminal_throws].
      unfold left_by. rewrite Hret.
      destruct call; try discriminate Hkind; reflexivity.
  - (* not *)
    destruct call; try discriminate Hkind. reflexivity.
  - (* neutral *)
    split; [|split].
    + destruct call; try discriminate Hkind;
        cbn [call_condition accepts];
        try (split; [reflexivity | intros _; eexists; reflexivity]).
      * (* raw *)
        unfold Condition.raw. destruct (Is.fullStr condition);
          cbn [andb guard bind].
        -- rewrite (raw_values_returns vs values).
           split; intros [w H].
           ++ returns H. eauto.
           ++ rewrite H. cbn [bind]. eauto.
        -- split; [intros [st H]; discriminate H | discriminate].
      * (* paren *)
        unfold Condition.paren, Condition.open, Condition.close.
        destruct (Condition.opened c =? 0)%Z;
          (split; [reflexivity | intros _; eexists; reflexivity]).
      * (* col *)
        unfold Condition.col. destruct (Is.fullStr name);
          cbn [guard bind].
        -- split; [reflexivity | intros _; eexists; reflexivity].
        -- split; [intros [st H]; discriminate H | discriminate].
    + intros c' values' Hret.
      destruct call; try discriminate Hkind; cbn [call_condition] in *.
      all: match type of Hret with
           | ?m (_, _) = _ => unfold m in *
           | ?m _ (_, _) = _ => unfold m in *
           | ?m _ _ (_, _) = _ => unfold m in *
           end.
      all: try match type of Hret with
               | (if ?b then _ else _) = _ =>
                   destruct b eqn:Hop;
                   [unfold Condition.open in * | unfold Condition.close in *]
               end.
      all: returns Hret; inversion Hret; subst; clear Hret.
      all: split; [reflexivity|]; intros flag.
      all: repeat (match goal with
                   | E : ?x = _ |- context [?x] => rewrite E
                   end; cbn [bind guard]).
      all: try (destruct c; cbn in Hop |- *; rewrite ?Hop; reflexivity).
      all: destruct c, flag; reflexivity.
    + intros message Hret. unfold left_by. rewrite Hret.
      destruct call; try discriminate Hkind; try reflexivity.
      destruct (Is.fullStr condition); reflexivity.
Qed.

Lemma C7_negation_witness :
  call_condition mysql CNot (Condition.new, [VNum 1])
  = Ok (Condition.set_negate true Condition.new, [VNum 1])
  /\ exists body added,
      forall flag,
        call_condition mysql
          (CExists (SThen (SFrom "orders") SDone))
          (Condition.set_negate flag Condition.new, [])
        = Ok (Condition.mk
                (Condition.stack Condition.new
                   ++ [((if flag then "NOT " else "") ++ body)%string])%list
                false (Condition.opened Condition.new)
                (Condition.column Condition.new),
              ([] ++ added)%list).
Proof.
  split.
  - exact (@C7_negation mysql CNot Condition.new [VNum 1]).
  - apply (proj1 (proj2 (@C7_negation mysql
                           (CExists (SThen (SFrom "orders") SDone))
                           Condition.new []))).
    split; [discriminate|]. split; [reflexivity|].
    intros q Hq. inversion Hq; subst. eexists; eexists.
    split; reflexivity.
Defined.

(** ** [Update.set] replaces the sink (C10) *)

Lemma raw_values_appends (vs values values' : list jsval) :
  Condition.raw_values vs values = Ok values' ->
  values' = (values ++ vs)%list.
Proof.
  revert values; induction vs as [|v vs IH]; intros values H; simpl in H.
  - inversion H. now rewrite app_nil_r.
  - returns H. apply IH in H. now rewrite H, <- app_assoc.
Qed.

Lemma call_condition_appends (con : MegaPoolConnection)
  (call : ConditionCall) (c c' : Condition.t) (values values' : list jsval) :
  call_condition con call (c, values) = Ok (c', values') ->
  exists added, values' = (values ++ added)%list.
Proof.
  intros Hret. destruct call; cbn [call_condition] in Hret.
  all: match type of Hret with
       | ?m (_, _) = _ => unfold m in *
       | ?m _ (_, _) = _ => unfold m in *
       | ?m _ _ (_, _) = _ => unfold m in *
       | ?m _ _ _ (_, _) = _ => unfold m in *
       end.
  all: try match type of Hret with
           | (if ?b then _ else _) = _ =>
               destruct b;
               [unfold Condition.open in * | unfold Condition.close in *]
           end.
  all: returns Hret; inversion Hret; subst; clear Hret.
  all: rewrite ?push_unless_ref_bound, ?fold_push_unless_ref, <- ?app_assoc.
  all: try (eexists; reflexivity).
  all: try (exists []; now rewrite app_nil_r).
  apply raw_values_appends in E0. eauto.
Qed.



Example where_id_1_reached :
  run_update
    [UTable "users";
     UWhere (CThen (CCol "id") (CThen (CEqual (OVal (VNum 1))) CDone))]
    (Update.new mysql)
  = Ok where_id_1.
Proof. reflexivity. Qed.


(** ** Pagination (C9) *)

Lemma ceil_div_spec (a b : Z) :
  (0 < b)%Z ->
  (b * (ceil_div a b - 1) < a <= b * ceil_div a b)%Z.
Proof.
  intros Hb. unfold ceil_div.
  pose proof (Z.div_mod (- a) b ltac:(lia)) as Hdm.
  pose proof (Z.mod_pos_bound (- a) b Hb) as Hm.
  nia.
Qed.

Lemma normalize_bound (fallback : Z) (v : jsval) :
  (1 <= fallback)%Z -> (1 <= Select.normalize fallback v)%Z.
Proof.
  intros Hf. unfold Select.normalize. destruct v; cbn; try assumption.
  destruct (Z.ltb_spec z 1); lia.
Qed.

Lemma limit_Ok (n : Z) (s s' : Select.t) :
  Select.limit (VNum n) s = Ok s' ->
  s' = Select.with_state (Select.set_limit (Some n) (Select.state s)) s.
Proof. unfold Select.limit. intros H. returns H. now inversion H. Qed.

Lemma offset_Ok (n : Z) (s s' : Select.t) :
  Select.offset (VNum n) s = Ok s' ->
  s' = Select.with_state (Select.set_offset (Some n) (Select.state s)) s.
Proof. unfold Select.offset. intros H. returns H. now inversion H. Qed.

(** C9, as the specification states it, fails in its last part: with 55
    items at 10 per page there are 6 pages, and on page 7 [next] is
    omitted although page 7 is not the last page. *)
Lemma C9_next_omitted_past_the_last_page :
  exists pg s',
    Select.paginate (VNum 7) (VNum 10) users_55 = Some (Ok (pg, s'))
    /\ next (page pg) = None
    /\ total_pages (total pg) = 6%Z
    /\ current (page pg) = 7%Z
    /\ ~ (next (page pg) = None <-> current (page pg) = total_pages (total pg)).
Proof.
  eexists; eexists. split; [reflexivity|]. cbn.
  repeat split; try reflexivity. intros [H _]. specialize (H eq_refl).
  discriminate H.
Qed.

Lemma count_restores (s t : Select.t) (v : jsval) :
  Select.query s = None ->
  Select.count s = Ok (v, t) -> t = s.
Proof.
  intros Hq H. unfold Select.count in H. returns H.
  unfold get_query in E0. cbn in E0. rewrite Hq in E0. returns E0.
  inversion E0; subst; clear E0. inversion H; subst; clear H.
  destruct s as [[] ? ? ?]; reflexivity.
Qed.

Lemma normalize_spec (fallback : Z) (v : jsval) :
  Select.normalize fallback v
  = match v with
    | VNum z => if (1 <=? z)%Z then z else fallback
    | _ => fallback
    end.
Proof.
  unfold Select.normalize. destruct v; try reflexivity. cbn.
  destruct (Z.ltb_spec z 1), (Z.leb_spec 1 z); try reflexivity; lia.
Qed.

(** What [paginate] gives once the count is in, where its arithmetic is
    exact. *)
Lemma paginate_page (p n : jsval) (s t : Select.t) (counted : Z)
  (rows : Rows) (t' : Select.t) :
  let cur := Select.normalize 1 p in
  let per := Select.normalize 10 n in
  Select.count s = Ok (VNum counted, t) ->
  Double.safe cur = true -> Double.safe per = true ->
  Double.safe ((cur - 1) * per) = true ->
  Double.safe counted = true -> (0 <= counted)%Z ->
  (u <- Select.limit (VNum per) t ;;
   u <- Select.offset (VNum ((cur - 1) * per)%Z) u ;; exec u)
  = Ok (rows, t') ->
  Select.paginate p n s
  = Some (Ok ({| result_ := rows;
                 page :=
                   {| current := cur;
                      prev := if (cur - 1 =? 0)%Z then None
                              else Some (cur - 1)%Z;
                      next := if (cur <? ceil_div counted per)%Z
                              then Some (cur + 1)%Z else None;
                      items := per |};
                 total := {| total_pages := ceil_div counted per;
                             total_items := counted |} |}, t')).
Proof.
  intros cur per Hcount Hcur Hper Hoffset Hcounted Hpos Hexec.
  unfold Select.paginate. rewrite Hcount. fold cur per.
  rewrite Hcur, Hper, Hoffset. cbn [andb negb].
  rewrite Hexec, Hcounted. apply Z.leb_le in Hpos. rewrite Hpos.
  reflexivity.
Qed.

(** The converse: a page comes from a count that is a safe integer from
    zero on, a safe page number, number of items and offset, and the rows
    of the query with that limit and offset. *)
Lemma paginate_Some (p n : jsval) (s s' : Select.t) (pg : Pagination) :
  let cur := Select.normalize 1 p in
  let per := Select.normalize 10 n in
  Select.paginate p n s = Some (Ok (pg, s')) ->
  exists counted t,
    Select.count s = Ok (VNum counted, t)
    /\ Double.safe cur = true /\ Double.safe per = true
    /\ Double.safe ((cur - 1) * per) = true
    /\ Double.safe counted = true /\ (0 <= counted)%Z
    /\ (u <- Select.limit (VNum per) t ;;
        u <- Select.offset (VNum ((cur - 1) * per)%Z) u ;; exec u)
       = Ok (result_ pg, s')
    /\ page pg
       = {| current := cur;
            prev := if (cur - 1 =? 0)%Z then None else Some (cur - 1)%Z;
            next := if (cur <? ceil_div counted per)%Z
                    then Some (cur + 1)%Z else None;
            items := per |}
    /\ total pg = {| total_pages := ceil_div counted per;
                     total_items := counted |}.
Proof.
  intros cur per H. unfold Select.paginate in H. fold cur per in H.
  destruct (Select.count s) as [[c t]|m] eqn:Hcount; [|discriminate H].
  destruct (Double.safe cur) eqn:Hcur; [|discriminate H].
  destruct (Double.safe per) eqn:Hper; [|discriminate H].
  destruct (Double.safe ((cur - 1) * per)) eqn:Hoffset; [|discriminate H].
  cbn [andb negb] in H.
  destruct (u <- Select.limit (VNum per) t ;;
            u <- Select.offset (VNum ((cur - 1) * per)%Z) u ;; exec u)
    as [[rows t']|m] eqn:Hexec; [|discriminate H].
  destruct c as [| | |counted| | |]; try discriminate H.
  destruct (Double.safe counted) eqn:Hcounted; [|discriminate H].
  destruct (Z.leb_spec 0 counted) as [Hpos|]; [|discriminate H].
  cbn [andb] in H. inversion H; subst; clear H. cbn.
  exists counted, t. repeat split; try reflexivity; assumption.
Qed.

(** C9, amended: where the arithmetic of [paginate], which is that of
    doubles, is exact -- a page number, a number of items and an offset
    that are safe integers, and a count that is a safe integer from zero
    on -- [paginate] that returns has normalized the page to 1 when it is
    not an integer or below 1 and the items to 10 when they are not an
    integer (or absent) or below 1; it has set the limit to the items and
    the offset to [(page - 1) * items] and returns the rows of that
    query; [total.items] is the count, [total.pages] is the ceiling of
    [total.items / items]; [prev] is omitted exactly on page 1 and is
    [page - 1] otherwise; [next] is omitted exactly when the current page
    is the last page or lies beyond it ([total.pages <= page]) and is
    [page + 1] otherwise. *)
Theorem C9_paginate (p n : jsval) (s s' : Select.t) (pg : Pagination)
  (Hfresh : Select.query s = None)
  (Hret : Select.paginate p n s = Some (Ok (pg, s'))) :
  let cur := current (page pg) in
  let per := items (page pg) in
  let pages := total_pages (total pg) in
  cur = match p with VNum z => if (1 <=? z)%Z then z else 1%Z | _ => 1%Z end
  /\ per = match n with VNum z => if (1 <=? z)%Z then z else 10%Z | _ => 10%Z end
  /\ (Double.safe cur = true /\ Double.safe per = true
      /\ Double.safe ((cur - 1) * per) = true
      /\ Double.safe (total_items (total pg)) = true
      /\ (0 <= total_items (total pg))%Z)
  /\ Select.count s = Ok (VNum (total_items (total pg)), s)
  /\ Select.limit_ (Select.state s') = Some per
  /\ Select.offset_ (Select.state s') = Some ((cur - 1) * per)%Z
  /\ (exists text,
        Select.build false s' = Ok text
        /\ connection_query (Select.connection s') text (Select.values s')
           = Ok (result_ pg))
  /\ (per * (pages - 1) < total_items (total pg) <= per * pages)%Z
  /\ (prev (page pg) = None <-> cur = 1%Z)
  /\ (forall k, prev (page pg) = Some k -> k = (cur - 1)%Z)
  /\ (next (page pg) = None <-> (pages <= cur)%Z)
  /\ (forall k, next (page pg) = Some k -> k = (cur + 1)%Z).
Proof.
  apply paginate_Some in Hret.
  destruct Hret as (counted & t & Hcount & Hcur & Hper & Hoff & Hcounted
                    & Hpos & Hexec & Hpage & Htotal).
  pose proof (@count_restores _ _ _ Hfresh Hcount) as Ht. subst t.
  apply bind_Ok in Hexec. destruct Hexec as (a & Hlimit & Hexec).
  apply bind_Ok in Hexec. destruct Hexec as (a0 & Hoffset & Hexec).
  apply limit_Ok in Hlimit. apply offset_Ok in Hoffset. subst a a0.
  unfold exec, exec_arguments, get_query in Hexec. cbn in Hexec.
  rewrite Hfresh in Hexec. returns Hexec. returns E. returns E0.
  inversion E0; subst; clear E0. inversion E; subst; clear E.
  inversion Hexec; subst; clear Hexec.
  rename H0 into Hrows. returns Hrows. inversion Hrows; subst; clear Hrows.
  pose proof (@normalize_bound 1%Z p ltac:(lia)) as Hp.
  pose proof (@normalize_bound 10%Z n ltac:(lia)) as Hn.
  rewrite Hpage, Htotal. cbn.
  split; [apply normalize_spec|]. split; [apply normalize_spec|].
  split; [repeat split; assumption|].
  split; [assumption|].
  split; [reflexivity|]. split; [reflexivity|].
  split; [eexists; split; eassumption|].
  split; [apply ceil_div_spec; lia|].
  split.
  { destruct (Z.eqb_spec (Select.normalize 1 p - 1) 0); split; intros Hx;
      try reflexivity; try discriminate; lia. }
  split.
  { intros k. destruct (Z.eqb_spec (Select.normalize 1 p - 1) 0);
      intros Hx; inversion Hx. reflexivity. }
  split.
  { destruct (Z.ltb_spec (Select.normalize 1 p)
                (ceil_div counted (Select.normalize 10 n))); split; intros Hx;
      try reflexivity; try discriminate; lia. }
  intros k. destruct (Z.ltb_spec (Select.normalize 1 p)
                        (ceil_div counted (Select.normalize 10 n)));
    intros Hx; inversion Hx. reflexivity.
Qed.

Lemma C9_paginate_witness :
  exists pg s',
    Select.paginate (VNum 1) (VNum 10) users_55 = Some (Ok (pg, s'))
    /\ total_pages (total pg) = 6%Z
    /\ prev (page pg) = None
    /\ next (page pg) = Some 2%Z
    /\ (next (page pg) = None
        <-> (total_pages (total pg) <= current (page pg))%Z).
Proof.
  eexists; eexists. split; [reflexivity|].
  split; [reflexivity|]. split; [reflexivity|]. split; [reflexivity|].
  pose proof (@C9_paginate (VNum 1) (VNum 10) users_55 _ _ eq_refl eq_refl)
    as H.
  cbv zeta in H. apply H.
Defined.

(** ** Counting placeholders *)

Lemma placeholders_app (s t : string) :
  Str.placeholders (s ++ t) = Str.placeholders s + Str.placeholders t.
Proof.
  induction s as [|a s IH]; simpl; [reflexivity|]. rewrite IH. lia.
Qed.

Lemma space_is_no_placeholder (a : ascii) :
  Str.is_space a = true -> Ascii.eqb a "?" = false.
Proof.
  intros Hs. destruct (Ascii.eqb_spec a "?") as [->|]; [|reflexivity].
  discriminate Hs.
Qed.

Lemma placeholders_trimStart (s : string) :
  Str.placeholders (Str.trimStart s) = Str.placeholders s.
Proof.
  induction s as [|a s IH]; simpl; [reflexivity|].
  destruct (Str.is_space a) eqn:Hs; [|reflexivity].
  now rewrite IH, (space_is_no_placeholder _ Hs).
Qed.

Lemma placeholders_trimEnd (s : string) :
  Str.placeholders (Str.trimEnd s) = Str.placeholders s.
Proof.
  induction s as [|a s IH]; simpl; [reflexivity|].
  destruct (Str.trimEnd s) as [|b t] eqn:Ht.
  - cbn [Str.placeholders] in IH. rewrite <- IH.
    destruct (Str.is_space a) eqn:Hs; cbn [Str.placeholders].
    + now rewrite (space_is_no_placeholder _ Hs).
    + reflexivity.
  - cbn [Str.placeholders] in *. now rewrite IH.
Qed.

Lemma placeholders_trim (s : string) :
  Str.placeholders (Str.trim s) = Str.placeholders s.
Proof.
  unfold Str.trim. now rewrite placeholders_trimEnd, placeholders_trimStart.
Qed.

Lemma placeholders_join (sep : string) (l : list string) :
  Str.placeholders sep = 0 ->
  Str.placeholders (Str.join sep l) = list_sum (map Str.placeholders l).
Proof.
  intros Hsep. induction l as [|x l IH]; [reflexivity|].
  destruct l as [|y l]; cbn [Str.join map list_sum fold_right] in *.
  - lia.
  - rewrite !placeholders_app, Hsep, IH. lia.
Qed.

Lemma placeholders_join_clean (sep : string) (l : list string) :
  Str.placeholders sep = 0 ->
  forallb clean l = true ->
  Str.placeholders (Str.join sep l) = 0.
Proof.
  intros Hsep Hl. rewrite placeholders_join by assumption.
  induction l as [|x l IH]; [reflexivity|].
  cbn [forallb] in Hl. apply andb_prop in Hl. destruct Hl as [Hx Hl].
  apply Nat.eqb_eq in Hx. change (list_sum (map Str.placeholders (x :: l)))
    with (Str.placeholders x + list_sum (map Str.placeholders l)).
  rewrite Hx, IH; auto.
Qed.

Lemma placeholders_uint (d : Decimal.uint) :
  Str.placeholders (NilEmpty.string_of_uint d) = 0.
Proof. induction d; simpl; auto. Qed.

Lemma placeholders_positional (z : Z) :
  Str.placeholders (Double.positional z) = 0.
Proof.
  unfold Double.positional, NilZero.string_of_int, NilZero.string_of_uint.
  destruct (Z.to_int z) as [d|d]; destruct d; cbn [Str.placeholders];
    try reflexivity; simpl; apply placeholders_uint.
Qed.

Lemma placeholders_zeros (n : nat) : Str.placeholders (Double.zeros n) = 0.
Proof. induction n; simpl; auto. Qed.

Lemma placeholders_render (z : Z) : Str.placeholders (Double.render z) = 0.
Proof.
  unfold Double.render.
  destruct (Double.shortest 17 1 z (Double.digits z)) as [[s k] n].
  destruct (n <=? 21)%Z.
  - now rewrite placeholders_app, placeholders_positional,
      placeholders_zeros.
  - pose proof (placeholders_positional s) as Hs.
    destruct (Double.positional s) as [|d rest]; [reflexivity|].
    cbn [Str.placeholders] in Hs.
    destruct (Ascii.eqb d "?") eqn:Hd; [discriminate Hs|].
    cbn [Nat.add] in Hs.
    change (String d (if (k =? 1)%Z then EmptyString else "." ++ rest)
              ++ "e+" ++ Double.positional (n - 1))
      with (String d ((if (k =? 1)%Z then EmptyString else "." ++ rest)
                        ++ "e+" ++ Double.positional (n - 1))).
    cbn [Str.placeholders]. rewrite Hd. cbn [Nat.add].
    rewrite !placeholders_app, placeholders_positional.
    destruct (k =? 1)%Z; cbn; [reflexivity|]. rewrite Hs. reflexivity.
Qed.

Lemma placeholders_of_Z (z : Z) : Str.placeholders (Str.of_Z z) = 0.
Proof.
  unfold Str.of_Z, Double.text. destruct (Double.safe z).
  - apply placeholders_positional.
  - destruct (z <? 0)%Z; [|apply placeholders_render].
    rewrite placeholders_app, placeholders_render. reflexivity.
Qed.

Lemma clean_eq (s : string) : clean s = true <-> Str.placeholders s = 0.
Proof. unfold clean. apply Nat.eqb_eq. Qed.

Lemma list_sum_cons (n : nat) (l : list nat) :
  list_sum (n :: l) = n + list_sum l.
Proof. reflexivity. Qed.

Lemma list_sum_snoc (l : list nat) (n : nat) :
  list_sum (l ++ [n]) = list_sum l + n.
Proof. rewrite list_sum_app. simpl. lia. Qed.

Lemma marks_push (fragment : string) (c : Condition.t) :
  marks (Condition.push fragment c) = marks c + Str.placeholders fragment.
Proof.
  unfold marks, Condition.push. cbn [Condition.stack].
  rewrite !placeholders_join by reflexivity.
  rewrite map_app. cbn [map]. now rewrite list_sum_snoc.
Qed.

Lemma Condition_build_marks (c : Condition.t) (w : string) :
  Condition.build c = Ok w -> Str.placeholders w = marks c.
Proof.
  unfold Condition.build. intros H. returns H. inversion H; subst.
  unfold Condition.text. apply placeholders_trim.
Qed.

(** Splits the count of placeholders along appends and computes it on
    the literal parts. *)
Ltac count :=
  repeat first
    [ rewrite placeholders_app
    | progress cbn [Str.placeholders Ascii.eqb Bool.eqb andb Nat.add] ].

Lemma joins_map_marks (js : list Select.Join) (l : list string) :
  Select.joins_map js = Ok l ->
  forallb (fun j => clean (Select.join_table j)
                    && clean (Select.join_type j)) js = true ->
  list_sum (map Str.placeholders l)
  = list_sum (map (fun j => marks (Select.join_condition j)) js).
Proof.
  revert l; induction js as [|j js IH]; intros l H Hc; cbn in H.
  - now inversion H.
  - returns H. inversion H; subst; clear H.
    cbn [forallb] in Hc. apply andb_prop in Hc. destruct Hc as [Hj Hc].
    apply andb_prop in Hj. destruct Hj as [Ht Hy].
    apply clean_eq in Ht, Hy. apply Condition_build_marks in E.
    cbn [map]. rewrite !list_sum_cons. count. rewrite Ht, Hy, E.
    rewrite <- (IH _ E0 Hc). lia.
Qed.

Lemma joins_clause_marks (st : Select.State) (text : string) :
  Select.joins_clause st = Ok text ->
  forallb (fun j => clean (Select.join_table j)
                    && clean (Select.join_type j)) (Select.joins st) = true ->
  Str.placeholders text
  = list_sum (map (fun j => marks (Select.join_condition j))
                (Select.joins st)).
Proof.
  unfold Select.joins_clause. intros H Hc.
  destruct (Select.joins st) as [|j js] eqn:Hj.
  - now inversion H.
  - returns H. inversion H; subst; clear H.
    count. rewrite placeholders_join by reflexivity.
    now apply joins_map_marks.
Qed.

Lemma option_clause_marks (keyword : string) (c : option Condition.t)
  (text : string) :
  match c with
  | Some c => w <- Condition.build c ;; Ok (keyword ++ w)
  | None => Ok ""
  end = Ok text ->
  Str.placeholders text
  = Str.placeholders keyword * match c with Some _ => 1 | None => 0 end
    + option_marks c.
Proof.
  destruct c as [c|]; intros H.
  - returns H. inversion H; subst. apply Condition_build_marks in E.
    count. cbn [option_marks]. lia.
  - inversion H. cbn. lia.
Qed.

Lemma group_clause_clean (st : Select.State) :
  forallb clean (Select.group st) = true ->
  Str.placeholders (Select.group_clause st) = 0.
Proof.
  unfold Select.group_clause. intros H.
  destruct (Select.group st); [reflexivity|].
  count. now apply placeholders_join_clean.
Qed.

Lemma order_clause_clean (st : Select.State) :
  forallb (fun o : string * string => clean (fst o) && clean (snd o))
    (Select.order st) = true ->
  Str.placeholders (Select.order_clause st) = 0.
Proof.
  unfold Select.order_clause. intros H.
  destruct (Select.order st) as [|o os]; [reflexivity|].
  count. rewrite placeholders_join by reflexivity.
  generalize dependent (o :: os). intros l H.
  induction l as [|[a b] l IH]; [reflexivity|].
  cbn [forallb fst snd] in H.
  apply andb_prop in H. destruct H as [Hab H].
  apply andb_prop in Hab. destruct Hab as [Ha Hb].
  apply clean_eq in Ha, Hb.
  cbn [map fst snd]. rewrite list_sum_cons. count.
  rewrite Ha, Hb, (IH H). reflexivity.
Qed.

Lemma unions_clause_marks (st : Select.State) :
  Str.placeholders (Select.unions_clause st)
  = list_sum (map (fun u : string * bool => Str.placeholders (fst u))
                (Select.unions st)).
Proof.
  unfold Select.unions_clause.
  destruct (Select.unions st) as [|u us]; [reflexivity|].
  count. rewrite placeholders_join by reflexivity. rewrite map_map.
  f_equal. apply map_ext. intros [q all]. cbn [fst snd]. count.
  destruct all; reflexivity.
Qed.

Lemma checked_table_clean (st : Select.State) (name : string) :
  Select.checked_table st = Ok name ->
  match Select.table st with Some name => clean name | None => true end
  = true ->
  Str.placeholders name = 0.
Proof.
  unfold Select.checked_table. destruct (Select.table st); [|discriminate].
  intros H Hc. returns H. inversion H; subst. now apply clean_eq.
Qed.

(** The text of an aligned [Select] has as many placeholders as the sink
    has values. *)
Lemma Select_build_aligned (subquery : bool) (s : Select.t) (text : string) :
  aligned s ->
  Select.build subquery s = Ok text ->
  Str.placeholders text = length (Select.values s).
Proof.
  intros [Hmarks [Hclean _]] H. rewrite <- Hmarks. unfold state_marks.
  unfold clean_state in Hclean.
  repeat (apply andb_prop in Hclean; destruct Hclean as [Hclean ?]).
  unfold Select.build in H. returns H. inversion H; subst; clear H.
  apply checked_table_clean in E; [|assumption].
  apply joins_clause_marks in E0; [|assumption].
  apply option_clause_marks in E1, E2.
  assert (Hcols : Str.placeholders
                    match Select.columns (Select.state s) with
                    | Select.Cols names => Str.join ", " names
                    | Select.Star => "*"
                    end = 0).
  { destruct (Select.columns (Select.state s)); [reflexivity|].
    now apply placeholders_join_clean. }
  assert (Hdistinct : Str.placeholders
                        (if Select.distinct_ (Select.state s)
                         then "DISTINCT " else "") = 0).
  { destruct (Select.distinct_ (Select.state s)); reflexivity. }
  assert (Hlimit : Str.placeholders (Select.limit_clause (Select.state s)) = 0).
  { unfold Select.limit_clause. destruct (Select.limit_ (Select.state s));
      [|reflexivity]. count. apply placeholders_of_Z. }
  assert (Hoffset : Str.placeholders (Select.offset_clause (Select.state s)) = 0).
  { unfold Select.offset_clause. destruct (Select.offset_ (Select.state s));
      [|reflexivity]. count. apply placeholders_of_Z. }
  assert (Hend : forall t, Str.placeholders (if subquery then t else t ++ ";")
                           = Str.placeholders t).
  { intros t. destruct subquery; [reflexivity|]. count. lia. }
  rewrite Hend. count.
  rewrite E, E0, E1, E2, Hcols, Hdistinct, Hlimit, Hoffset,
    group_clause_clean, order_clause_clean, unions_clause_marks by assumption.
  cbn [Str.placeholders Ascii.eqb Bool.eqb andb].
  destruct (Select.where_condition (Select.state s)),
    (Select.having_condition (Select.state s)); cbn [option_marks]; lia.
Qed.

(** ** Calls on a condition grow tokens and sink together *)

Lemma grows_refl (c : Condition.t) (values : list jsval) :
  clean_column c = true -> grows c values c values.
Proof.
  intros Hc. exists []. rewrite app_nil_r. repeat split; auto.
Qed.

Lemma grows_trans (c1 c2 c3 : Condition.t) (v1 v2 v3 : list jsval) :
  grows c1 v1 c2 v2 -> grows c2 v2 c3 v3 -> grows c1 v1 c3 v3.
Proof.
  intros [a1 [-> [H1 [_ F1]]]] [a2 [-> [H2 [C2 F2]]]].
  exists (a1 ++ a2)%list. rewrite <- app_assoc, length_app.
  repeat split; auto; [lia | now apply Forall_app].
Qed.

Lemma not_clean (c : Condition.t) : Str.placeholders (Condition.not_ c) = 0.
Proof. unfold Condition.not_. destruct (Condition.negate c); reflexivity. Qed.

Lemma checked_column_clean (c : Condition.t) (name : string) :
  Condition.checked_column c = Ok name ->
  clean_column c = true ->
  Str.placeholders name = 0.
Proof.
  intros H Hc. apply checked_column_Ok in H. destruct H as [H _].
  unfold clean_column in Hc. rewrite H in Hc. now apply clean_eq.
Qed.

Lemma placeholder_marks (o : operand) :
  clean_operand o = true ->
  Str.placeholders (placeholder o) = length (bound o).
Proof.
  destruct o as [[col]|v]; cbn; [|reflexivity]. apply clean_eq.
Qed.

Lemma bound_not_null (test : jsval -> bool) (o : operand) :
  (forall v, test v = true -> Insert.not_null v = true) ->
  ref_or test o = true ->
  Forall (fun v => Insert.not_null v = true) (bound o).
Proof.
  intros Ht H. destruct o as [r|v]; cbn in *; auto.
Qed.

Lemma scalar_not_null (v : jsval) :
  Is.isFullStr v || Is.isNum v = true -> Insert.not_null v = true.
Proof. destruct v; cbn; auto. Qed.

Lemma fullStr_not_null (v : jsval) :
  Is.isFullStr v = true -> Insert.not_null v = true.
Proof. destruct v; cbn; auto. Qed.

Lemma int_positive_not_null (v : jsval) :
  int_positive v = true -> Insert.not_null v = true.
Proof. destruct v; cbn; auto; discriminate. Qed.

Lemma int_between_not_null (lo hi : Z) (v : jsval) :
  int_between lo hi v = true -> Insert.not_null v = true.
Proof. destruct v; cbn; auto; discriminate. Qed.

Lemma fragment_marks (d : Driver) (part : DatePart) (col : string) :
  Str.placeholders (dialect_fragment d part col) = Str.placeholders col.
Proof. destruct d, part; cbn [dialect_fragment specified_fragment part_name
                               strftime_format]; count; lia. Qed.

Lemma description_clean (o : Operator) :
  Str.placeholders (description o) = 0.
Proof. destruct o; reflexivity. Qed.

Lemma raw_values_not_null (vs values values' : list jsval) :
  Condition.raw_values vs values = Ok values' ->
  Forall (fun v => Insert.not_null v = true) vs.
Proof.
  revert values; induction vs as [|v vs IH]; intros values H; cbn in H.
  - constructor.
  - returns H. constructor; [now apply scalar_not_null | eauto].
Qed.

Lemma in_check_not_null (vs : list operand) :
  Condition.in_check vs = Ok tt ->
  Forall (fun v => Insert.not_null v = true) (flat_map bound vs).
Proof.
  induction vs as [|v vs IH]; intros H; cbn in H |- *.
  - constructor.
  - returns H. apply Forall_app. split; [|auto].
    eapply bound_not_null; [apply scalar_not_null | assumption].
Qed.

Lemma placeholders_marks_list (vs : list operand) :
  forallb clean_operand vs = true ->
  Str.placeholders (Str.join ", " (map placeholder vs))
  = length (flat_map bound vs).
Proof.
  intros H. rewrite placeholders_join by reflexivity.
  induction vs as [|v vs IH]; [reflexivity|].
  cbn [forallb] in H. apply andb_prop in H. destruct H as [Hv H].
  cbn [map flat_map]. rewrite list_sum_cons, length_app, (IH H).
  now rewrite placeholder_marks.
Qed.

Lemma aligned_new (con : MegaPoolConnection) : aligned (Select.new con).
Proof. repeat split. constructor. Qed.

Lemma marks_set_negate (flag : bool) (c : Condition.t) :
  marks (Condition.set_negate flag c) = marks c.
Proof. reflexivity. Qed.

Lemma marks_set_opened (n : Z) (c : Condition.t) :
  marks (Condition.set_opened n c) = marks c.
Proof. reflexivity. Qed.

Lemma marks_set_column (name : string) (c : Condition.t) :
  marks (Condition.set_column name c) = marks c.
Proof. reflexivity. Qed.

Lemma clean_column_set_negate (flag : bool) (c : Condition.t) :
  clean_column (Condition.set_negate flag c) = clean_column c.
Proof. reflexivity. Qed.

Lemma clean_column_set_opened (n : Z) (c : Condition.t) :
  clean_column (Condition.set_opened n c) = clean_column c.
Proof. reflexivity. Qed.

Lemma clean_column_push (fragment : string) (c : Condition.t) :
  clean_column (Condition.push fragment c) = clean_column c.
Proof. reflexivity. Qed.

Lemma clean_column_set_column (name : string) (c : Condition.t) :
  clean_column (Condition.set_column name c) = clean name.
Proof. reflexivity. Qed.

(** The four parts of [grows] for a call that has returned. *)
Ltac grow :=
  eexists;
  split; [first [reflexivity | symmetry; apply app_nil_r] |];
  split;
  [ rewrite ?marks_set_negate, ?marks_set_opened, ?marks_set_column,
      ?marks_push;
    count;
    rewrite ?not_clean, ?fragment_marks, ?length_app;
    rewrite ?placeholder_marks, ?placeholders_marks_list by assumption;
    cbn [length]; try lia
  | split;
    [ rewrite ?clean_column_set_negate, ?clean_column_set_opened,
        ?clean_column_push, ?clean_column_set_column; try assumption
    | repeat (apply Forall_app; split);
      first
        [ constructor
        | assumption
        | eapply bound_not_null; [|eassumption]; intros ?;
          first [ apply scalar_not_null | apply fullStr_not_null
                | apply int_positive_not_null | apply int_between_not_null ]
        | apply in_check_not_null; assumption
        | idtac ] ] ].

Lemma call_grows (con : MegaPoolConnection) (call : ConditionCall) :
  plain_call call = true ->
  match call with
  | CInSubquery sub | CExists sub | CAny _ sub | CAll _ sub =>
      keeps_aligned (run_select sub)
  | _ => True
  end ->
  condition_grows (call_condition con call).
Proof.
  intros Hplain IH c values c' values' Hc H.
  destruct call; cbn [call_condition plain_call] in *.
  all: match type of H with
       | ?m (_, _) = _ => unfold m in *
       | ?m _ (_, _) = _ => unfold m in *
       | ?m _ _ (_, _) = _ => unfold m in *
       | ?m _ _ _ (_, _) = _ => unfold m in *
       end.
  all: try match type of H with
           | (if ?b then _ else _) = _ =>
               destruct b;
               [unfold Condition.open in * | unfold Condition.close in *]
           end.
  all: returns H; inversion H; subst; clear H.
  all: repeat match goal with
         | E : Condition.checked_column _ = Ok _ |- _ =>
             apply checked_column_clean in E; [|assumption]
         | E : exDate _ = Ok _ |- _ =>
             change (exDate ?x) with (extract PDate x con) in E
         | E : exTime _ _ = Ok _ |- _ =>
             change (exTime ?x ?k) with (extract PTime x k) in E
         | E : exYear _ _ = Ok _ |- _ =>
             change (exYear ?x ?k) with (extract PYear x k) in E
         | E : exMonth _ _ = Ok _ |- _ =>
             change (exMonth ?x ?k) with (extract PMonth x k) in E
         | E : exDay _ _ = Ok _ |- _ =>
             change (exDay ?x ?k) with (extract PDay x k) in E
         | E : exHour _ _ = Ok _ |- _ =>
             change (exHour ?x ?k) with (extract PHour x k) in E
         | E : exMinute _ _ = Ok _ |- _ =>
             change (exMinute ?x ?k) with (extract PMinute x k) in E
         | E : exSecond _ _ = Ok _ |- _ =>
             change (exSecond ?x ?k) with (extract PSecond x k) in E
         | E : extract _ _ _ = Ok _ |- _ =>
             rewrite extract_fragment in E; inversion E; subst; clear E
         | E : Condition.raw_values _ _ = Ok _ |- _ =>
             pose proof (raw_values_not_null _ _ E);
             apply raw_values_appends in E; subst
         | E : (_ && _) = true |- _ =>
             apply andb_prop in E; destruct E
         | E : (_ =? _)%nat = true |- _ => apply Nat.eqb_eq in E
         end.
  all: rewrite ?push_unless_ref_bound, ?fold_push_unless_ref, <- ?app_assoc.
  all: try (grow; fail).
  all: match goal with
       | E : run_select _ (Select.new _) = Ok ?s,
         B : Select.build true ?s = Ok _ |- _ =>
           pose proof (IH _ _ (aligned_new _) E) as HA;
           apply (@Select_build_aligned _ _ _ HA) in B;
           destruct HA as [_ [_ [HA _]]]
       end.
  all: grow; rewrite ?description_clean; lia.
Qed.

(** ** Calls on a [Select] keep it aligned *)

(** Opens an aligned [Select] into its fields. *)
Ltac open_select s H :=
  destruct s as [[tb cols ord grp dis lim jns wh hv uns off] vs cn q];
  destruct H as [Hmarks [Hclean [Hvalues Hquery]]];
  unfold aligned, state_marks, clean_state in *;
  cbn [Select.state Select.values Select.table Select.columns Select.order
       Select.group Select.distinct_ Select.limit_ Select.joins
       Select.where_condition Select.having_condition Select.unions
       Select.offset_ Select.with_state Select.with_values
       Select.set_table Select.set_columns Select.set_order Select.set_group
       Select.set_distinct Select.set_limit Select.set_joins
       Select.set_where Select.set_having Select.set_unions
       Select.set_offset Select.connection Select.query] in *;
  repeat (apply andb_prop in Hclean; destruct Hclean as [Hclean ?]).

Ltac close_select :=
  split; [|split; [|split]];
  [ try assumption
  | repeat (apply andb_true_intro; split); try assumption
  | try assumption
  | try assumption ].

Lemma from_keeps (name : string) :
  clean name = true -> keeps_aligned (Select.from name).
Proof.
  intros Hn s s' Hs H. unfold Select.from in H. returns H.
  inversion H; subst; clear H. open_select s Hs. close_select.
Qed.

Lemma col_keeps (names : list string) :
  forallb clean names = true -> keeps_aligned (Select.col names).
Proof.
  intros Hn s s' Hs H. unfold Select.col in H. returns H.
  inversion H; subst; clear H. open_select s Hs. close_select.
Qed.

Lemma distinct_keeps : keeps_aligned Select.distinct.
Proof.
  intros s s' Hs H. unfold Select.distinct in H.
  inversion H; subst; clear H. open_select s Hs. close_select.
Qed.

Lemma offset_keeps (value : jsval) : keeps_aligned (Select.offset value).
Proof.
  intros s s' Hs H. unfold Select.offset in H. returns H.
  inversion H; subst; clear H. open_select s Hs. close_select.
Qed.

Lemma limit_keeps (value : jsval) : keeps_aligned (Select.limit value).
Proof.
  intros s s' Hs H. unfold Select.limit in H. returns H.
  inversion H; subst; clear H. open_select s Hs. close_select.
Qed.

Lemma groupBy_keeps (names : list string) :
  forallb clean names = true -> keeps_aligned (Select.groupBy names).
Proof.
  intros Hn s s' Hs H. unfold Select.groupBy in H. returns H.
  inversion H; subst; clear H. open_select s Hs. close_select.
  rewrite forallb_app. now apply andb_true_intro.
Qed.

Lemma orderBy_keeps (column : string) (type : Order) :
  clean column = true -> keeps_aligned (Select.orderBy column type).
Proof.
  intros Hn s s' Hs H. unfold Select.orderBy in H. returns H.
  inversion H; subst; clear H. open_select s Hs. close_select.
  rewrite forallb_app. apply andb_true_intro. split; [assumption|].
  cbn [forallb fst snd]. rewrite Hn. now destruct type.
Qed.

Lemma reset_keeps : keeps_aligned (fun s => Ok (Select.reset s)).
Proof.
  intros s s' Hs H. inversion H; subst; clear H.
  repeat split. constructor.
Qed.

Lemma clean_new : clean_column Condition.new = true.
Proof. reflexivity. Qed.

Lemma on_where_keeps (m : Condition.method) (c : Condition.t)
  (s s' : Select.t) :
  condition_grows m ->
  aligned s ->
  clean_column c = true ->
  marks c = option_marks (Select.where_condition (Select.state s)) ->
  Select.on_where m c s = Ok s' ->
  aligned s'.
Proof.
  intros Hm Hs Hc Hmc H. unfold Select.on_where in H. returns H.
  inversion H; subst; clear H.
  apply Hm in E; [|assumption]. destruct E as [added [-> [Ha [Hc' Hn]]]].
  open_select s Hs. close_select.
  - cbn [option_marks]. rewrite length_app. lia.
  - now apply Forall_app.
Qed.

Lemma on_having_keeps (m : Condition.method) (c : Condition.t)
  (s s' : Select.t) :
  condition_grows m ->
  aligned s ->
  clean_column c = true ->
  marks c = option_marks (Select.having_condition (Select.state s)) ->
  Select.on_having m c s = Ok s' ->
  aligned s'.
Proof.
  intros Hm Hs Hc Hmc H. unfold Select.on_having in H. returns H.
  inversion H; subst; clear H.
  apply Hm in E; [|assumption]. destruct E as [added [-> [Ha [Hc' Hn]]]].
  open_select s Hs. close_select.
  - cbn [option_marks]. rewrite length_app. lia.
  - now apply Forall_app.
Qed.

Lemma where_condition_clean (s : Select.t) (c : Condition.t) :
  aligned s ->
  Select.where_condition (Select.state s) = Some c ->
  clean_column c = true.
Proof.
  intros Hs Hw. open_select s Hs. subst wh. assumption.
Qed.

Lemma having_condition_clean (s : Select.t) (c : Condition.t) :
  aligned s ->
  Select.having_condition (Select.state s) = Some c ->
  clean_column c = true.
Proof.
  intros Hs Hw. open_select s Hs. subst hv. assumption.
Qed.

Lemma where_keeps (m : Condition.method) :
  condition_grows m -> keeps_aligned (Select.where_ m).
Proof.
  intros Hm s s' Hs H. unfold Select.where_ in H.
  destruct (Select.where_condition (Select.state s)) as [c|] eqn:Hw.
  - eapply on_where_keeps; eauto using where_condition_clean.
    now rewrite Hw.
  - eapply on_where_keeps; eauto using clean_new. now rewrite Hw.
Qed.

Lemma having_keeps (m : Condition.method) :
  condition_grows m -> keeps_aligned (Select.having m).
Proof.
  intros Hm s s' Hs H. unfold Select.having in H.
  destruct (Select.having_condition (Select.state s)) as [c|] eqn:Hw.
  - eapply on_having_keeps; eauto using having_condition_clean.
    now rewrite Hw.
  - eapply on_having_keeps; eauto using clean_new. now rewrite Hw.
Qed.

(** [and], [or], [paren], [open] and [close] of a statement are the calls
    of the same name on its condition. *)
Lemma simple_grows (con : MegaPoolConnection) (call : ConditionCall) :
  In call [CAnd; COr; CParen; COpen; CClose] ->
  condition_grows (call_condition con call).
Proof.
  intros Hin. apply call_grows;
    cbn in Hin; decompose [or] Hin; subst; try contradiction; reflexivity.
Qed.

Lemma select_and_keeps : keeps_aligned Select.and.
Proof.
  intros s s' Hs H. unfold Select.and in H.
  destruct (Select.where_condition (Select.state s)) as [c|] eqn:Hw;
    [|discriminate].
  eapply on_where_keeps; eauto using where_condition_clean.
  - apply (@simple_grows mysql CAnd). cbn; tauto.
  - now rewrite Hw.
Qed.

Lemma select_or_keeps : keeps_aligned Select.or.
Proof.
  intros s s' Hs H. unfold Select.or in H.
  destruct (Select.where_condition (Select.state s)) as [c|] eqn:Hw;
    [|discriminate].
  eapply on_where_keeps; eauto using where_condition_clean.
  - apply (@simple_grows mysql COr). cbn; tauto.
  - now rewrite Hw.
Qed.

Lemma select_close_keeps : keeps_aligned Select.close.
Proof.
  intros s s' Hs H. unfold Select.close in H.
  destruct (Select.where_condition (Select.state s)) as [c|] eqn:Hw;
    [|discriminate].
  eapply on_where_keeps; eauto using where_condition_clean.
  - apply (@simple_grows mysql CClose). cbn; tauto.
  - now rewrite Hw.
Qed.

Lemma select_paren_keeps : keeps_aligned Select.paren.
Proof.
  intros s s' Hs H.
  apply (@where_keeps Condition.paren (@simple_grows mysql CParen
           ltac:(cbn; tauto)) s s' Hs H).
Qed.

Lemma select_open_keeps : keeps_aligned Select.open.
Proof.
  intros s s' Hs H.
  apply (@where_keeps Condition.open (@simple_grows mysql COpen
           ltac:(cbn; tauto)) s s' Hs H).
Qed.

Lemma join_as_keeps (type table : string) (m : Condition.method) :
  clean type = true -> clean table = true ->
  condition_grows m -> keeps_aligned (Select.join_as type table m).
Proof.
  intros Hy Ht Hm s s' Hs H. unfold Select.join_as in H. returns H.
  inversion H; subst; clear H.
  apply Hm in E0; [|apply clean_new].
  destruct E0 as [added [-> [Ha [Hc' Hn]]]].
  open_select s Hs. close_select.
  - rewrite map_app, list_sum_app, length_app.
    cbn [map list_sum fold_right Select.join_condition].
    change (marks Condition.new) with 0 in Ha. lia.
  - rewrite forallb_app. apply andb_true_intro. split; [assumption|].
    cbn [forallb Select.join_table Select.join_type]. now rewrite Hy, Ht.
  - now apply Forall_app.
Qed.

Lemma union_as_keeps (all : bool) (subquery : Select.t -> result Select.t) :
  keeps_aligned subquery -> keeps_aligned (Select.union_as all subquery).
Proof.
  intros Hsub s s' Hs H. unfold Select.union_as in H. returns H.
  inversion H; subst; clear H.
  pose proof (Hsub _ _ (aligned_new _) E) as HA.
  apply (@Select_build_aligned _ _ _ HA) in E0.
  destruct HA as [_ [_ [HA _]]].
  open_select s Hs. close_select.
  - rewrite map_app, list_sum_app, length_app.
    cbn [map list_sum fold_right fst]. lia.
  - now apply Forall_app.
Qed.

(** Every plain chain on a condition grows tokens and sink together,
    and every plain chain on a [Select] keeps it aligned. *)
Lemma chains_aligned :
  (forall call, plain_call call = true ->
                forall con, condition_grows (call_condition con call))
  /\ (forall chain, plain_condition chain = true ->
                    forall con, condition_grows (run_condition con chain))
  /\ (forall call, plain_select_call call = true ->
                   keeps_aligned (call_select call))
  /\ (forall chain, plain_select chain = true ->
                    keeps_aligned (run_select chain)).
Proof.
  apply chains_ind.
  (* the calls on a condition *)
  1-29: intros; apply call_grows; [assumption | cbn; auto].
  (* the chains on a condition *)
  - intros _ con c values c' values' Hc H. inversion H; subst.
    now apply grows_refl.
  - intros call IHcall rest IHrest Hp con c values c' values' Hc H.
    cbn [plain_condition] in Hp. apply andb_prop in Hp. destruct Hp as [H1 H2].
    cbn [run_condition] in H. returns H.
    pose proof (IHcall H1 con _ _ _ _ Hc E) as G1.
    assert (Hc' : clean_column t = true) by (destruct G1; tauto).
    pose proof (IHrest H2 con _ _ _ _ Hc' H) as G2.
    eapply grows_trans; eassumption.
  (* the calls on a [Select] *)
  - intros name Hp. now apply from_keeps.
  - intros names Hp. now apply col_keeps.
  - intros _. apply distinct_keeps.
  - intros value _. apply offset_keeps.
  - intros value _. apply limit_keeps.
  - intros table condition IH Hp s s' Hs H. cbn in Hp.
    apply andb_prop in Hp. destruct Hp as [Ht Hp].
    cbn [call_select] in H.
    eapply (@join_as_keeps "INNER" table); eauto.
  - intros table condition IH Hp s s' Hs H. cbn in Hp.
    apply andb_prop in Hp. destruct Hp as [Ht Hp].
    cbn [call_select] in H.
    eapply (@join_as_keeps "LEFT" table); eauto.
  - intros table condition IH Hp s s' Hs H. cbn in Hp.
    apply andb_prop in Hp. destruct Hp as [Ht Hp].
    cbn [call_select] in H.
    eapply (@join_as_keeps "RIGHT" table); eauto.
  - intros names Hp. now apply groupBy_keeps.
  - intros column type Hp. now apply orderBy_keeps.
  - intros condition IH Hp s s' Hs H. cbn [call_select] in H.
    eapply where_keeps; eauto.
  - intros condition IH Hp s s' Hs H. cbn [call_select] in H.
    eapply having_keeps; eauto.
  - intros sub IH Hp. apply union_as_keeps. auto.
  - intros sub IH Hp. apply union_as_keeps. auto.
  - intros _. apply select_and_keeps.
  - intros _. apply select_or_keeps.
  - intros _. apply select_paren_keeps.
  - intros _. apply select_open_keeps.
  - intros _. apply select_close_keeps.
  - intros _. apply reset_keeps.
  (* the chains on a [Select] *)
  - intros _ s s' Hs H. now inversion H; subst.
  - intros call IHcall rest IHrest Hp s s' Hs H.
    cbn [plain_select] in Hp. apply andb_prop in Hp. destruct Hp as [H1 H2].
    cbn [run_select] in H. returns H.
    exact (IHrest H2 _ _ (IHcall H1 _ _ Hs E) H).
Qed.

(** ** [Insert]: names stay clean and rows render value by value *)

Lemma row_text_marks (r : list jsval) :
  Str.placeholders (row_text r) = length (filter Insert.not_null r).
Proof.
  unfold row_text. count. rewrite placeholders_join by reflexivity.
  rewrite Nat.add_0_r.
  induction r as [|v r IH]; [reflexivity|].
  cbn [map filter]. rewrite list_sum_cons, IH.
  destruct v; reflexivity.
Qed.

Lemma rows_text_marks (rows : list (list jsval)) :
  Str.placeholders (Str.join ", " (map row_text rows))
  = length (concat (map (filter Insert.not_null) rows)).
Proof.
  rewrite placeholders_join by reflexivity.
  induction rows as [|r rows IH]; [reflexivity|].
  cbn [map concat]. rewrite list_sum_cons, length_app, IH.
  now rewrite row_text_marks.
Qed.

Lemma Insert_build_text (i i' : Insert.t) (text : string) :
  Insert.build i = Ok (text, i') ->
  exists table cols,
    Insert.table i = Some table
    /\ Insert.columns i = Some cols
    /\ text = "INSERT INTO " ++ table ++ " (" ++ Str.join ", " cols
              ++ ") VALUES " ++ Str.join ", " (map row_text (Insert.values i))
              ++ match Insert.returnings i with
                 | Some rs => " RETURNING " ++ Str.join ", " rs
                 | None => ""
                 end ++ ";"
    /\ Insert.values i' = map (filter Insert.not_null) (Insert.values i).
Proof.
  unfold Insert.build. intros H.
  destruct (Insert.table i) as [table|]; [|discriminate]. returns H.
  destruct (Insert.columns i) as [cols|]; [|discriminate]. returns H.
  inversion H; subst; clear H. exists table, cols.
  repeat split; reflexivity.
Qed.

Lemma Insert_build_count (i i' : Insert.t) (text : string) :
  insert_clean i ->
  Insert.build i = Ok (text, i') ->
  Str.placeholders text = length (concat (Insert.values i')).
Proof.
  intros [Ht [Hc [Hr _]]] H. apply Insert_build_text in H.
  destruct H as [table [cols [Etable [Ecols [-> ->]]]]].
  rewrite Etable in Ht. rewrite Ecols in Hc. cbn in Ht, Hc.
  apply clean_eq in Ht. count. rewrite Ht, rows_text_marks.
  rewrite (placeholders_join_clean ", " cols) by (reflexivity || assumption).
  destruct (Insert.returnings i) as [rs|]; count.
  - cbn in Hr. rewrite (placeholders_join_clean ", " rs)
      by (reflexivity || assumption). lia.
  - lia.
Qed.

Lemma row_keeps (r : Row) (i i' : Insert.t) :
  forallb clean (keys r) = true ->
  insert_clean i -> Insert.row r i = Ok i' -> insert_clean i'.
Proof.
  intros Hr [Ht [Hc [Hret Hq]]] H. unfold Insert.row in H. returns H.
  inversion H; subst; clear H. repeat split; try assumption.
  cbn [Insert.columns]. destruct (Insert.columns i) as [established|].
  - returns E. inversion E; subst. assumption.
  - returns E. inversion E; subst. assumption.
Qed.

Lemma each_row_keeps (rs : Rows) (i i' : Insert.t) :
  forallb (fun row => forallb clean (keys row)) rs = true ->
  insert_clean i -> Insert.each_row rs i = Ok i' -> insert_clean i'.
Proof.
  revert i; induction rs as [|r rs IH]; intros i Hrs Hi H; cbn in H.
  - now inversion H; subst.
  - cbn [forallb] in Hrs. apply andb_prop in Hrs. destruct Hrs as [Hr Hrs].
    returns H. exact (IH _ Hrs (row_keeps _ Hr Hi E) H).
Qed.

Lemma call_insert_keeps (call : InsertCall) (i i' : Insert.t) :
  plain_insert_call call = true ->
  insert_clean i -> call_insert call i = Ok i' -> insert_clean i'.
Proof.
  intros Hp Hi H. destruct call; cbn [call_insert plain_insert_call] in *.
  - unfold Insert.into in H. returns H. inversion H; subst.
    destruct Hi as [? [? [? ?]]]. repeat split; assumption.
  - unfold Insert.returning in H. returns H. inversion H; subst.
    destruct Hi as [? [? [? ?]]]. repeat split; assumption.
  - exact (row_keeps _ Hp Hi H).
  - unfold Insert.rows in H. returns H. exact (each_row_keeps _ Hp Hi H).
  - inversion H; subst. destruct Hi as [? [? [? ?]]].
    repeat split; assumption.
Qed.

Lemma run_insert_keeps (chain : list InsertCall) (i i' : Insert.t) :
  forallb plain_insert_call chain = true ->
  insert_clean i -> run_insert chain i = Ok i' -> insert_clean i'.
Proof.
  revert i; induction chain as [|call chain IH]; intros i Hp Hi H; cbn in H.
  - now inversion H; subst.
  - cbn [forallb] in Hp. apply andb_prop in Hp. destruct Hp as [Hc Hp].
    returns H. exact (IH _ Hp (call_insert_keeps _ Hc Hi E) H).
Qed.

(** ** [Delete] stays aligned *)

Lemma delete_on_condition_keeps (m : Condition.method) (c : Condition.t)
  (d d' : Delete.t) :
  condition_grows m ->
  delete_aligned d ->
  clean_column c = true ->
  marks c = option_marks (Delete.condition d) ->
  Delete.on_condition m c d = Ok d' ->
  delete_aligned d'.
Proof.
  intros Hm [Hmarks [Hclean [Ht Hq]]] Hc Hmc H.
  unfold Delete.on_condition in H. returns H. inversion H; subst; clear H.
  apply Hm in E; [|assumption]. destruct E as [added [-> [Ha [Hc' _]]]].
  repeat split; cbn; try assumption. rewrite length_app. lia.
Qed.

Lemma delete_condition_keeps (m : Condition.method) (lazy : bool)
  (d d' : Delete.t) :
  condition_grows m ->
  delete_aligned d ->
  match Delete.condition d with
  | None => if lazy then Delete.on_condition m Condition.new d
            else Throw "Invalid DELETE condition"
  | Some c => Delete.on_condition m c d
  end = Ok d' ->
  delete_aligned d'.
Proof.
  intros Hm Hd H. pose proof Hd as [_ [Hclean _]].
  destruct (Delete.condition d) as [c|] eqn:Hc.
  - eapply delete_on_condition_keeps; eauto. now rewrite Hc.
  - destruct lazy; [|discriminate].
    eapply delete_on_condition_keeps; eauto using clean_new. now rewrite Hc.
Qed.

Lemma call_delete_keeps (call : DeleteCall) (d d' : Delete.t) :
  plain_delete_call call = true ->
  delete_aligned d -> call_delete call d = Ok d' -> delete_aligned d'.
Proof.
  intros Hp Hd H. destruct call; cbn [call_delete plain_delete_call] in *.
  - unfold Delete.from in H. returns H. inversion H; subst.
    destruct Hd as [? [? [? ?]]]. repeat split; assumption.
  - apply (@delete_condition_keeps _ true d d'
             (proj1 (proj2 chains_aligned) _ Hp (Delete.connection d)) Hd).
    unfold Delete.where_ in H. destruct (Delete.condition d); exact H.
  - apply (@delete_condition_keeps _ false d d'
             (@simple_grows mysql CAnd ltac:(cbn; tauto)) Hd).
    unfold Delete.and in H. destruct (Delete.condition d); exact H.
  - apply (@delete_condition_keeps _ false d d'
             (@simple_grows mysql COr ltac:(cbn; tauto)) Hd).
    unfold Delete.or in H. destruct (Delete.condition d); exact H.
  - apply (@delete_condition_keeps _ true d d'
             (@simple_grows mysql CParen ltac:(cbn; tauto)) Hd).
    unfold Delete.paren in H. destruct (Delete.condition d); exact H.
  - apply (@delete_condition_keeps _ true d d'
             (@simple_grows mysql COpen ltac:(cbn; tauto)) Hd).
    unfold Delete.open in H. destruct (Delete.condition d); exact H.
  - apply (@delete_condition_keeps _ false d d'
             (@simple_grows mysql CClose ltac:(cbn; tauto)) Hd).
    unfold Delete.close in H. destruct (Delete.condition d); exact H.
  - inversion H; subst. repeat split.
Qed.

Lemma run_delete_keeps (chain : list DeleteCall) (d d' : Delete.t) :
  forallb plain_delete_call chain = true ->
  delete_aligned d -> run_delete chain d = Ok d' -> delete_aligned d'.
Proof.
  revert d; induction chain as [|call chain IH]; intros d Hp Hd H; cbn in H.
  - now inversion H; subst.
  - cbn [forallb] in Hp. apply andb_prop in Hp. destruct Hp as [Hc Hp].
    returns H. exact (IH _ Hp (call_delete_keeps _ Hc Hd E) H).
Qed.

Lemma Delete_build_count (d : Delete.t) (text : string) :
  delete_aligned d ->
  Delete.build d = Ok text ->
  Str.placeholders text = length (Delete.values d).
Proof.
  intros [Hmarks [_ [Ht _]]] H. unfold Delete.build in H.
  destruct (Delete.table d) as [table|]; [|discriminate]. returns H.
  destruct (Delete.condition d) as [c|]; [|discriminate]. returns H.
  inversion H; subst; clear H. apply Condition_build_marks in E0.
  cbn in Ht, Hmarks. apply clean_eq in Ht. count. rewrite Ht, E0. lia.
Qed.

(** ** [Update] stays aligned when [set] comes first *)

Lemma update_aligned_weaken (conditioned : bool) (u : Update.t) :
  update_aligned conditioned u -> update_aligned true u.
Proof.
  intros [Hv [Hc [Ht [Hcols [Hq _]]]]]. repeat split; try assumption.
  discriminate.
Qed.

Lemma update_on_condition_keeps (m : Condition.method) (c : Condition.t)
  (u u' : Update.t) :
  condition_grows m ->
  update_aligned true u ->
  clean_column c = true ->
  marks c = option_marks (Update.condition (Update.state u)) ->
  Update.on_condition m c u = Ok u' ->
  update_aligned true u'.
Proof.
  intros Hm [[sv [wv [Hv [Hsv [Hwv Hnn]]]]] [Hclean [Ht [Hcols [Hq _]]]]]
    Hc Hmc H.
  unfold Update.on_condition in H. returns H. inversion H; subst; clear H.
  apply Hm in E; [|assumption]. destruct E as [added [-> [Ha [Hc' Hn]]]].
  split; [|repeat split; cbn; try assumption; discriminate].
  exists sv, (wv ++ added)%list. cbn.
  rewrite Hv, <- app_assoc, length_app. repeat split; try assumption.
  - lia.
  - now apply Forall_app.
Qed.

Lemma update_condition_keeps (m : Condition.method) (lazy : bool)
  (u u' : Update.t) :
  condition_grows m ->
  update_aligned true u ->
  match Update.condition (Update.state u) with
  | None => if lazy then Update.on_condition m Condition.new u
            else Throw "Invalid UPDATE condition"
  | Some c => Update.on_condition m c u
  end = Ok u' ->
  update_aligned true u'.
Proof.
  intros Hm Hu H. pose proof Hu as [_ [Hclean _]].
  destruct (Update.condition (Update.state u)) as [c|] eqn:Hc.
  - eapply update_on_condition_keeps; eauto. now rewrite Hc.
  - destruct lazy; [|discriminate].
    eapply update_on_condition_keeps; eauto using clean_new. now rewrite Hc.
Qed.

Lemma set_keeps (row : Row) (u u' : Update.t) :
  forallb clean (keys row) = true ->
  update_aligned false u -> Update.set row u = Ok u' ->
  update_aligned false u'.
Proof.
  intros Hr [_ [Hclean [Ht [_ [Hq Hnone]]]]] H.
  unfold Update.set in H. returns H. inversion H; subst; clear H.
  specialize (Hnone eq_refl).
  split; [|repeat split; cbn; try assumption; intros _; assumption].
  exists (vals row), []. cbn. rewrite Hnone, app_nil_r.
  repeat split; [|constructor].
  unfold vals, keys. now rewrite !length_map.
Qed.

Lemma table_keeps (name : string) (conditioned : bool) (u u' : Update.t) :
  clean name = true ->
  update_aligned conditioned u -> Update.table_ name u = Ok u' ->
  update_aligned conditioned u'.
Proof.
  intros Hn [Hv [Hclean [Ht [Hcols [Hq Hnone]]]]] H.
  unfold Update.table_ in H. returns H. inversion H; subst; clear H.
  repeat split; cbn; assumption.
Qed.

Lemma update_aligned_new (con : MegaPoolConnection) :
  update_aligned false (Update.new con).
Proof.
  split; [|repeat split]. exists [], []. repeat split. constructor.
Qed.

Lemma run_update_keeps (chain : list UpdateCall) (conditioned : bool)
  (u u' : Update.t) :
  forallb plain_update_call chain = true ->
  set_first conditioned chain = true ->
  update_aligned conditioned u ->
  run_update chain u = Ok u' ->
  update_aligned true u'.
Proof.
  revert conditioned u;
    induction chain as [|call chain IH]; intros conditioned u Hp Hs Hu H;
    cbn [run_update] in H.
  - inversion H; subst. eapply update_aligned_weaken; eassumption.
  - cbn [forallb] in Hp. apply andb_prop in Hp. destruct Hp as [Hc Hp].
    returns H.
    destruct call; cbn [call_update plain_update_call set_first] in *.
    + exact (IH _ _ Hp Hs (table_keeps _ Hc Hu E) H).
    + apply andb_prop in Hs. destruct Hs as [Hf Hs].
      destruct conditioned; [discriminate|].
      exact (IH _ _ Hp Hs (set_keeps _ Hc Hu E) H).
    + refine (IH true _ Hp Hs _ H).
      apply (@update_condition_keeps _ true u a
               (proj1 (proj2 chains_aligned) _ Hc (Update.connection u))
               (update_aligned_weaken Hu)).
      unfold Update.where_ in E.
      destruct (Update.condition (Update.state u)); exact E.
    + refine (IH true _ Hp Hs _ H).
      apply (@update_condition_keeps _ false u a
               (@simple_grows mysql CAnd ltac:(cbn; tauto))
               (update_aligned_weaken Hu)).
      unfold Update.and in E.
      destruct (Update.condition (Update.state u)); exact E.
    + refine (IH true _ Hp Hs _ H).
      apply (@update_condition_keeps _ false u a
               (@simple_grows mysql COr ltac:(cbn; tauto))
               (update_aligned_weaken Hu)).
      unfold Update.or in E.
      destruct (Update.condition (Update.state u)); exact E.
    + refine (IH true _ Hp Hs _ H).
      apply (@update_condition_keeps _ true u a
               (@simple_grows mysql CParen ltac:(cbn; tauto))
               (update_aligned_weaken Hu)).
      unfold Update.paren in E.
      destruct (Update.condition (Update.state u)); exact E.
    + refine (IH true _ Hp Hs _ H).
      apply (@update_condition_keeps _ true u a
               (@simple_grows mysql COpen ltac:(cbn; tauto))
               (update_aligned_weaken Hu)).
      unfold Update.open in E.
      destruct (Update.condition (Update.state u)); exact E.
    + refine (IH true _ Hp Hs _ H).
      apply (@update_condition_keeps _ false u a
               (@simple_grows mysql CClose ltac:(cbn; tauto))
               (update_aligned_weaken Hu)).
      unfold Update.close in E.
      destruct (Update.condition (Update.state u)); exact E.
    + inversion E; subst.
      exact (IH _ _ Hp Hs (update_aligned_new _) H).
Qed.

Lemma null_at_middle (before : list jsval) (v : jsval) (rest : list jsval) :
  Update.null_at (before ++ v :: rest) (length before) = Is.isNull v.
Proof.
  unfold Update.null_at. rewrite nth_error_app2 by lia.
  now rewrite Nat.sub_diag.
Qed.

Lemma mapi_assignments (columns : list string)
  (before of_row rest : list jsval) :
  length of_row = length columns ->
  Update.mapi
    (fun c i => if Update.null_at (before ++ of_row ++ rest) i
                then c ++ " = NULL" else c ++ " = ?")
    (length before) columns
  = assignments columns of_row.
Proof.
  revert before of_row; induction columns as [|c columns IH];
    intros before of_row Hlen.
  - destruct of_row; [reflexivity | discriminate].
  - destruct of_row as [|v of_row]; [discriminate|].
    cbn [Update.mapi assignments combine map fst snd].
    cbn [app]. rewrite null_at_middle. f_equal.
    + unfold assignment. destruct v; reflexivity.
    + specialize (IH (before ++ [v])%list of_row ltac:(cbn in Hlen; lia)).
      rewrite length_app in IH. cbn [length] in IH.
      rewrite Nat.add_1_r, <- app_assoc in IH. exact IH.
Qed.

Lemma assignments_marks (columns : list string) (of_row : list jsval) :
  forallb clean columns = true ->
  length of_row = length columns ->
  Str.placeholders (Str.join ", " (assignments columns of_row))
  = length (filter Insert.not_null of_row).
Proof.
  intros Hc. rewrite placeholders_join by reflexivity.
  revert of_row; induction columns as [|c columns IH]; intros of_row Hlen.
  - destruct of_row; [reflexivity | discriminate].
  - destruct of_row as [|v of_row]; [discriminate|].
    cbn [forallb] in Hc. apply andb_prop in Hc. destruct Hc as [Hc Hcs].
    apply clean_eq in Hc.
    cbn [assignments combine map fst snd filter].
    rewrite list_sum_cons. unfold assignment at 1. count. rewrite Hc.
    fold (assignments columns of_row).
    rewrite (IH Hcs of_row) by (cbn in Hlen; lia).
    destruct v; reflexivity.
Qed.

Lemma filter_not_null_id (l : list jsval) :
  Forall (fun v => Insert.not_null v = true) l ->
  filter Insert.not_null l = l.
Proof.
  induction 1 as [|v l Hv Hl IH]; [reflexivity|].
  cbn [filter]. now rewrite Hv, IH.
Qed.

(** The text and the sink of an aligned [Update] after [build]. *)
Lemma Update_build_text (u u' : Update.t) (text : string) :
  update_aligned true u ->
  Update.build u = Ok (text, u') ->
  exists table where_ of_row of_condition,
    Update.values u = (of_row ++ of_condition)%list
    /\ length of_row = length (Update.columns (Update.state u))
    /\ text = "UPDATE " ++ table ++ " SET "
              ++ Str.join ", "
                   (assignments (Update.columns (Update.state u)) of_row)
              ++ " WHERE " ++ where_ ++ ";"
    /\ Update.values u'
       = (filter Insert.not_null of_row ++ of_condition)%list
    /\ Str.placeholders text = length (Update.values u').
Proof.
  intros [[sv [wv [Hv [Hsv [Hwv Hnn]]]]] [Hclean [Ht [Hcols [Hq _]]]]] H.
  unfold Update.build in H.
  destruct (Update.table (Update.state u)) as [table|]; [|discriminate].
  returns H.
  destruct (Update.condition (Update.state u)) as [c|]; [|discriminate].
  returns H. inversion H; subst; clear H.
  exists table, a, sv, wv. cbn [Update.values].
  rewrite Hv.
  pose proof (@mapi_assignments (Update.columns (Update.state u)) [] sv wv Hsv)
    as Hmapi.
  cbn [app length] in Hmapi. rewrite Hmapi.
  rewrite filter_app, (filter_not_null_id Hnn).
  repeat split; try assumption.
  apply Condition_build_marks in E2. cbn in Ht, Hwv. apply clean_eq in Ht.
  count. rewrite Ht, E2, assignments_marks, length_app by assumption. lia.
Qed.

(** ** Placeholders and sink (C1) *)

(** C1, as the specification states it, fails: an [Update] whose
    condition is built before [set] keeps the placeholder of the condition
    in its text, while [set] has replaced the sink by the values of the
    row; [exec] hands two placeholders and one value to the connection. *)
Lemma C1_where_before_set_loses_a_value :
  handed mysql (OnUpdate where_before_set)
  = Ok ("UPDATE users SET name = ? WHERE id = ?;", [VStr "John"])
  /\ Str.placeholders "UPDATE users SET name = ? WHERE id = ?;"
     <> length [VStr "John"].
Proof. split; [reflexivity | discriminate]. Qed.

(** A call that throws is outside the amended statement: [raw] that
    rejects its second value has pushed the first one, and no token. *)
Example raw_that_throws_has_pushed :
  call_condition mysql (CRaw "a = ? AND b = ?" [VNum 1; VUndefined])
    (Condition.new, [])
  = Throw "Invalid condition value: undefined"
  /\ left_by mysql (CRaw "a = ? AND b = ?" [VNum 1; VUndefined])
       (Condition.new, [])
     = (Condition.new, [VNum 1]).
Proof. split; reflexivity. Qed.

(** C1, amended: for every chain of calls on a new builder in which
    every call returns, and which splices names without a question mark,
    binds in each raw fragment as many values as the fragment has
    question marks and, on an [Update], calls [set] before the condition
    is started, the text that [exec] hands to the connection has as many
    placeholders as the flattened sink has values.  A builder that is
    driven on after one of its calls has thrown is left out: the call
    that throws can have pushed values already.  For an [Insert] the rows, and for such an [Update] the
    assignments, show [NULL] for a null value and [?] for any other value,
    and the sink keeps exactly the values that are not null, in order (for
    an [Update] followed by the values bound by the condition). *)
Theorem C1_placeholders_match_sink (con : MegaPoolConnection)
  (st : Statement) (text : string) (values : list jsval)
  (Hplain : plain st = true)
  (Hexec : handed con st = Ok (text, values)) :
  Str.placeholders text = length values
  /\ match st with
     | OnInsert _ =>
         exists table columns returning,
           text = "INSERT INTO " ++ table ++ " (" ++ Str.join ", " columns
                  ++ ") VALUES "
                  ++ Str.join ", " (map row_text (row_values con st))
                  ++ returning ++ ";"
           /\ values
              = concat (map (filter Insert.not_null) (row_values con st))
     | OnUpdate _ =>
         exists table columns of_row of_condition where_,
           row_values con st = [of_row]
           /\ length columns = length of_row
           /\ text = "UPDATE " ++ table ++ " SET "
                     ++ Str.join ", " (assignments columns of_row)
                     ++ " WHERE " ++ where_ ++ ";"
           /\ values = (filter Insert.not_null of_row ++ of_condition)%list
     | _ => True
     end.
Proof.
  destruct st as [chain|chain|chain|chain]; cbn [plain handed] in *.
  - (* Select *)
    returns Hexec.
    pose proof (proj2 (proj2 (proj2 chains_aligned)) _ Hplain _ _
                  (aligned_new con) E) as Ha.
    unfold exec_arguments, get_query in E0. cbn in E0.
    pose proof Ha as [_ [_ [_ Hq]]]. rewrite Hq in E0.
    returns E0. returns E1. finish.
    split; [|exact I]. eapply Select_build_aligned; eassumption.
  - (* Insert *)
    returns Hexec.
    assert (Hnew : insert_clean (Insert.new con)) by (repeat split).
    pose proof (run_insert_keeps _ Hplain Hnew E) as Hi.
    unfold exec_arguments, get_query in E0. cbn in E0.
    pose proof Hi as [_ [_ [_ Hq]]]. rewrite Hq in E0.
    returns E0. finish.
    split.
    + eapply Insert_build_count; eassumption.
    + apply Insert_build_text in E1.
      destruct E1 as [table [cols [_ [_ [-> ->]]]]].
      unfold row_values. rewrite E.
      exists table, cols. eexists. split; reflexivity.
  - (* Update *)
    apply andb_prop in Hplain. destruct Hplain as [Hplain Hset].
    returns Hexec.
    pose proof (run_update_keeps _ Hplain Hset (update_aligned_new con) E)
      as Hu.
    unfold exec_arguments, get_query in E0. cbn in E0.
    pose proof Hu as [_ [_ [_ [_ [Hq _]]]]]. rewrite Hq in E0.
    returns E0. finish.
    apply (Update_build_text Hu) in E1.
    destruct E1 as [table [w [sv [wv [Hv [Hsv [-> [Hv' Hcount]]]]]]]].
    split; [exact Hcount|].
    exists table, (Update.columns (Update.state a)), sv, wv, w.
    unfold row_values. rewrite E, Hv, <- Hsv, firstn_app, Nat.sub_diag.
    rewrite firstn_all. cbn [firstn]. rewrite app_nil_r.
    repeat split; auto.
  - (* Delete *)
    returns Hexec.
    assert (Hnew : delete_aligned (Delete.new con)) by (repeat split).
    pose proof (run_delete_keeps _ Hplain Hnew E) as Hd.
    unfold exec_arguments, get_query in E0. cbn in E0.
    pose proof Hd as [_ [_ [_ Hq]]]. rewrite Hq in E0.
    returns E0. returns E1. finish.
    split; [|exact I]. now apply Delete_build_count.
Qed.

Lemma C1_placeholders_match_sink_witness :
  Str.placeholders
    "UPDATE users SET name = ?, bio = NULL WHERE id = ?;"
  = length [VStr "John"; VNum 1]
  /\ exists table columns of_row of_condition where_,
      row_values mysql (OnUpdate set_before_where) = [of_row]
      /\ length columns = length of_row
      /\ "UPDATE users SET name = ?, bio = NULL WHERE id = ?;"
         = "UPDATE " ++ table ++ " SET "
           ++ Str.join ", " (assignments columns of_row)
           ++ " WHERE " ++ where_ ++ ";"
      /\ [VStr "John"; VNum 1]
         = (filter Insert.not_null of_row ++ of_condition)%list.
Proof.
  exact (@C1_placeholders_match_sink mysql (OnUpdate set_before_where)
           _ _ eq_refl eq_refl).
Defined.

(** ** The checks of [Condition.build] as patterns of the text *)

Lemma test_spec (f : string -> bool) (s : string) :
  Str.test f s = true <-> exists before rest, s = before ++ rest /\ f rest = true.
Proof.
  induction s as [|a s IH]; cbn [Str.test].
  - split.
    + intros H. rewrite orb_false_r in H. exists "", "". auto.
    + intros [before [rest [Hs Hf]]].
      destruct before; [|discriminate]. cbn in Hs. subst.
      now rewrite Hf.
  - rewrite orb_true_iff, IH. split.
    + intros [Hf | [before [rest [-> Hf]]]].
      * exists "", (String a s). auto.
      * exists (String a before), rest. auto.
    + intros [before [rest [Hs Hf]]]. destruct before as [|b before].
      * cbn in Hs. subst. now left.
      * cbn in Hs. inversion Hs; subst. right. eauto.
Qed.

Lemma test_or (f g : string -> bool) (s : string) :
  Str.test (fun x => f x || g x) s = Str.test f s || Str.test g s.
Proof.
  induction s as [|a s IH]; cbn [Str.test].
  - now rewrite !orb_false_r.
  - rewrite IH. destruct (f (String a s)), (g (String a s)),
      (Str.test f s), (Str.test g s); reflexivity.
Qed.

Lemma after_spec (p s r : string) :
  Str.after p s = Some r <-> s = p ++ r.
Proof.
  revert s; induction p as [|a p IH]; intros s; cbn.
  - split; [now inversion 1 | now intros ->].
  - destruct s as [|b s].
    + split; discriminate.
    + destruct (Ascii.eqb_spec a b) as [->|Hab].
      * rewrite IH. split; [now intros -> | now inversion 1].
      * split; [discriminate | intros H; inversion H; congruence].
Qed.

Lemma prefix_spec (p s : string) :
  String.prefix p s = true <-> exists rest, s = p ++ rest.
Proof.
  revert s; induction p as [|a p IH]; intros s.
  - split; [intros _; now exists s | now destruct s].
  - destruct s as [|b s]; cbn.
    + split; [discriminate | intros [rest H]; discriminate].
    + destruct (ascii_dec a b) as [->|Hab].
      * rewrite IH. split; intros [rest H]; exists rest.
        -- now subst.
        -- now inversion H.
      * split; [discriminate | intros [rest H]; inversion H; congruence].
Qed.

Lemma trimStart_spec (s : string) :
  exists ws, all_space ws = true /\ s = ws ++ Str.trimStart s.
Proof.
  induction s as [|a s [ws [Hws Hs]]]; cbn [Str.trimStart].
  - now exists "".
  - destruct (Str.is_space a) eqn:Ha.
    + exists (String a ws). cbn. rewrite Ha, Hws. now rewrite <- Hs.
    + now exists "".
Qed.

Lemma trimStart_spaces (ws : string) (a : ascii) (rest : string) :
  all_space ws = true -> Str.is_space a = false ->
  Str.trimStart (ws ++ String a rest) = String a rest.
Proof.
  intros Hws Ha. induction ws as [|b ws IH]; cbn in *.
  - now rewrite Ha.
  - apply andb_prop in Hws. destruct Hws as [Hb Hws]. rewrite Hb. auto.
Qed.

Lemma seq_ws_spec (kw : string) (a : ascii) (k : string) (s : string) :
  Str.is_space a = false ->
  Str.seq_ws kw (String a k) s = true
  <-> exists ws rest,
        all_space ws = true /\ s = kw ++ ws ++ String a k ++ rest.
Proof.
  intros Ha. unfold Str.seq_ws. split.
  - destruct (Str.after kw s) as [r|] eqn:Hr; [|discriminate].
    apply after_spec in Hr. intros Hp. apply prefix_spec in Hp.
    destruct Hp as [rest Hp]. destruct (trimStart_spec r) as [ws [Hws Hr']].
    exists ws, rest. split; [assumption|]. now rewrite <- Hp, <- Hr'.
  - intros [ws [rest [Hws ->]]].
    assert (Hafter : Str.after kw (kw ++ ws ++ String a k ++ rest)
                     = Some (ws ++ String a k ++ rest))
      by now apply after_spec.
    rewrite Hafter. cbn [append]. rewrite trimStart_spaces by assumption.
    apply prefix_spec. now exists rest.
Qed.

Lemma test_pair (kw : string) (a : ascii) (k : string) (s : string) :
  Str.is_space a = false ->
  Str.test (Str.seq_ws kw (String a k)) s = true <-> Pair kw (String a k) s.
Proof.
  intros Ha. rewrite test_spec. unfold Pair. split.
  - intros [before [rest [-> H]]]. apply (@seq_ws_spec kw a k rest Ha) in H.
    destruct H as [ws [rest' [Hws ->]]]. eauto.
  - intros [before [ws [rest [Hws ->]]]].
    exists before. eexists. split; [reflexivity|].
    apply (@seq_ws_spec kw a k _ Ha). eauto.
Qed.

Lemma endsWith_spec (s p : string) :
  Str.endsWith s p = true <-> exists before, s = before ++ p.
Proof.
  induction s as [|a s IH]; cbn [Str.endsWith].
  - rewrite orb_false_r. split.
    + intros H. apply String.eqb_eq in H. subst. now exists "".
    + intros [before H]. destruct before; [|discriminate].
      cbn in H. subst. reflexivity.
  - rewrite orb_true_iff, IH. split.
    + intros [H | [before ->]].
      * apply String.eqb_eq in H. exists "". now rewrite H.
      * now exists (String a before).
    + intros [before H]. destruct before as [|b before].
      * left. cbn in H. rewrite H. apply String.eqb_refl.
      * right. cbn in H. inversion H. eauto.
Qed.

Lemma After_open_test (s : string) :
  Str.test (fun x => Str.seq_ws "(" "AND" x || Str.seq_ws "(" "OR" x) s = true
  <-> After_open s.
Proof.
  rewrite test_or, orb_true_iff. unfold After_open.
  now rewrite !test_pair by reflexivity.
Qed.

Lemma Before_close_test (s : string) :
  Str.test (fun x => Str.seq_ws "AND" ")" x || Str.seq_ws "OR" ")" x) s = true
  <-> Before_close s.
Proof.
  rewrite test_or, orb_true_iff. unfold Before_close.
  now rewrite !test_pair by reflexivity.
Qed.

Lemma Repeated_test (s : string) :
  Str.test (fun x => Str.seq_ws "AND" "AND" x || Str.seq_ws "OR" "OR" x) s
  = true
  <-> Repeated s.
Proof.
  rewrite test_or, orb_true_iff. unfold Repeated.
  now rewrite !test_pair by reflexivity.
Qed.

Lemma Empty_parens_test (s : string) :
  Str.test (Str.seq_ws "(" ")") s = true <-> Empty_parens s.
Proof. unfold Empty_parens. now rewrite test_pair by reflexivity. Qed.

Lemma Trailing_test (s : string) :
  Str.endsWith s "AND" || Str.endsWith s "OR" = true <-> Trailing s.
Proof.
  rewrite orb_true_iff, !endsWith_spec. unfold Trailing. split.
  - intros [[b H] | [b H]]; exists b; auto.
  - intros [b [H | H]]; eauto.
Qed.

Lemma Leading_test (s : string) :
  Str.startsWith s "AND" || Str.startsWith s "OR" = true <-> Leading s.
Proof.
  unfold Str.startsWith. rewrite orb_true_iff, !prefix_spec.
  unfold Leading. split.
  - intros [[r H] | [r H]]; exists r; auto.
  - intros [r [H | H]]; eauto.
Qed.

(** Settles the statement about [build] once the outcome of the checks
    is known. *)
Ltac decide_checks :=
  (split; [intros r; split; [intros Hr; inversion Hr; subst | ] | ]);
  intuition (try congruence; try discriminate).

(** X1: what [Condition.build] does: it returns the joined and trimmed text
    exactly when the depth is zero and the text shows none of the
    patterns; otherwise it throws the error of the first check that fails,
    in the order depth, operator after [(], operator before [)], repeated
    operator, empty parentheses, trailing operator, leading operator, empty
    text.  The repeated operator is [AND] after [AND] or [OR] after [OR]. *)
Theorem Condition_build_checks (c : Condition.t) :
  let s := Condition.text c in
  (forall r,
      Condition.build c = Ok r
      <-> Condition.opened c = 0%Z /\ r = s
          /\ ~ After_open s /\ ~ Before_close s /\ ~ Repeated s
          /\ ~ Empty_parens s /\ ~ Trailing s /\ ~ Leading s /\ s <> "")
  /\ (Condition.opened c <> 0%Z ->
      Condition.build c = Throw "Syntax error: Unmatched parentheses.")
  /\ (Condition.opened c = 0%Z -> After_open s ->
      Condition.build c
      = Throw "Invalid syntax: AND/OR cannot directly follow an opening parenthesis.")
  /\ (Condition.opened c = 0%Z -> ~ After_open s -> Before_close s ->
      Condition.build c
      = Throw "Invalid syntax: AND/OR cannot directly precede a closing parenthesis.")
  /\ (Condition.opened c = 0%Z -> ~ After_open s -> ~ Before_close s ->
      Repeated s ->
      Condition.build c
      = Throw "Invalid syntax: Consecutive AND/OR operators found.")
  /\ (Condition.opened c = 0%Z -> ~ After_open s -> ~ Before_close s ->
      ~ Repeated s -> Empty_parens s ->
      Condition.build c = Throw "Invalid syntax: Empty parentheses found.")
  /\ (Condition.opened c = 0%Z -> ~ After_open s -> ~ Before_close s ->
      ~ Repeated s -> ~ Empty_parens s -> Trailing s ->
      Condition.build c
      = Throw "Invalid syntax: Condition cannot end with an operator.")
  /\ (Condition.opened c = 0%Z -> ~ After_open s -> ~ Before_close s ->
      ~ Repeated s -> ~ Empty_parens s -> ~ Trailing s -> Leading s ->
      Condition.build c
      = Throw "Invalid syntax: Condition cannot start with an operator.")
  /\ (Condition.opened c = 0%Z -> ~ After_open s -> ~ Before_close s ->
      ~ Repeated s -> ~ Empty_parens s -> ~ Trailing s -> ~ Leading s ->
      s = "" ->
      Condition.build c = Throw "Invalid syntax: Condition cannot be empty.").
Proof.
  intros s. unfold Condition.build. fold s.
  pose proof (After_open_test s) as H1.
  pose proof (Before_close_test s) as H2.
  pose proof (Repeated_test s) as H3.
  pose proof (Empty_parens_test s) as H4.
  pose proof (Trailing_test s) as H5.
  pose proof (Leading_test s) as H6.
  assert (H7 : Is.isEmptyStr s = true <-> s = "")
    by (unfold Is.isEmptyStr; apply String.eqb_eq).
  assert (H0 : (Condition.opened c =? 0)%Z = true <-> Condition.opened c = 0%Z)
    by apply Z.eqb_eq.
  destruct (Condition.opened c =? 0)%Z; cbn [guard bind negb];
    [|decide_checks].
  destruct (Str.test (fun x => Str.seq_ws "(" "AND" x
                               || Str.seq_ws "(" "OR" x) s);
    cbn [guard bind negb]; [decide_checks|].
  destruct (Str.test (fun x => Str.seq_ws "AND" ")" x
                               || Str.seq_ws "OR" ")" x) s);
    cbn [guard bind negb]; [decide_checks|].
  destruct (Str.test (fun x => Str.seq_ws "AND" "AND" x
                               || Str.seq_ws "OR" "OR" x) s);
    cbn [guard bind negb]; [decide_checks|].
  destruct (Str.test (Str.seq_ws "(" ")") s);
    cbn [guard bind negb]; [decide_checks|].
  destruct (Str.endsWith s "AND" || Str.endsWith s "OR");
    cbn [guard bind negb]; [decide_checks|].
  destruct (Str.startsWith s "AND" || Str.startsWith s "OR");
    cbn [guard bind negb]; [decide_checks|].
  destruct (Is.isEmptyStr s); cbn [guard bind negb]; decide_checks.
Qed.

(** ** Validation of a condition (C2) *)

(** C2 fails on the code: the check for consecutive operators looks for
    [AND] after [AND] and for [OR] after [OR] only, so a text in which
    [AND] is directly followed by [OR] builds. *)
Theorem C2_and_or_builds :
  ('(c, _) <- run_condition mysql a_and_or_b (Condition.new, []) ;;
   Condition.build c)
  = Ok "a IS NULL AND  OR b IS NULL"
  /\ Consecutive "a IS NULL AND  OR b IS NULL".
Proof.
  split; [reflexivity|]. right; left.
  exists "a IS NULL ", "  ", " b IS NULL". split; reflexivity.
Qed.

(** ** What [build] and [row] do keep (C3, C4) *)

Lemma filter_not_null_twice (l : list jsval) :
  filter Insert.not_null (filter Insert.not_null l)
  = filter Insert.not_null l.
Proof.
  induction l as [|v l IH]; [reflexivity|]. cbn [filter].
  destruct (Insert.not_null v) eqn:Hv; [|assumption].
  cbn [filter]. now rewrite Hv, IH.
Qed.

Lemma map_filter_not_null_id (rows : list (list jsval)) :
  Forall (Forall (fun v => Insert.not_null v = true)) rows ->
  map (filter Insert.not_null) rows = rows.
Proof.
  induction 1 as [|r rows Hr Hrows IH]; [reflexivity|].
  cbn [map]. now rewrite IH, (filter_not_null_id Hr).
Qed.

(** The sink of an [Insert] is the same after the second [build] as
    after the first; it is the text that changes when a row held a null
    value. *)
Lemma Insert_second_build_sink (i i1 i2 : Insert.t) (t1 t2 : string) :
  Insert.build i = Ok (t1, i1) ->
  Insert.build i1 = Ok (t2, i2) ->
  Insert.values i2 = Insert.values i1.
Proof.
  intros H1 H2. apply Insert_build_text in H1, H2.
  destruct H1 as [_ [_ [_ [_ [_ E1]]]]].
  destruct H2 as [_ [_ [_ [_ [_ E2]]]]].
  rewrite E2, E1, map_map. apply map_ext. intros r.
  apply filter_not_null_twice.
Qed.

(** Without a null value in any row, [build] of an [Insert] changes
    nothing, and the second [build] returns what the first returned. *)
Lemma Insert_build_without_null (i i' : Insert.t) (text : string) :
  Forall (Forall (fun v => Insert.not_null v = true)) (Insert.values i) ->
  Insert.build i = Ok (text, i') ->
  Insert.build i' = Ok (text, i').
Proof.
  intros Hnn H. assert (Hi : i' = i).
  { unfold Insert.build in H.
    destruct (Insert.table i) as [table|] eqn:Et; [|discriminate].
    returns H.
    destruct (Insert.columns i) as [cols|] eqn:Ec; [|discriminate].
    returns H. inversion H; subst; clear H.
    destruct i as [tb cs rs vs cn q]. cbn in *. subst. f_equal.
    now apply map_filter_not_null_id. }
  subst i'. exact H.
Qed.

(** What [row] does when it returns: the first row fixes the column
    list to its keys, which are not empty; a later row has as many keys as
    the column list, and every column is one of its keys; the values of
    the row are appended as one row-vector, in the order of the keys of
    the row. *)
Lemma Insert_row_returns (r : Row) (i i' : Insert.t) :
  Insert.row r i = Ok i' ->
  match Insert.columns i with
  | None => keys r <> [] /\ Insert.columns i' = Some (keys r)
  | Some established =>
      length established = length (keys r)
      /\ (forall column, In column established -> In column (keys r))
      /\ Insert.columns i' = Some established
  end
  /\ Insert.values i' = (Insert.values i ++ [vals r])%list.
Proof.
  unfold Insert.row. intros H. returns H. inversion H; subst; clear H.
  cbn [Insert.columns Insert.values]. split; [|reflexivity].
  destruct (Insert.columns i) as [established|].
  - returns E. inversion E; subst; clear E.
    apply Nat.eqb_eq in E1. repeat split; try assumption.
    intros column Hin. rewrite forallb_forall in E2.
    specialize (E2 _ Hin). unfold Insert.includes in E2.
    apply existsb_exists in E2. destruct E2 as [k [Hk Heq]].
    apply String.eqb_eq in Heq. now subst.
  - returns E. inversion E; subst; clear E. split; [|reflexivity].
    destruct (keys r); [discriminate | discriminate].
Qed.

(** [row] throws on an empty first row and on a later row with another
    number of keys or without one of the columns. *)
Lemma Insert_row_throws (r : Row) (i : Insert.t) :
  match Insert.columns i with
  | None => keys r = []
  | Some established =>
      length established <> length (keys r)
      \/ exists column, In column established /\ ~ In column (keys r)
  end ->
  exists message, Insert.row r i = Throw message.
Proof.
  unfold Insert.row. destruct (Insert.columns i) as [established|].
  - intros [Hlen | [column [Hin Hout]]].
    + apply Nat.eqb_neq in Hlen. rewrite Hlen. cbn. eauto.
    + destruct (length established =? length (keys r))%nat; cbn; eauto.
      destruct (forallb (Insert.includes (keys r)) established) eqn:Hall;
        cbn; eauto.
      rewrite forallb_forall in Hall. specialize (Hall _ Hin).
      unfold Insert.includes in Hall. apply existsb_exists in Hall.
      destruct Hall as [k [Hk Heq]]. apply String.eqb_eq in Heq.
      subst. contradiction.
  - intros ->. cbn. eauto.
Qed.

(** [build] of [Select] and of [Delete] reads the builder only: built
    twice in a row they return the same text and leave the builder as it
    was. *)
Lemma Select_build_twice (s : Select.t) (text : string) :
  Select.build false s = Ok text ->
  build_twice s = Ok (text, text, s).
Proof.
  intros H. unfold build_twice. cbn [build_ Select.Query_Select].
  rewrite H. cbn [bind]. now rewrite H.
Qed.

Lemma Delete_build_twice (d : Delete.t) (text : string) :
  Delete.build d = Ok text ->
  build_twice d = Ok (text, text, d).
Proof.
  intros H. unfold build_twice. cbn [build_ Delete.Query_Delete].
  rewrite H. cbn [bind]. now rewrite H.
Qed.

(** The sink of an [Update] is the same after the second [build] as
    after the first. *)
Lemma Update_second_build_sink (u u1 u2 : Update.t) (t1 t2 : string) :
  Update.build u = Ok (t1, u1) ->
  Update.build u1 = Ok (t2, u2) ->
  Update.values u2 = Update.values u1.
Proof.
  unfold Update.build. intros H1 H2.
  destruct (Update.table (Update.state u)); [|discriminate]. returns H1.
  destruct (Update.condition (Update.state u)); [|discriminate]. returns H1.
  inversion H1; subst; clear H1. cbn [Update.state Update.values] in H2.
  destruct (Update.table (Update.state u)); [|discriminate]. returns H2.
  destruct (Update.condition (Update.state u)); [|discriminate]. returns H2.
  inversion H2; subst; clear H2. cbn [Update.values].
  apply filter_not_null_twice.
Qed.

(** ** Building twice (C3) *)

(** C3 fails on the code: [build] of [Insert] and of [Update] removes
    the null values from the sink, and the second [build] renders from the
    filtered sink.  For the insertion of a row with one null value the
    second text has lost the [NULL]; for the update the column that was
    set to [NULL] is rendered as a placeholder, three placeholders for a
    sink of two values. *)
Theorem C3_second_build_differs :
  (i <- run_insert product_with_null (Insert.new mysql) ;;
   '(first, second, i') <- build_twice i ;;
   Ok (first, second, Insert.values i'))
  = Ok ("INSERT INTO products (name, category) VALUES (?, NULL);",
        "INSERT INTO products (name, category) VALUES (?);",
        [[VStr "Nice product"]])
  /\ (u <- run_update ban_user (Update.new mysql) ;;
      '(first, second, u') <- build_twice u ;;
      Ok (first, second, Update.values u'))
     = Ok ("UPDATE users SET name = NULL, status = ? WHERE id = ?;",
           "UPDATE users SET name = ?, status = ? WHERE id = ?;",
           [VStr "banned"; VNum 1]).
Proof. split; reflexivity. Qed.

(** ** Rows of an insertion (C4) *)

(** C4 fails on the code in its last part: a second row whose keys are
    those of the column list in another order is accepted, and its values
    are pushed in the order of its own keys, not in the order of the
    established column list. *)
Theorem C4_row_vector_not_reordered :
  exists i,
    run_insert two_users_keys_swapped (Insert.new mysql) = Ok i
    /\ Insert.columns i = Some ["id"; "name"]
    /\ Insert.values i = [[VNum 1; VStr "John"]; [VStr "Jane"; VNum 2]]
    /\ ordered_by ["id"; "name"] [("name", VStr "Jane"); ("id", VNum 2)]
       = [VNum 2; VStr "Jane"]
    /\ exec_arguments i
       = Ok ("INSERT INTO users (id, name) VALUES (?, ?), (?, ?);",
             [VNum 1; VStr "John"; VStr "Jane"; VNum 2], i).
Proof. eexists. repeat split; reflexivity. Qed.

(** ** Reset (C5) *)

(** C5 fails on the code: [reset] of [Insert] keeps the returning
    columns and [reset] of [Select] keeps the offset, so the same chain
    builds another text after [reset] than on a new builder. *)
Theorem C5_reset_keeps_state :
  (i <- run_insert [IInto "users"; IRow [("id", VNum 1)]; IReturning ["id"];
                    IReset; IInto "users"; IRow [("id", VNum 1)]]
          (Insert.new postgres) ;;
   '(text, _) <- Insert.build i ;; Ok text)
  = Ok "INSERT INTO users (id) VALUES (?) RETURNING id;"
  /\ (i <- run_insert [IInto "users"; IRow [("id", VNum 1)]]
             (Insert.new postgres) ;;
      '(text, _) <- Insert.build i ;; Ok text)
     = Ok "INSERT INTO users (id) VALUES (?);"
  /\ (s <- run_select
             (SThen (SFrom "users") (SThen (SOffset (VNum 5))
                (SThen SReset (SThen (SFrom "users") SDone))))
             (Select.new mysql) ;;
      Select.build false s)
     = Ok "SELECT * FROM users OFFSET 5;"
  /\ (s <- run_select (SThen (SFrom "users") SDone) (Select.new mysql) ;;
      Select.build false s)
     = Ok "SELECT * FROM users;".
Proof. repeat split; reflexivity. Qed.

(** [reset] of [Update] and of [Delete] does return the builder to its
    state after construction. *)
Lemma Update_reset_new (u : Update.t) :
  Update.reset u = Update.new (Update.connection u).
Proof. reflexivity. Qed.

Lemma Delete_reset_new (d : Delete.t) :
  Delete.reset d = Delete.new (Delete.connection d).
Proof. reflexivity. Qed.

(** ** What a call on a condition touches and what it leaves *)

(** Unfolds the method of a call that has returned and splits it into
    its steps. *)
Ltac open_call H :=
  cbn [call_condition] in H;
  match type of H with
  | ?m (_, _) = _ => unfold m in H
  | ?m _ (_, _) = _ => unfold m in H
  | ?m _ _ (_, _) = _ => unfold m in H
  | ?m _ _ _ (_, _) = _ => unfold m in H
  end;
  try match type of H with
      | (if ?b then _ else _) = _ =>
          let Hd := fresh "Hdepth" in
          destruct b eqn:Hd;
          [unfold Condition.open in H | unfold Condition.close in H]
      end;
  returns H; inversion H; subst; clear H.

Lemma call_condition_stack (con : MegaPoolConnection) (call : ConditionCall)
  (c c' : Condition.t) (values values' : list jsval) :
  call_condition con call (c, values) = Ok (c', values') ->
  exists pushed,
    Condition.stack c' = (Condition.stack c ++ pushed)%list
    /\ length pushed = pushes call.
Proof.
  intros H. destruct call; open_call H; cbn [Condition.stack pushes
    Condition.set_negate Condition.set_opened Condition.set_column
    Condition.push].
  all: first [ exists []; split; [now rewrite app_nil_r | reflexivity]
             | eexists [_]; split; reflexivity ].
Qed.

Lemma call_condition_column (con : MegaPoolConnection) (call : ConditionCall)
  (c c' : Condition.t) (values values' : list jsval) :
  call_condition con call (c, values) = Ok (c', values') ->
  Condition.column c' = column_after call (Condition.column c).
Proof. intros H. destruct call; open_call H; reflexivity. Qed.

Lemma call_condition_opened (con : MegaPoolConnection) (call : ConditionCall)
  (c c' : Condition.t) (values values' : list jsval) :
  call_condition con call (c, values) = Ok (c', values') ->
  Condition.opened c' = depth_after call (Condition.opened c).
Proof.
  intros H. destruct call; open_call H; cbn [depth_after Condition.opened
    Condition.set_negate Condition.set_opened Condition.set_column
    Condition.push]; rewrite ?Hdepth; reflexivity.
Qed.

(** X2: a call on a condition that returns only appends: the tokens
    before the call stay, followed by the one token the call pushes
    (none for [not] and [col]); the sink before the call stays, followed
    by the values the call binds; the selected column changes under [col]
    only, and the depth under [open], [close] and [paren] only. *)
Theorem condition_call_frame (con : MegaPoolConnection) (call : ConditionCall)
  (c c' : Condition.t) (values values' : list jsval)
  (Hret : call_condition con call (c, values) = Ok (c', values')) :
  (exists pushed,
      Condition.stack c' = (Condition.stack c ++ pushed)%list
      /\ length pushed = pushes call)
  /\ (exists added, values' = (values ++ added)%list)
  /\ Condition.column c' = column_after call (Condition.column c)
  /\ Condition.opened c' = depth_after call (Condition.opened c).
Proof.
  split; [exact (@call_condition_stack _ _ _ _ _ _ Hret)|].
  split; [exact (@call_condition_appends _ _ _ _ _ _ Hret)|].
  split; [exact (@call_condition_column _ _ _ _ _ _ Hret)|].
  exact (@call_condition_opened _ _ _ _ _ _ Hret).
Qed.

Lemma condition_call_frame_witness :
  (exists pushed,
      Condition.stack
        (Condition.mk ["NOT age BETWEEN min_age AND ?"] false 0%Z (Some "age"))
      = (Condition.stack on_age ++ pushed)%list
      /\ length pushed
         = pushes (CBetween (ORef (mkRef "min_age")) (OVal (VNum 30))))
  /\ (exists added, [VStr "x"; VNum 30] = ([VStr "x"] ++ added)%list)
  /\ Condition.column
       (Condition.mk ["NOT age BETWEEN min_age AND ?"] false 0%Z (Some "age"))
     = column_after (CBetween (ORef (mkRef "min_age")) (OVal (VNum 30)))
         (Condition.column on_age)
  /\ Condition.opened
       (Condition.mk ["NOT age BETWEEN min_age AND ?"] false 0%Z (Some "age"))
     = depth_after (CBetween (ORef (mkRef "min_age")) (OVal (VNum 30)))
         (Condition.opened on_age).
Proof.
  exact (@condition_call_frame mysql
           (CBetween (ORef (mkRef "min_age")) (OVal (VNum 30)))
           on_age _ [VStr "x"] [VStr "x"; VNum 30] eq_refl).
Defined.

(** X3: every comparison but [exists] reads the selected column first:
    on a condition on which [col] has not been called it throws
    [Invalid column: undefined], whatever its operands are, before any
    operand is checked and before a subquery is run. *)
Theorem comparison_needs_column (con : MegaPoolConnection)
  (call : ConditionCall) (c : Condition.t) (values : list jsval)
  (Hcall : needs_column call = true)
  (Hnone : Condition.column c = None) :
  call_condition con call (c, values) = Throw "Invalid column: undefined".
Proof.
  destruct call; try discriminate Hcall; cbn [call_condition].
  all: match goal with
       | |- ?m (_, _) = _ => unfold m
       | |- ?m _ (_, _) = _ => unfold m
       | |- ?m _ _ (_, _) = _ => unfold m
       | |- ?m _ _ _ (_, _) = _ => unfold m
       end.
  all: unfold Condition.checked_column; rewrite Hnone; reflexivity.
Qed.

Lemma comparison_needs_column_witness :
  call_condition mysql (CIn []) (Condition.new, [VNum 1])
  = Throw "Invalid column: undefined".
Proof.
  exact (@comparison_needs_column mysql (CIn []) Condition.new [VNum 1]
           eq_refl eq_refl).
Defined.

(** X4: the comparisons of a part of a date that take a number accept,
    on a selected column, a value that is not a reference exactly when it
    is an integral number within the bounds of the part: 1 and above for
    the year, 1 to 12 for the month, 1 to 31 for the day, 0 to 23 for the
    hour, 0 to 59 for the minute and for the second.  A reference is
    accepted without any check. *)
Theorem date_part_range (con : MegaPoolConnection) (call : ConditionCall)
  (o : operand) (lo : Z) (hi : option Z) (c : Condition.t)
  (values : list jsval) (name : string)
  (Hpart : part_range call = Some (o, lo, hi))
  (Hcolumn : Condition.checked_column c = Ok name) :
  (exists st, call_condition con call (c, values) = Ok st)
  <-> match o with
      | ORef _ => True
      | OVal v => within lo hi v
      end.
Proof.
  destruct call; try discriminate Hpart; cbn in Hpart;
    inversion Hpart; subst; clear Hpart; cbn [call_condition].
  all: match goal with
       | |- context [?m _ _ (_, _)] => unfold m
       end.
  all: rewrite Hcolumn; cbn [bind].
  all: repeat match goal with
         | |- context [exYear ?x ?k] =>
             change (exYear x k) with (extract PYear x k)
         | |- context [exMonth ?x ?k] =>
             change (exMonth x k) with (extract PMonth x k)
         | |- context [exDay ?x ?k] =>
             change (exDay x k) with (extract PDay x k)
         | |- context [exHour ?x ?k] =>
             change (exHour x k) with (extract PHour x k)
         | |- context [exMinute ?x ?k] =>
             change (exMinute x k) with (extract PMinute x k)
         | |- context [exSecond ?x ?k] =>
             change (exSecond x k) with (extract PSecond x k)
         end.
  all: rewrite extract_fragment; cbn [bind].
  all: destruct o as [r|v]; cbn [ref_or].
  all: try (split; [intros _; exact I | intros _; cbn; eauto]).
  all: unfold within, int_positive, int_between, Is.isInt, number.
  all: destruct v as [| |s|z|r|d|d]; cbn [andb guard bind].
  all: try (split; [intros [st H]; discriminate H
                   | intros [z [H _]]; discriminate H]).
  all: split.
  all: try (intros [st H]; exists z; split; [reflexivity|];
            repeat match type of H with
              | context [(?a <? ?b)%Z] => destruct (Z.ltb_spec a b)
              | context [(?a <=? ?b)%Z] => destruct (Z.leb_spec a b)
              end; cbn in H; try discriminate H; split; try lia; exact I).
  all: intros [z' [Hz [Hlo Hhi]]]; inversion Hz; subst z';
    repeat match goal with
      | |- context [(?a <? ?b)%Z] => destruct (Z.ltb_spec a b)
      | |- context [(?a <=? ?b)%Z] => destruct (Z.leb_spec a b)
      end; cbn; try lia; eauto.
Qed.

Lemma date_part_range_witness :
  (exists st,
      call_condition mysql (CInMonth (OVal (VNum 12))) (on_age, []) = Ok st)
  <-> within 1 (Some 12%Z) (VNum 12).
Proof.
  exact (@date_part_range mysql (CInMonth (OVal (VNum 12)))
           (OVal (VNum 12)) 1%Z (Some 12%Z) on_age [] "age" eq_refl eq_refl).
Defined.

(** X5: [paren] never nests.  In a chain on a condition that groups with
    [paren] only, without [open] and [close], the depth is 0 or 1 after
    every call when it was 0 or 1 before: a [paren] inside an open group
    closes the group. *)
Theorem paren_never_nests (con : MegaPoolConnection) (chain : ConditionChain)
  (c c' : Condition.t) (values values' : list jsval)
  (Hchain : no_open_close chain = true)
  (Hdepth : Condition.opened c = 0%Z \/ Condition.opened c = 1%Z)
  (Hret : run_condition con chain (c, values) = Ok (c', values')) :
  Condition.opened c' = 0%Z \/ Condition.opened c' = 1%Z.
Proof.
  revert c values Hdepth Hret.
  induction chain as [|call rest IH]; intros c values Hdepth Hret;
    cbn [run_condition] in Hret.
  - inversion Hret; subst. exact Hdepth.
  - returns Hret. apply call_condition_opened in E.
    assert (Hrest : no_open_close rest = true)
      by (destruct call; try discriminate Hchain; exact Hchain).
    apply (IH Hrest t l); [|exact Hret]. rewrite E.
    destruct call; try discriminate Hchain; cbn [depth_after];
      try exact Hdepth.
    destruct Hdepth as [-> | ->]; cbn; auto.
Qed.

Lemma paren_never_nests_witness :
  Condition.opened
    (Condition.mk ["("; "a IS NULL"; ")"; "("] false 1%Z (Some "a")) = 0%Z
  \/ Condition.opened
       (Condition.mk ["("; "a IS NULL"; ")"; "("] false 1%Z (Some "a")) = 1%Z.
Proof.
  exact (@paren_never_nests mysql
           (CThen CParen (CThen (CCol "a") (CThen CIsNull
              (CThen CParen (CThen CParen CDone)))))
           Condition.new _ [] [] eq_refl (or_introl eq_refl) eq_refl).
Defined.

(** ** Tokens and bound values, call by call *)

Lemma marks_stack (c : Condition.t) :
  marks c = list_sum (map Str.placeholders (Condition.stack c)).
Proof. unfold marks. now apply placeholders_join. Qed.

Lemma follows_app (con : MegaPoolConnection) (made later : list ConditionCall)
  (tokens pushed : list string) (values added : list jsval) :
  follows con made tokens values ->
  follows con later pushed added ->
  follows con (made ++ later) (tokens ++ pushed) (values ++ added).
Proof.
  intros Hmade Hlater. induction Hmade; cbn [app].
  - exact Hlater.
  - now apply follows_silent.
  - rewrite <- app_assoc. now apply follows_token.
Qed.

Lemma follows_values (con : MegaPoolConnection) (made : list ConditionCall)
  (tokens : list string) (values : list jsval) :
  follows con made tokens values ->
  values = flat_map (bound_by con) made.
Proof.
  intros H. induction H; cbn [flat_map].
  - reflexivity.
  - now rewrite H0.
  - now rewrite IHfollows.
Qed.

Lemma negation_not (c : Condition.t) : negation (Condition.not_ c).
Proof. unfold negation, Condition.not_. destruct (Condition.negate c); auto. Qed.

(** What a call that returns has bound and pushed. *)
Lemma call_pushes (con : MegaPoolConnection) (call : ConditionCall)
  (c c' : Condition.t) (values values' : list jsval) :
  call_condition con call (c, values) = Ok (c', values') ->
  values' = (values ++ bound_by con call)%list
  /\ ((pushes call = 0 /\ Condition.stack c' = Condition.stack c
       /\ bound_by con call = [])
      \/ (pushes call = 1
          /\ exists token,
              Condition.stack c' = (Condition.stack c ++ [token])%list
              /\ pushed_by con call token)).
Proof.
  intros H. destruct (operands call) as [ops|] eqn:Hops.
  - destruct (@operands_checked con call ops c values _ Hops H)
      as [column [Hc [Hfull Hacc]]].
    rewrite (@operands_accepted con call ops c values column Hops Hc Hfull
               Hacc) in H.
    inversion H; subst; clear H.
    assert (Hb : bound_by con call = flat_map bound ops)
      by (destruct call; try discriminate Hops; cbn [bound_by];
          now rewrite Hops).
    rewrite Hb. split; [reflexivity|]. right.
    split; [destruct call; try discriminate Hops; reflexivity|].
    eexists. split; [reflexivity|].
    destruct call; try discriminate Hops; cbn [pushed_by];
      exists (Condition.not_ c), column;
      (split; [apply negation_not | reflexivity]).
  - destruct call; try discriminate Hops; cbn [bound_by operands pushes
      pushed_by].
    + (* raw *)
      cbn [call_condition] in H. unfold Condition.raw in H. returns H.
      inversion H; subst; clear H. apply raw_values_appends in E0.
      split; [exact E0|]. right. split; [reflexivity|].
      eexists. split; reflexivity.
    + (* not *)
      open_call H. rewrite app_nil_r. split; [reflexivity|]. left. auto.
    + (* open *)
      open_call H. rewrite app_nil_r. split; [reflexivity|]. right.
      split; [reflexivity|]. eexists. split; reflexivity.
    + (* close *)
      open_call H. rewrite app_nil_r. split; [reflexivity|]. right.
      split; [reflexivity|]. eexists. split; reflexivity.
    + (* paren *)
      open_call H; rewrite app_nil_r; (split; [reflexivity|]); right;
        (split; [reflexivity|]); eexists; (split; [reflexivity|]); auto.
    + (* and *)
      open_call H. rewrite app_nil_r. split; [reflexivity|]. right.
      split; [reflexivity|]. eexists. split; reflexivity.
    + (* or *)
      open_call H. rewrite app_nil_r. split; [reflexivity|]. right.
      split; [reflexivity|]. eexists. split; reflexivity.
    + (* col *)
      open_call H. rewrite app_nil_r. split; [reflexivity|]. left. auto.
    + (* isNull *)
      open_call H. rewrite app_nil_r. split; [reflexivity|]. right.
      split; [reflexivity|]. eexists. split; [reflexivity|].
      eexists; eexists. split; [apply negation_not | reflexivity].
    + (* inSubquery *)
      open_call H. rewrite E0. split; [reflexivity|]. right.
      split; [reflexivity|]. eexists. split; [reflexivity|].
      exists (Condition.not_ c), a, a0, a1.
      repeat split; try assumption. apply negation_not.
    + (* exists *)
      open_call H. rewrite E. split; [reflexivity|]. right.
      split; [reflexivity|]. eexists. split; [reflexivity|].
      exists (Condition.not_ c), a, a0.
      repeat split; try assumption. apply negation_not.
    + (* any *)
      open_call H. rewrite E1. split; [reflexivity|]. right.
      split; [reflexivity|]. eexists. split; [reflexivity|].
      exists (Condition.not_ c), a, a0, a1.
      repeat split; try assumption. apply negation_not.
    + (* all *)
      open_call H. rewrite E1. split; [reflexivity|]. right.
      split; [reflexivity|]. eexists. split; [reflexivity|].
      exists (Condition.not_ c), a, a0, a1.
      repeat split; try assumption. apply negation_not.
Qed.

Lemma call_appends_calls (con : MegaPoolConnection) (call : ConditionCall) :
  plain_call call = true ->
  appends_calls con [call] (call_condition con call).
Proof.
  intros Hplain c values c' values' Hclean H.
  pose proof (proj1 chains_aligned call Hplain con _ _ _ _ Hclean H)
    as [added [Hv [Hmarks [Hclean' Hnn]]]].
  destruct (call_pushes _ _ _ _ H) as [Hbound Hcases].
  assert (Hadded : added = bound_by con call).
  { rewrite Hv in Hbound. now apply app_inv_head in Hbound. }
  subst added. split; [exact Hclean'|].
  destruct Hcases as [[Hp [Hs Hb]] | [Hp [token [Hs Hpushed]]]].
  - exists [], (bound_by con call). rewrite app_nil_r.
    repeat split; try assumption.
    rewrite Hb. apply follows_silent; [assumption.. | apply follows_done].
  - exists [token], (bound_by con call). repeat split; try assumption.
    rewrite <- (app_nil_r (bound_by con call)).
    apply follows_token; [assumption | assumption | | apply follows_done].
    rewrite !marks_stack, Hs, map_app, list_sum_app in Hmarks.
    cbn in Hmarks. lia.
Qed.

Lemma run_appends_calls (con : MegaPoolConnection) (chain : ConditionChain) :
  plain_condition chain = true ->
  appends_calls con (calls chain) (run_condition con chain).
Proof.
  induction chain as [|call rest IH]; intros Hplain c values c' values'
    Hclean H; cbn [run_condition calls] in *.
  - inversion H; subst. split; [exact Hclean|]. exists [], [].
    rewrite !app_nil_r. repeat split; [apply follows_done | constructor].
  - cbn [plain_condition] in Hplain. apply andb_prop in Hplain.
    destruct Hplain as [Hcall Hrest]. returns H.
    destruct (@call_appends_calls con call Hcall _ _ _ _ Hclean E)
      as [Hclean1 [p1 [a1 [Hs1 [Hv1 [Hf1 Hnn1]]]]]].
    subst l.
    destruct (IH Hrest _ _ _ _ Hclean1 H)
      as [Hclean2 [p2 [a2 [Hs2 [Hv2 [Hf2 Hnn2]]]]]].
    split; [exact Hclean2|]. exists (p1 ++ p2)%list, (a1 ++ a2)%list.
    rewrite Hs2, Hs1, Hv2, <- !app_assoc. repeat split.
    + exact (follows_app Hf1 Hf2).
    + now apply Forall_app.
Qed.

(** X6: within one condition the sink follows the tokens call by call.
    After a chain of calls, all of which return, that splices clean names
    only and binds in each raw fragment as many values as the fragment
    has question marks, the tokens are the tokens of the calls that push
    one, in the order of the calls, and the sink is the values that each
    call has bound -- the operands of a comparison that are no
    references, in the order in which its fragment shows them as
    placeholders, the values handed to [raw], the sink of a subquery --
    one call after the other; every token has as many placeholders as
    its call has bound values.  So the values of a call stand in the sink
    where its token stands in the text. *)
Theorem condition_tokens_align (con : MegaPoolConnection)
  (chain : ConditionChain) (c : Condition.t) (values : list jsval)
  (Hplain : plain_condition chain = true)
  (Hret : run_condition con chain (Condition.new, []) = Ok (c, values)) :
  follows con (calls chain) (Condition.stack c) values
  /\ values = flat_map (bound_by con) (calls chain).
Proof.
  destruct (@run_appends_calls con chain Hplain Condition.new [] c values
              eq_refl Hret) as [_ [pushed [added [Hs [Hv [Hf _]]]]]].
  cbn in Hs, Hv. subst. split; [exact Hf | exact (follows_values Hf)].
Qed.

Lemma condition_tokens_align_witness :
  follows mysql
    [CCol "status"; CEqual (OVal (VStr "active")); CAnd; CCol "age";
     CBetween (OVal (VNum 18)) (ORef (mkRef "max_age")); COr; CCol "id";
     CIn [OVal (VNum 1); OVal (VNum 2)]]
    ["status = ?"; " AND "; "age BETWEEN ? AND max_age"; " OR ";
     "id IN (?, ?)"]
    [VStr "active"; VNum 18; VNum 1; VNum 2]
  /\ [VStr "active"; VNum 18; VNum 1; VNum 2]
     = ([VStr "active"] ++ [VNum 18] ++ [VNum 1; VNum 2])%list.
Proof.
  exact (@condition_tokens_align mysql
           (CThen (CCol "status") (CThen (CEqual (OVal (VStr "active")))
           (CThen CAnd (CThen (CCol "age")
           (CThen (CBetween (OVal (VNum 18)) (ORef (mkRef "max_age")))
           (CThen COr (CThen (CCol "id")
           (CThen (CIn [OVal (VNum 1); OVal (VNum 2)]) CDone))))))))
           _ _ eq_refl eq_refl).
Defined.

(** ** The sink holds accepted values only *)

Lemma bound_scalar (test : jsval -> bool) (o : operand) :
  (forall v, test v = true -> scalar v = true) ->
  ref_or test o = true ->
  Forall (fun v => scalar v = true) (bound o).
Proof. intros Ht H. destruct o as [r|v]; cbn in *; auto. Qed.

Lemma fullStr_scalar (v : jsval) : Is.isFullStr v = true -> scalar v = true.
Proof. unfold scalar. now intros ->. Qed.

Lemma int_positive_scalar (v : jsval) :
  int_positive v = true -> scalar v = true.
Proof. destruct v; cbn; auto; discriminate. Qed.

Lemma int_between_scalar (lo hi : Z) (v : jsval) :
  int_between lo hi v = true -> scalar v = true.
Proof. destruct v; cbn; auto; discriminate. Qed.

Lemma raw_values_scalar (vs values values' : list jsval) :
  Condition.raw_values vs values = Ok values' ->
  Forall (fun v => scalar v = true) vs.
Proof.
  revert values; induction vs as [|v vs IH]; intros values H; cbn in H.
  - constructor.
  - returns H. constructor; [assumption | eauto].
Qed.

Lemma in_check_scalar (vs : list operand) :
  Condition.in_check vs = Ok tt ->
  Forall (fun v => scalar v = true) (flat_map bound vs).
Proof.
  induction vs as [|v vs IH]; intros H; cbn in H |- *.
  - constructor.
  - returns H. apply Forall_app. split; [|auto].
    eapply bound_scalar; [|eassumption]. auto.
Qed.

Lemma call_binds_scalars (con : MegaPoolConnection) (call : ConditionCall) :
  match call with
  | CInSubquery sub | CExists sub | CAny _ sub | CAll _ sub =>
      keeps_scalars (run_select sub)
  | _ => True
  end ->
  binds_scalars (call_condition con call).
Proof.
  intros IH c values c' values' H. destruct call; open_call H.
  all: repeat match goal with
         | E : Condition.raw_values _ _ = Ok _ |- _ =>
             pose proof (raw_values_scalar _ _ E);
             apply raw_values_appends in E; subst
         | E : run_select _ (Select.new _) = Ok _ |- _ =>
             apply IH in E; [|constructor]
         end.
  all: rewrite ?push_unless_ref_bound, ?fold_push_unless_ref, <- ?app_assoc.
  all: eexists; split; [first [reflexivity | symmetry; apply app_nil_r]|].
  all: repeat (apply Forall_app; split).
  all: first
         [ constructor
         | assumption
         | apply in_check_scalar; assumption
         | eapply bound_scalar; [|eassumption]; intros ?;
           first [ intros Hv; exact Hv | apply fullStr_scalar
                 | apply int_positive_scalar | apply int_between_scalar ] ].
Qed.

Lemma on_where_scalars (m : Condition.method) (c : Condition.t)
  (s s' : Select.t) :
  binds_scalars m ->
  Forall (fun v => scalar v = true) (Select.values s) ->
  Select.on_where m c s = Ok s' ->
  Forall (fun v => scalar v = true) (Select.values s').
Proof.
  intros Hm Hs H. unfold Select.on_where in H. returns H.
  inversion H; subst; clear H. apply Hm in E. destruct E as [added [-> Ha]].
  cbn. now apply Forall_app.
Qed.

Lemma on_having_scalars (m : Condition.method) (c : Condition.t)
  (s s' : Select.t) :
  binds_scalars m ->
  Forall (fun v => scalar v = true) (Select.values s) ->
  Select.on_having m c s = Ok s' ->
  Forall (fun v => scalar v = true) (Select.values s').
Proof.
  intros Hm Hs H. unfold Select.on_having in H. returns H.
  inversion H; subst; clear H. apply Hm in E. destruct E as [added [-> Ha]].
  cbn. now apply Forall_app.
Qed.

Lemma join_as_scalars (type table : string) (m : Condition.method) :
  binds_scalars m -> keeps_scalars (Select.join_as type table m).
Proof.
  intros Hm s s' Hs H. unfold Select.join_as in H. returns H.
  inversion H; subst; clear H. apply Hm in E0.
  destruct E0 as [added [-> Ha]]. cbn. now apply Forall_app.
Qed.

Lemma union_as_scalars (all : bool) (subquery : Select.t -> result Select.t) :
  keeps_scalars subquery -> keeps_scalars (Select.union_as all subquery).
Proof.
  intros Hsub s s' Hs H. unfold Select.union_as in H. returns H.
  inversion H; subst; clear H. apply Hsub in E; [|constructor].
  cbn. now apply Forall_app.
Qed.

Lemma simple_binds (con : MegaPoolConnection) (call : ConditionCall) :
  In call [CAnd; COr; CParen; COpen; CClose] ->
  binds_scalars (call_condition con call).
Proof.
  intros Hin. apply call_binds_scalars.
  cbn in Hin; decompose [or] Hin; subst; try contradiction; exact I.
Qed.

Lemma chains_scalars :
  (forall call con, binds_scalars (call_condition con call))
  /\ (forall chain con, binds_scalars (run_condition con chain))
  /\ (forall call, keeps_scalars (call_select call))
  /\ (forall chain, keeps_scalars (run_select chain)).
Proof.
  apply chains_ind.
  (* the calls on a condition *)
  1-29: intros; apply call_binds_scalars; cbn; auto.
  (* the chains on a condition *)
  - intros con c values c' values' H. inversion H; subst.
    exists []. split; [now rewrite app_nil_r | constructor].
  - intros call IHcall rest IHrest con c values c' values' H.
    cbn [run_condition] in H. returns H.
    apply IHcall in E. destruct E as [a1 [-> F1]].
    apply IHrest in H. destruct H as [a2 [-> F2]].
    exists (a1 ++ a2)%list. rewrite app_assoc. split; [reflexivity|].
    now apply Forall_app.
  (* the calls on a [Select] *)
  - intros name s s' Hs H. unfold call_select, Select.from in H. returns H.
    now inversion H; subst.
  - intros names s s' Hs H. unfold call_select, Select.col in H. returns H.
    now inversion H; subst.
  - intros s s' Hs H. now inversion H; subst.
  - intros value s s' Hs H. unfold call_select, Select.offset in H.
    returns H. now inversion H; subst.
  - intros value s s' Hs H. unfold call_select, Select.limit in H.
    returns H. now inversion H; subst.
  - intros table condition IH s s' Hs H. cbn [call_select] in H.
    exact (@join_as_scalars "INNER" table _ (IH _) s s' Hs H).
  - intros table condition IH s s' Hs H. cbn [call_select] in H.
    exact (@join_as_scalars "LEFT" table _ (IH _) s s' Hs H).
  - intros table condition IH s s' Hs H. cbn [call_select] in H.
    exact (@join_as_scalars "RIGHT" table _ (IH _) s s' Hs H).
  - intros names s s' Hs H. unfold call_select, Select.groupBy in H.
    returns H. now inversion H; subst.
  - intros column type s s' Hs H. unfold call_select, Select.orderBy in H.
    returns H. now inversion H; subst.
  - intros condition IH s s' Hs H. cbn [call_select] in H.
    unfold Select.where_ in H.
    destruct (Select.where_condition (Select.state s));
      exact (@on_where_scalars _ _ _ _ (IH _) Hs H).
  - intros condition IH s s' Hs H. cbn [call_select] in H.
    unfold Select.having in H.
    destruct (Select.having_condition (Select.state s));
      exact (@on_having_scalars _ _ _ _ (IH _) Hs H).
  - intros sub IH. now apply union_as_scalars.
  - intros sub IH. now apply union_as_scalars.
  - intros s s' Hs H. cbn [call_select] in H. unfold Select.and in H.
    destruct (Select.where_condition (Select.state s)); [|discriminate].
    exact (@on_where_scalars _ _ _ _
               (@simple_binds mysql CAnd ltac:(cbn; tauto)) Hs H).
  - intros s s' Hs H. cbn [call_select] in H. unfold Select.or in H.
    destruct (Select.where_condition (Select.state s)); [|discriminate].
    exact (@on_where_scalars _ _ _ _
               (@simple_binds mysql COr ltac:(cbn; tauto)) Hs H).
  - intros s s' Hs H. cbn [call_select] in H. unfold Select.paren in H.
    destruct (Select.where_condition (Select.state s));
      exact (@on_where_scalars _ _ _ _
               (@simple_binds mysql CParen ltac:(cbn; tauto)) Hs H).
  - intros s s' Hs H. cbn [call_select] in H. unfold Select.open in H.
    destruct (Select.where_condition (Select.state s));
      exact (@on_where_scalars _ _ _ _
               (@simple_binds mysql COpen ltac:(cbn; tauto)) Hs H).
  - intros s s' Hs H. cbn [call_select] in H. unfold Select.close in H.
    destruct (Select.where_condition (Select.state s)); [|discriminate].
    exact (@on_where_scalars _ _ _ _
               (@simple_binds mysql CClose ltac:(cbn; tauto)) Hs H).
  - intros s s' Hs H. inversion H; subst. constructor.
  (* the chains on a [Select] *)
  - intros s s' Hs H. now inversion H; subst.
  - intros call IHcall rest IHrest s s' Hs H.
    cbn [run_select] in H. returns H.
    exact (IHrest _ _ (IHcall _ _ Hs E) H).
Qed.

(** ** What no chain of calls changes: the connection and the cached text *)

(** Unfolds a call on a statement that has returned. *)
Ltac open_statement_call H :=
  repeat match type of H with
    | context [Select.where_condition ?st] =>
        destruct (Select.where_condition st)
    | context [Select.having_condition ?st] =>
        destruct (Select.having_condition st)
    | context [Update.condition ?st] => destruct (Update.condition st)
    | context [Delete.condition ?d] => destruct (Delete.condition d)
    end;
  try discriminate H;
  returns H; inversion H; subst; clear H.

Lemma call_select_fixed (call : SelectCall) (s s' : Select.t) :
  call_select call s = Ok s' ->
  Select.connection s' = Select.connection s
  /\ (Select.query s = None -> Select.query s' = None).
Proof.
  intros H. destruct call; cbn [call_select] in H;
    unfold Select.from, Select.col, Select.distinct, Select.offset,
      Select.limit, Select.join, Select.leftJoin, Select.rightJoin,
      Select.join_as, Select.groupBy, Select.orderBy, Select.where_,
      Select.having, Select.union, Select.unionAll, Select.union_as,
      Select.and, Select.or, Select.paren, Select.open, Select.close,
      Select.on_where, Select.on_having in H;
    open_statement_call H; split; auto.
Qed.

Lemma run_select_fixed (chain : SelectChain) (s s' : Select.t) :
  run_select chain s = Ok s' ->
  Select.connection s' = Select.connection s
  /\ (Select.query s = None -> Select.query s' = None).
Proof.
  revert s; induction chain as [|call rest IH]; intros s H;
    cbn [run_select] in H.
  - inversion H; subst. auto.
  - returns H. apply call_select_fixed in E. apply IH in H.
    destruct E as [Ec Eq], H as [Hc Hq]. split; [congruence | auto].
Qed.

Lemma each_row_fixed (rs : Rows) (i i' : Insert.t) :
  Insert.each_row rs i = Ok i' ->
  Insert.connection i' = Insert.connection i
  /\ Insert.query i' = Insert.query i
  /\ Insert.table i' = Insert.table i.
Proof.
  revert i; induction rs as [|r rs IH]; intros i H; cbn in H.
  - inversion H; subst. auto.
  - returns H. apply IH in H. destruct H as [Hc [Hq Ht]].
    unfold Insert.row in E. returns E. inversion E; subst.
    cbn in Hc, Hq, Ht. auto.
Qed.

Lemma call_insert_fixed (call : InsertCall) (i i' : Insert.t) :
  call_insert call i = Ok i' ->
  Insert.connection i' = Insert.connection i
  /\ (Insert.query i = None -> Insert.query i' = None).
Proof.
  intros H. destruct call; cbn [call_insert] in H.
  - unfold Insert.into in H. returns H. inversion H; subst. auto.
  - unfold Insert.returning in H. returns H. inversion H; subst. auto.
  - pose proof (@each_row_fixed [row] i i') as Hr. cbn in Hr.
    destruct (Insert.row row i); [|discriminate]. cbn in Hr.
    destruct (Hr H) as [Hc [Hq _]]. split; [assumption | congruence].
  - unfold Insert.rows in H. returns H. apply each_row_fixed in H.
    destruct H as [Hc [Hq _]]. split; [assumption | congruence].
  - inversion H; subst. auto.
Qed.

Lemma run_insert_fixed (chain : list InsertCall) (i i' : Insert.t) :
  run_insert chain i = Ok i' ->
  Insert.connection i' = Insert.connection i
  /\ (Insert.query i = None -> Insert.query i' = None).
Proof.
  revert i; induction chain as [|call rest IH]; intros i H;
    cbn [run_insert] in H.
  - inversion H; subst. auto.
  - returns H. apply call_insert_fixed in E. apply IH in H.
    destruct E as [Ec Eq], H as [Hc Hq]. split; [congruence | auto].
Qed.

Lemma call_update_fixed (call : UpdateCall) (u u' : Update.t) :
  call_update call u = Ok u' ->
  Update.connection u' = Update.connection u
  /\ (Update.query u = None -> Update.query u' = None).
Proof.
  intros H. destruct call; cbn [call_update] in H;
    unfold Update.table_, Update.set, Update.where_, Update.and, Update.or,
      Update.paren, Update.open, Update.close, Update.on_condition in H;
    open_statement_call H; split; auto.
Qed.

Lemma run_update_fixed (chain : list UpdateCall) (u u' : Update.t) :
  run_update chain u = Ok u' ->
  Update.connection u' = Update.connection u
  /\ (Update.query u = None -> Update.query u' = None).
Proof.
  revert u; induction chain as [|call rest IH]; intros u H;
    cbn [run_update] in H.
  - inversion H; subst. auto.
  - returns H. apply call_update_fixed in E. apply IH in H.
    destruct E as [Ec Eq], H as [Hc Hq]. split; [congruence | auto].
Qed.

Lemma call_delete_fixed (call : DeleteCall) (d d' : Delete.t) :
  call_delete call d = Ok d' ->
  Delete.connection d' = Delete.connection d
  /\ (Delete.query d = None -> Delete.query d' = None).
Proof.
  intros H. destruct call; cbn [call_delete] in H;
    unfold Delete.from, Delete.where_, Delete.and, Delete.or,
      Delete.paren, Delete.open, Delete.close, Delete.on_condition in H;
    open_statement_call H; split; auto.
Qed.

Lemma run_delete_fixed (chain : list DeleteCall) (d d' : Delete.t) :
  run_delete chain d = Ok d' ->
  Delete.connection d' = Delete.connection d
  /\ (Delete.query d = None -> Delete.query d' = None).
Proof.
  revert d; induction chain as [|call rest IH]; intros d H;
    cbn [run_delete] in H.
  - inversion H; subst. auto.
  - returns H. apply call_delete_fixed in E. apply IH in H.
    destruct E as [Ec Eq], H as [Hc Hq]. split; [congruence | auto].
Qed.

(** ** The rows of an [Insert] stay rectangular *)

Lemma Insert_check_values_storable (vs : list jsval) :
  Insert.check_values vs = Ok tt ->
  Forall (fun v => storable v = true) vs.
Proof.
  induction vs as [|v vs IH]; intros H; cbn in H.
  - constructor.
  - returns H. constructor; [assumption | auto].
Qed.

Lemma row_rectangular (r : Row) (i i' : Insert.t) :
  rectangular i -> Insert.row r i = Ok i' -> rectangular i'.
Proof.
  unfold rectangular, Insert.row. intros Hi H. returns H.
  inversion H; subst; clear H. cbn [Insert.columns Insert.values].
  apply Insert_check_values_storable in E0.
  assert (Hlen : length (vals r) = length (keys r))
    by (unfold vals, keys; now rewrite !length_map).
  destruct (Insert.columns i) as [established|].
  - returns E. inversion E; subst; clear E. destruct Hi as [Hne Hrows].
    apply Nat.eqb_eq in E1. split; [assumption|].
    apply Forall_app. split; [assumption|].
    constructor; [|constructor]. split; [congruence | assumption].
  - returns E. inversion E; subst; clear E. rewrite Hi. cbn [app].
    split; [destruct (keys r); [discriminate E1 | discriminate]|].
    constructor; [|constructor]. split; assumption.
Qed.

Lemma each_row_rectangular (rs : Rows) (i i' : Insert.t) :
  rectangular i -> Insert.each_row rs i = Ok i' -> rectangular i'.
Proof.
  revert i; induction rs as [|r rs IH]; intros i Hi H; cbn in H.
  - now inversion H; subst.
  - returns H. exact (IH _ (@row_rectangular _ _ _ Hi E) H).
Qed.

Lemma call_insert_rectangular (call : InsertCall) (i i' : Insert.t) :
  rectangular i /\ named (Insert.table i) ->
  call_insert call i = Ok i' ->
  rectangular i' /\ named (Insert.table i').
Proof.
  intros [Hi Ht] H. destruct call; cbn [call_insert] in H.
  - unfold Insert.into in H. returns H. inversion H; subst. split; assumption.
  - unfold Insert.returning in H. returns H. inversion H; subst.
    split; assumption.
  - split; [exact (@row_rectangular _ _ _ Hi H)|].
    pose proof (@each_row_fixed [row] i i') as Hr. cbn in Hr.
    destruct (Insert.row row i); [|discriminate]. cbn in Hr.
    destruct (Hr H) as [_ [_ Hr']]. now rewrite Hr'.
  - unfold Insert.rows in H. returns H.
    split; [exact (@each_row_rectangular _ _ _ Hi H)|].
    apply each_row_fixed in H. destruct H as [_ [_ Hr']]. now rewrite Hr'.
  - inversion H; subst. split; [reflexivity | exact I].
Qed.

Lemma run_insert_rectangular (chain : list InsertCall) (i i' : Insert.t) :
  rectangular i /\ named (Insert.table i) ->
  run_insert chain i = Ok i' ->
  rectangular i' /\ named (Insert.table i').
Proof.
  revert i; induction chain as [|call rest IH]; intros i Hi H;
    cbn [run_insert] in H.
  - now inversion H; subst.
  - returns H. exact (IH _ (@call_insert_rectangular _ _ _ Hi E) H).
Qed.

(** X7: the rows of an [Insert] stay rectangular.  After every chain of
    calls on a new [Insert] that returns, each row-vector of the sink has
    exactly one entry per column of the column list, each entry being
    [null], a string or a number, and the column list is not empty; when
    no column list is set the sink has no row-vector. *)
Theorem Insert_rows_rectangular (con : MegaPoolConnection)
  (chain : list InsertCall) (i : Insert.t)
  (Hret : run_insert chain (Insert.new con) = Ok i) :
  rectangular i.
Proof.
  refine (proj1 (@run_insert_rectangular chain (Insert.new con) i _ Hret)).
  split; [reflexivity | exact I].
Qed.

Lemma Insert_rows_rectangular_witness :
  rectangular
    {| Insert.table := Some "users"; Insert.columns := Some ["id"; "name"];
       Insert.returnings := None;
       Insert.values := [[VNum 1; VStr "John"]; [VStr "Jane"; VNum 2]];
       Insert.connection := mysql; Insert.query := None |}.
Proof.
  exact (@Insert_rows_rectangular mysql two_users_keys_swapped _ eq_refl).
Defined.

(** X8: an [Insert] reached by a chain of calls on a new [Insert]
    builds exactly when a table has been set and at least one row has been
    accepted; nothing else can make [build] throw. *)
Theorem Insert_builds_with_table_and_row (con : MegaPoolConnection)
  (chain : list InsertCall) (i : Insert.t)
  (Hret : run_insert chain (Insert.new con) = Ok i) :
  (exists text i', Insert.build i = Ok (text, i'))
  <-> Insert.table i <> None /\ Insert.values i <> [].
Proof.
  destruct (@run_insert_rectangular chain (Insert.new con) i
              (conj eq_refl I) Hret) as [Hrect Hnamed].
  unfold rectangular in Hrect. unfold named in Hnamed.
  unfold Insert.build. split.
  - intros [text [i' H]].
    destruct (Insert.table i) as [table|]; [|discriminate]. returns H.
    destruct (Insert.columns i) as [cols|]; [|discriminate]. returns H.
    split; [discriminate|]. destruct (Insert.values i); discriminate.
  - intros [Ht Hv].
    destruct (Insert.table i) as [table|]; [|contradiction].
    rewrite Hnamed. cbn [guard bind].
    destruct (Insert.columns i) as [cols|]; [|contradiction].
    destruct Hrect as [Hcols _].
    destruct cols as [|col cols]; [contradiction|].
    destruct (Insert.values i) as [|r rs]; [contradiction|].
    cbn [Is.isFullArr Is.isEmptyArr negb guard bind]. eauto.
Qed.

Lemma Insert_builds_with_table_and_row_witness :
  (exists text i',
      Insert.build
        {| Insert.table := Some "products";
           Insert.columns := Some ["name"; "category"];
           Insert.returnings := None;
           Insert.values := [[VStr "Nice product"; VNull]];
           Insert.connection := mysql; Insert.query := None |}
      = Ok (text, i'))
  <-> Some "products" <> None /\ [[VStr "Nice product"; VNull]] <> [].
Proof.
  exact (@Insert_builds_with_table_and_row mysql product_with_null _ eq_refl).
Defined.

(** ** The values handed to the connection *)

Lemma scalar_storable (v : jsval) : scalar v = true -> storable v = true.
Proof. destruct v; cbn; auto. Qed.

Lemma scalar_sent (v : jsval) :
  scalar v = true -> Is.isStr v || Is.isNum v = true.
Proof. destruct v; cbn; auto. Qed.

Lemma filter_storable_sent (l : list jsval) :
  Forall (fun v => storable v = true) l ->
  Forall (fun v => Is.isStr v || Is.isNum v = true)
    (filter Insert.not_null l).
Proof.
  induction 1 as [|v l Hv Hl IH]; [constructor|].
  cbn [filter]. destruct v; cbn in *; try discriminate; try assumption;
    constructor; auto.
Qed.

Lemma Update_check_values_storable (vs : list jsval) :
  Update.check_values vs = Ok tt ->
  Forall (fun v => storable v = true) vs.
Proof.
  induction vs as [|v vs IH]; intros H; cbn in H.
  - constructor.
  - returns H. constructor; [|auto]. destruct v; cbn in *; auto.
Qed.

Lemma call_delete_scalars (call : DeleteCall) (d d' : Delete.t) :
  Forall (fun v => scalar v = true) (Delete.values d) ->
  call_delete call d = Ok d' ->
  Forall (fun v => scalar v = true) (Delete.values d').
Proof.
  intros Hd H.
  assert (Hon : forall m c,
             binds_scalars m -> Delete.on_condition m c d = Ok d' ->
             Forall (fun v => scalar v = true) (Delete.values d')).
  { intros m c Hm Hc. unfold Delete.on_condition in Hc. returns Hc.
    inversion Hc; subst. apply Hm in E. destruct E as [added [-> Ha]].
    cbn. now apply Forall_app. }
  destruct call; cbn [call_delete] in H;
    unfold Delete.where_, Delete.and, Delete.or, Delete.paren, Delete.open,
      Delete.close in H.
  - unfold Delete.from in H. returns H. now inversion H; subst.
  - destruct (Delete.condition d);
      exact (Hon _ _ (proj1 (proj2 chains_scalars) _ _) H).
  - destruct (Delete.condition d); [|discriminate].
    exact (Hon _ _ (@simple_binds mysql CAnd ltac:(cbn; tauto)) H).
  - destruct (Delete.condition d); [|discriminate].
    exact (Hon _ _ (@simple_binds mysql COr ltac:(cbn; tauto)) H).
  - destruct (Delete.condition d);
      exact (Hon _ _ (@simple_binds mysql CParen ltac:(cbn; tauto)) H).
  - destruct (Delete.condition d);
      exact (Hon _ _ (@simple_binds mysql COpen ltac:(cbn; tauto)) H).
  - destruct (Delete.condition d); [|discriminate].
    exact (Hon _ _ (@simple_binds mysql CClose ltac:(cbn; tauto)) H).
  - inversion H; subst. constructor.
Qed.

Lemma run_delete_scalars (chain : list DeleteCall) (d d' : Delete.t) :
  Forall (fun v => scalar v = true) (Delete.values d) ->
  run_delete chain d = Ok d' ->
  Forall (fun v => scalar v = true) (Delete.values d').
Proof.
  revert d; induction chain as [|call rest IH]; intros d Hd H;
    cbn [run_delete] in H.
  - now inversion H; subst.
  - returns H. exact (IH _ (@call_delete_scalars _ _ _ Hd E) H).
Qed.

Lemma call_update_storable (call : UpdateCall) (u u' : Update.t) :
  Forall (fun v => storable v = true) (Update.values u) ->
  call_update call u = Ok u' ->
  Forall (fun v => storable v = true) (Update.values u').
Proof.
  intros Hu H.
  assert (Hon : forall m c,
             binds_scalars m -> Update.on_condition m c u = Ok u' ->
             Forall (fun v => storable v = true) (Update.values u')).
  { intros m c Hm Hc. unfold Update.on_condition in Hc. returns Hc.
    inversion Hc; subst. apply Hm in E. destruct E as [added [-> Ha]].
    cbn. apply Forall_app. split; [assumption|].
    eapply Forall_impl; [|exact Ha]. apply scalar_storable. }
  destruct call; cbn [call_update] in H;
    unfold Update.where_, Update.and, Update.or, Update.paren, Update.open,
      Update.close in H.
  - unfold Update.table_ in H. returns H. now inversion H; subst.
  - unfold Update.set in H. returns H. inversion H; subst. cbn.
    now apply Update_check_values_storable.
  - destruct (Update.condition (Update.state u));
      exact (Hon _ _ (proj1 (proj2 chains_scalars) _ _) H).
  - destruct (Update.condition (Update.state u)); [|discriminate].
    exact (Hon _ _ (@simple_binds mysql CAnd ltac:(cbn; tauto)) H).
  - destruct (Update.condition (Update.state u)); [|discriminate].
    exact (Hon _ _ (@simple_binds mysql COr ltac:(cbn; tauto)) H).
  - destruct (Update.condition (Update.state u));
      exact (Hon _ _ (@simple_binds mysql CParen ltac:(cbn; tauto)) H).
  - destruct (Update.condition (Update.state u));
      exact (Hon _ _ (@simple_binds mysql COpen ltac:(cbn; tauto)) H).
  - destruct (Update.condition (Update.state u)); [|discriminate].
    exact (Hon _ _ (@simple_binds mysql CClose ltac:(cbn; tauto)) H).
  - inversion H; subst. constructor.
Qed.

Lemma run_update_storable (chain : list UpdateCall) (u u' : Update.t) :
  Forall (fun v => storable v = true) (Update.values u) ->
  run_update chain u = Ok u' ->
  Forall (fun v => storable v = true) (Update.values u').
Proof.
  revert u; induction chain as [|call rest IH]; intros u Hu H;
    cbn [run_update] in H.
  - now inversion H; subst.
  - returns H. exact (IH _ (@call_update_storable _ _ _ Hu E) H).
Qed.

(** X9: whatever chain of calls has driven a new builder, every value
    that [exec] hands to the connection is a string or a number: never
    [null], never [undefined], never an object.  For a [Select] and a
    [Delete], whose values are all bound by conditions, every value is a
    number or a string that is not empty. *)
Theorem sink_holds_accepted_values (con : MegaPoolConnection)
  (st : Statement) (text : string) (values : list jsval)
  (Hexec : handed con st = Ok (text, values)) :
  Forall (fun v => Is.isStr v || Is.isNum v = true) values
  /\ match st with
     | OnSelect _ | OnDelete _ => Forall (fun v => scalar v = true) values
     | _ => True
     end.
Proof.
  destruct st as [chain|chain|chain|chain]; cbn [handed] in Hexec;
    returns Hexec; destruct p as [text' values']; inversion Hexec; subst;
    clear Hexec; unfold exec_arguments, get_query in E0; cbn in E0.
  - pose proof (proj2 (proj2 (proj2 chains_scalars)) chain (Select.new con) _
                  (Forall_nil _) E) as Hs.
    apply run_select_fixed in E. destruct E as [_ Hq].
    rewrite (Hq eq_refl) in E0. returns E0. returns E. finish.
    split; [|assumption]. eapply Forall_impl; [|exact Hs]. apply scalar_sent.
  - destruct (@run_insert_rectangular chain (Insert.new con) a
                (conj eq_refl I) E) as [Hrect _].
    apply run_insert_fixed in E. destruct E as [_ Hq].
    rewrite (Hq eq_refl) in E0. returns E0. finish.
    apply Insert_build_text in E.
    destruct E as [table [cols [_ [Hcols [_ Hvalues]]]]].
    cbn [flat_values Insert.Query_Insert]. rewrite Hvalues.
    unfold rectangular in Hrect. rewrite Hcols in Hrect.
    destruct Hrect as [_ Hrows]. split; [|exact I]. clear Hvalues.
    induction Hrows as [|r rs [_ Hr] Hrs IH]; [constructor|].
    cbn [map concat]. apply Forall_app. split; [|exact IH].
    now apply filter_storable_sent.
  - pose proof (@run_update_storable chain (Update.new con) a
                  (Forall_nil _) E) as Hu.
    apply run_update_fixed in E. destruct E as [_ Hq].
    rewrite (Hq eq_refl) in E0. returns E0. finish.
    split; [|exact I]. unfold Update.build in E.
    destruct (Update.table (Update.state a)); [|discriminate]. returns E.
    destruct (Update.condition (Update.state a)); [|discriminate].
    returns E. inversion E; subst. cbn.
    now apply filter_storable_sent.
  - pose proof (@run_delete_scalars chain (Delete.new con) a
                  (Forall_nil _) E) as Hd.
    apply run_delete_fixed in E. destruct E as [_ Hq].
    rewrite (Hq eq_refl) in E0. returns E0. returns E. finish.
    split; [|assumption]. eapply Forall_impl; [|exact Hd]. apply scalar_sent.
Qed.

Lemma sink_holds_accepted_values_witness :
  Forall (fun v => Is.isStr v || Is.isNum v = true) [VStr "John"; VNum 1]
  /\ True.
Proof.
  exact (@sink_holds_accepted_values mysql (OnUpdate set_before_where)
           "UPDATE users SET name = ?, bio = NULL WHERE id = ?;"
           [VStr "John"; VNum 1] eq_refl).
Defined.

(** X10: a chain of calls never changes the connection of a builder and
    never assigns its cached text.  A builder made by a [MegaBuilder] and
    driven by any chain of calls that returns still holds the connection
    of the [MegaBuilder], and [get.query()] on it builds the text anew.
    After [set.connection] the [MegaBuilder] returns the new connection
    and makes its builders on it. *)
Theorem builder_keeps_connection (b : MegaBuilder.t) :
  (forall chain s,
      run_select chain (MegaBuilder.select b) = Ok s ->
      Select.connection s = MegaBuilder.connection b
      /\ get_query s = build_ s)
  /\ (forall chain i,
         run_insert chain (MegaBuilder.insert b) = Ok i ->
         Insert.connection i = MegaBuilder.connection b
         /\ get_query i = build_ i)
  /\ (forall chain u,
         run_update chain (MegaBuilder.update b) = Ok u ->
         Update.connection u = MegaBuilder.connection b
         /\ get_query u = build_ u)
  /\ (forall chain d,
         run_delete chain (MegaBuilder.delete b) = Ok d ->
         Delete.connection d = MegaBuilder.connection b
         /\ get_query d = build_ d)
  /\ (forall con b',
         MegaBuilder.set_connection con b = Ok b' ->
         MegaBuilder.get_connection b' = Ok con
         /\ Select.connection (MegaBuilder.select b') = con).
Proof.
  repeat split.
  9: { unfold MegaBuilder.set_connection in H. returns H.
       now inversion H; subst. }
  9: { unfold MegaBuilder.set_connection in H. returns H.
       now inversion H; subst. }
  - now apply run_select_fixed in H.
  - apply run_select_fixed in H. destruct H as [_ Hq].
    unfold get_query. cbn. now rewrite (Hq eq_refl).
  - now apply run_insert_fixed in H.
  - apply run_insert_fixed in H. destruct H as [_ Hq].
    unfold get_query. cbn. now rewrite (Hq eq_refl).
  - now apply run_update_fixed in H.
  - apply run_update_fixed in H. destruct H as [_ Hq].
    unfold get_query. cbn. now rewrite (Hq eq_refl).
  - now apply run_delete_fixed in H.
  - apply run_delete_fixed in H. destruct H as [_ Hq].
    unfold get_query. cbn. now rewrite (Hq eq_refl).
Qed.

Lemma builder_keeps_connection_witness :
  Select.connection users_55 = counting 55
  /\ get_query users_55 = build_ users_55.
Proof.
  exact (proj1 (builder_keeps_connection
                  {| MegaBuilder.connection := counting 55 |})
           (SThen (SFrom "users")
              (SThen (SWhere (CThen (CCol "status")
                                (CThen (CEqual (OVal (VStr "active"))) CDone)))
                 SDone))
           users_55 eq_refl).
Defined.

(** ** How calls on a statement compose *)

(** X11: two calls of [where] are one call with the two functions run one
    after the other on the same condition: nothing is put between what the
    first and what the second function push, no [AND] in particular.  The
    same holds for [having] of a [Select] and for [where] of an [Update]
    and of a [Delete]. *)
Theorem where_composes (first second : Condition.method) :
  (forall s,
      (s' <- Select.where_ first s ;; Select.where_ second s')
      = Select.where_ (and_then first second) s)
  /\ (forall s,
         (s' <- Select.having first s ;; Select.having second s')
         = Select.having (and_then first second) s)
  /\ (forall u,
         (u' <- Update.where_ first u ;; Update.where_ second u')
         = Update.where_ (and_then first second) u)
  /\ (forall d,
         (d' <- Delete.where_ first d ;; Delete.where_ second d')
         = Delete.where_ (and_then first second) d).
Proof.
  unfold and_then. repeat split.
  - intros s. unfold Select.where_, Select.on_where.
    destruct (Select.where_condition (Select.state s)) as [c|].
    + destruct (first (c, Select.values s)) as [[c' vs']|m]; [|reflexivity].
      cbn. destruct (second (c', vs')) as [[c'' vs'']|m]; reflexivity.
    + destruct (first (Condition.new, Select.values s)) as [[c' vs']|m];
        [|reflexivity].
      cbn. destruct (second (c', vs')) as [[c'' vs'']|m]; reflexivity.
  - intros s. unfold Select.having, Select.on_having.
    destruct (Select.having_condition (Select.state s)) as [c|].
    + destruct (first (c, Select.values s)) as [[c' vs']|m]; [|reflexivity].
      cbn. destruct (second (c', vs')) as [[c'' vs'']|m]; reflexivity.
    + destruct (first (Condition.new, Select.values s)) as [[c' vs']|m];
        [|reflexivity].
      cbn. destruct (second (c', vs')) as [[c'' vs'']|m]; reflexivity.
  - intros u. unfold Update.where_, Update.on_condition.
    destruct (Update.condition (Update.state u)) as [c|].
    + destruct (first (c, Update.values u)) as [[c' vs']|m]; [|reflexivity].
      cbn. destruct (second (c', vs')) as [[c'' vs'']|m]; reflexivity.
    + destruct (first (Condition.new, Update.values u)) as [[c' vs']|m];
        [|reflexivity].
      cbn. destruct (second (c', vs')) as [[c'' vs'']|m]; reflexivity.
  - intros d. unfold Delete.where_, Delete.on_condition.
    destruct (Delete.condition d) as [c|].
    + destruct (first (c, Delete.values d)) as [[c' vs']|m]; [|reflexivity].
      cbn. destruct (second (c', vs')) as [[c'' vs'']|m]; reflexivity.
    + destruct (first (Condition.new, Delete.values d)) as [[c' vs']|m];
        [|reflexivity].
      cbn. destruct (second (c', vs')) as [[c'' vs'']|m]; reflexivity.
Qed.

Lemma check_names_app (message : string) (a b : list string) :
  Select.check_names message (a ++ b)
  = (_ <- Select.check_names message a ;; Select.check_names message b).
Proof.
  induction a as [|name a IH]; cbn [app Select.check_names bind].
  - reflexivity.
  - destruct (Is.fullStr name); cbn [guard bind]; [exact IH | reflexivity].
Qed.

(** X12: which clauses of a [Select] accumulate and which are replaced,
    for calls that return.  [groupBy] appends to the columns already
    grouped by: two calls that return give the builder that one call with
    the two lists of columns joined gives, and that one call returns
    exactly when the two calls do.  [col], [from], [limit] and [offset]
    replace what an earlier call has set: after a call that returned, a
    second call returns exactly when it returns without the first, with
    the same builder.  Calls that throw are left out: of two [groupBy]
    the first has pushed its columns when the second throws. *)
Theorem select_clauses_compose (s : Select.t) :
  (forall a b s'',
      (s' <- Select.groupBy a s ;; Select.groupBy b s') = Ok s''
      <-> Select.groupBy (a ++ b) s = Ok s'')
  /\ (forall a b s' s'',
         Select.col a s = Ok s' ->
         Select.col b s' = Ok s'' <-> Select.col b s = Ok s'')
  /\ (forall a b s' s'',
         Select.from a s = Ok s' ->
         Select.from b s' = Ok s'' <-> Select.from b s = Ok s'')
  /\ (forall a b s' s'',
         Select.limit a s = Ok s' ->
         Select.limit b s' = Ok s'' <-> Select.limit b s = Ok s'')
  /\ (forall a b s' s'',
         Select.offset a s = Ok s' ->
         Select.offset b s' = Ok s'' <-> Select.offset b s = Ok s'').
Proof.
  split; [|repeat split].
  - intros a b s''. unfold Select.groupBy. rewrite check_names_app.
    destruct (Select.check_names "Invalid GROUP BY column: " a) as [[]|m];
      [|reflexivity].
    cbn [bind Select.state Select.with_state Select.group Select.set_group].
    destruct (Select.check_names "Invalid GROUP BY column: " b) as [[]|m];
      [|reflexivity].
    cbn [bind]. now rewrite app_assoc.
  - intros H2. unfold Select.col in *. returns H.
    inversion H; subst. exact H2.
  - intros H2. unfold Select.col in *. returns H.
    inversion H; subst. exact H2.
  - intros H2. unfold Select.from in *. returns H.
    inversion H; subst. exact H2.
  - intros H2. unfold Select.from in *. returns H.
    inversion H; subst. exact H2.
  - intros H2. unfold Select.limit in *. returns H.
    inversion H; subst. exact H2.
  - intros H2. unfold Select.limit in *. returns H.
    inversion H; subst. exact H2.
  - intros H2. unfold Select.offset in *. returns H.
    inversion H; subst. exact H2.
  - intros H2. unfold Select.offset in *. returns H.
    inversion H; subst. exact H2.
Qed.

(** ** When [build] of a [Select] returns *)

Lemma joins_map_returns (js : list Select.Join) :
  (exists l, Select.joins_map js = Ok l)
  <-> Forall (fun j => builds (Select.join_condition j)) js.
Proof.
  induction js as [|j js IH]; cbn [Select.joins_map].
  - split; [constructor | eauto].
  - split.
    + intros [l H]. returns H. constructor; [now exists a|].
      apply IH. eauto.
    + intros H. inversion H as [|? ? [w Hw] Hjs]; subst.
      apply IH in Hjs. destruct Hjs as [l Hl]. rewrite Hw, Hl. cbn. eauto.
Qed.

Lemma option_clause_returns (keyword : string) (c : option Condition.t) :
  (exists text,
      match c with
      | Some c => w <- Condition.build c ;; Ok (keyword ++ w)
      | None => Ok ""
      end = Ok text)
  <-> option_builds c.
Proof.
  destruct c as [c|]; cbn [option_builds]; [|split; eauto].
  unfold builds. split.
  - intros [text H]. returns H. eauto.
  - intros [w Hw]. rewrite Hw. cbn. eauto.
Qed.

Lemma Select_build_returns_when (subquery : bool) (s : Select.t) :
  (exists text, Select.build subquery s = Ok text)
  <-> (exists name,
          Select.table (Select.state s) = Some name /\ name <> "")
      /\ Forall (fun j => builds (Select.join_condition j))
           (Select.joins (Select.state s))
      /\ option_builds (Select.where_condition (Select.state s))
      /\ option_builds (Select.having_condition (Select.state s)).
Proof.
  rewrite <- joins_map_returns.
  rewrite <- (option_clause_returns " WHERE "
                (Select.where_condition (Select.state s))).
  rewrite <- (option_clause_returns " HAVING "
                (Select.having_condition (Select.state s))).
  unfold Select.build, Select.checked_table, Select.joins_clause.
  fold (Select.where_clause (Select.state s)).
  fold (Select.having_clause (Select.state s)).
  split.
  - intros [text H]. returns H.
    destruct (Select.table (Select.state s)) as [name|]; [|discriminate].
    returns E. unfold Is.fullStr in E3. apply negb_true_iff in E3.
    apply String.eqb_neq in E3.
    split; [eauto|]. split; [|split; eauto].
    destruct (Select.joins (Select.state s)) as [|j js]; [cbn; eauto|].
    returns E0. eauto.
  - intros [[name [Hn Hfull]] [[l Hl] [[w Hw] [h Hh]]]].
    rewrite Hn. apply String.eqb_neq in Hfull.
    unfold Is.fullStr. rewrite Hfull. cbn [negb guard bind].
    destruct (Select.joins (Select.state s)) as [|j js];
      [|rewrite Hl]; cbn [bind];
      unfold Select.where_clause, Select.having_clause in *;
      rewrite Hw, Hh; cbn [bind]; eauto.
Qed.

(** X13: [build] of a [Select] returns exactly when a table that is not
    the empty string is set and the condition of every join, the [WHERE]
    condition and the [HAVING] condition, as far as present, build; no
    other clause can make it throw.  Built as a statement the text is the
    text built as a subquery followed by a semicolon. *)
Theorem Select_build_returns (s : Select.t) :
  (forall subquery,
      (exists text, Select.build subquery s = Ok text)
      <-> (exists name,
              Select.table (Select.state s) = Some name /\ name <> "")
          /\ Forall (fun j => builds (Select.join_condition j))
               (Select.joins (Select.state s))
          /\ option_builds (Select.where_condition (Select.state s))
          /\ option_builds (Select.having_condition (Select.state s)))
  /\ Select.build false s = (text <- Select.build true s ;; Ok (text ++ ";")).
Proof.
  split.
  - intros subquery. apply Select_build_returns_when.
  - unfold Select.build.
    destruct (Select.checked_table (Select.state s)); [|reflexivity].
    cbn [bind].
    destruct (Select.joins_clause (Select.state s)); [|reflexivity].
    cbn [bind].
    destruct (Select.where_clause (Select.state s)); [|reflexivity].
    cbn [bind].
    destruct (Select.having_clause (Select.state s)); reflexivity.
Qed.

Lemma select_clauses_compose_witness :
  Select.col ["id"]
    (Select.with_state
       (Select.set_columns (Select.Cols ["name"]) (Select.state users_55))
       users_55)
  = Ok (Select.with_state
          (Select.set_columns (Select.Cols ["id"]) (Select.state users_55))
          users_55).
Proof.
  exact (proj2 (proj1 (proj2 (select_clauses_compose users_55))
                  ["name"] ["id"] _ _ eq_refl) eq_refl).
Defined.

(** ** Building an [Insert] or an [Update] again *)

Lemma Insert_build_leaves (i i1 : Insert.t) (text : string) :
  Insert.build i = Ok (text, i1) ->
  i1 = {| Insert.table := Insert.table i;
          Insert.columns := Insert.columns i;
          Insert.returnings := Insert.returnings i;
          Insert.values := map (filter Insert.not_null) (Insert.values i);
          Insert.connection := Insert.connection i;
          Insert.query := Insert.query i |}.
Proof.
  unfold Insert.build. intros H.
  destruct (Insert.table i) as [table|]; [|discriminate]. returns H.
  destruct (Insert.columns i) as [cols|]; [|discriminate]. returns H.
  now inversion H.
Qed.

(** X14: [build] of an [Insert] settles after one call.  The builder
    that the first [build] leaves is left unchanged by every later
    [build], which returns; so all builds from the second on return the
    same text.  When no row holds a null value the first [build] leaves
    the builder as it was, and the second returns the text of the
    first. *)
Theorem Insert_build_settles (i i1 : Insert.t) (t1 : string)
  (Hbuild : Insert.build i = Ok (t1, i1)) :
  (exists t2, Insert.build i1 = Ok (t2, i1))
  /\ (Forall (Forall (fun v => Insert.not_null v = true)) (Insert.values i) ->
      i1 = i /\ Insert.build i1 = Ok (t1, i1)).
Proof.
  pose proof (@Insert_build_leaves _ _ _ Hbuild) as Hi1. split.
  - assert (Hsame : map (filter Insert.not_null)
                      (map (filter Insert.not_null) (Insert.values i))
                    = map (filter Insert.not_null) (Insert.values i)).
    { rewrite map_map. apply map_ext. intros r. apply filter_not_null_twice. }
    subst i1. unfold Insert.build in *.
    cbn [Insert.table Insert.columns Insert.values Insert.returnings
         Insert.connection Insert.query].
    destruct (Insert.table i) as [table|]; [|discriminate].
    returns Hbuild.
    destruct (Insert.columns i) as [cols|]; [|discriminate].
    returns Hbuild. clear Hbuild.
    rewrite E, E0, Hsame. cbn [guard bind].
    destruct (Insert.values i) as [|r rs]; [discriminate|].
    cbn [map Is.isFullArr Is.isEmptyArr negb guard bind].
    eexists. reflexivity.
  - intros Hnn. split; [|exact (@Insert_build_without_null _ _ _ Hnn Hbuild)].
    rewrite Hi1, (map_filter_not_null_id Hnn). now destruct i.
Qed.

Lemma Insert_build_settles_witness :
  let i1 :=
    {| Insert.table := Some "products";
       Insert.columns := Some ["name"; "category"];
       Insert.returnings := None;
       Insert.values := [[VStr "Nice product"]];
       Insert.connection := mysql; Insert.query := None |} in
  (exists t2, Insert.build i1 = Ok (t2, i1))
  /\ (Forall (Forall (fun v => Insert.not_null v = true))
        [[VStr "Nice product"; VNull]] ->
      i1 = {| Insert.table := Some "products";
              Insert.columns := Some ["name"; "category"];
              Insert.returnings := None;
              Insert.values := [[VStr "Nice product"; VNull]];
              Insert.connection := mysql; Insert.query := None |}
      /\ Insert.build i1
         = Ok ("INSERT INTO products (name, category) VALUES (?, NULL);", i1)).
Proof.
  exact (@Insert_build_settles
           {| Insert.table := Some "products";
              Insert.columns := Some ["name"; "category"];
              Insert.returnings := None;
              Insert.values := [[VStr "Nice product"; VNull]];
              Insert.connection := mysql; Insert.query := None |}
           _ _ eq_refl).
Defined.

Lemma Update_build_leaves (u u1 : Update.t) (text : string) :
  Update.build u = Ok (text, u1) ->
  u1 = {| Update.state := Update.state u;
          Update.values := filter Insert.not_null (Update.values u);
          Update.connection := Update.connection u;
          Update.query := Update.query u |}.
Proof.
  unfold Update.build. intros H.
  destruct (Update.table (Update.state u)) as [table|]; [|discriminate].
  returns H.
  destruct (Update.condition (Update.state u)) as [c|]; [|discriminate].
  returns H. now inversion H.
Qed.

(** X15: [build] of an [Update] settles after one call.  A later
    [build] that returns leaves the builder that the first [build] has
    left; when the sink held no null value the first [build] leaves the
    builder as it was and the second returns the text of the first; and
    when the first [build] has removed every value from the sink (all
    columns set to [null], no value bound by the condition) the second
    [build] throws [Invalid UPDATE values]. *)
Theorem Update_build_settles (u u1 : Update.t) (t1 : string)
  (Hbuild : Update.build u = Ok (t1, u1)) :
  (forall t2 u2, Update.build u1 = Ok (t2, u2) -> u2 = u1)
  /\ (Forall (fun v => Insert.not_null v = true) (Update.values u) ->
      u1 = u /\ Update.build u1 = Ok (t1, u1))
  /\ (filter Insert.not_null (Update.values u) = [] ->
      Update.build u1 = Throw "Invalid UPDATE values").
Proof.
  pose proof (@Update_build_leaves _ _ _ Hbuild) as Hu1. split; [|split].
  - intros t2 u2 H2. apply Update_build_leaves in H2.
    rewrite H2, Hu1. cbn [Update.state Update.values Update.connection
                          Update.query].
    now rewrite filter_not_null_twice.
  - intros Hnn.
    assert (Hu : u1 = u)
      by (rewrite Hu1, (filter_not_null_id Hnn); now destruct u).
    split; [exact Hu|]. now rewrite Hu in *.
  - intros Hnone. unfold Update.build in Hbuild.
    destruct (Update.table (Update.state u)) as [table|] eqn:Ht;
      [|discriminate].
    returns Hbuild. clear Hbuild. rewrite Hu1. unfold Update.build.
    cbn [Update.state Update.values]. rewrite Ht, E, E0, Hnone. reflexivity.
Qed.

Lemma Update_build_settles_witness :
  (forall t2 u2,
      Update.build banned_user_built = Ok (t2, u2) -> u2 = banned_user_built)
  /\ (Forall (fun v => Insert.not_null v = true) (Update.values banned_user) ->
      banned_user_built = banned_user
      /\ Update.build banned_user_built
         = Ok ("UPDATE users SET name = NULL, status = ? WHERE id = ?;",
               banned_user_built))
  /\ (filter Insert.not_null (Update.values banned_user) = [] ->
      Update.build banned_user_built = Throw "Invalid UPDATE values").
Proof.
  exact (@Update_build_settles banned_user banned_user_built _ eq_refl).
Defined.

(** ** The rows an [Insert] accepts *)

Lemma storable_check_values (vs : list jsval) :
  Forall (fun v => storable v = true) vs ->
  Insert.check_values vs = Ok tt.
Proof.
  induction 1 as [|v vs Hv Hvs IH]; [reflexivity|].
  cbn [Insert.check_values]. unfold storable in Hv. rewrite Hv. exact IH.
Qed.

Lemma includes_In (columns : list string) (column : string) :
  Insert.includes columns column = true <-> In column columns.
Proof.
  unfold Insert.includes. rewrite existsb_exists. split.
  - intros [k [Hk Heq]]. apply String.eqb_eq in Heq. now subst.
  - intros Hin. exists column. split; [assumption | apply String.eqb_refl].
Qed.

(** X16: once the column list is established, with no column named
    twice, [row] accepts a row exactly when the keys of the row are the
    columns in some order and every value is [null], a string or a number.
    The accepted row leaves the column list as it is, and its values are
    appended as one row-vector in the order of the keys of the row. *)
Theorem Insert_row_accepts (r : Row) (i : Insert.t)
  (established : list string)
  (Hcolumns : Insert.columns i = Some established)
  (Hdistinct : NoDup established) :
  ((exists i', Insert.row r i = Ok i')
   <-> Permutation established (keys r)
       /\ Forall (fun v => storable v = true) (vals r))
  /\ (forall i',
         Insert.row r i = Ok i' ->
         Insert.columns i' = Some established
         /\ Insert.values i' = (Insert.values i ++ [vals r])%list).
Proof.
  split.
  - split.
    + intros [i' H]. pose proof (Insert_row_returns _ _ H) as [Hr _].
      rewrite Hcolumns in Hr. destruct Hr as [Hlen [Hin _]].
      split.
      * apply NoDup_Permutation_bis; [assumption | lia | exact Hin].
      * unfold Insert.row in H. returns H.
        now apply Insert_check_values_storable.
    + intros [Hperm Hvalues]. unfold Insert.row. rewrite Hcolumns.
      rewrite (Permutation_length Hperm), Nat.eqb_refl. cbn [guard bind].
      assert (Hall : forallb (Insert.includes (keys r)) established = true).
      { apply forallb_forall. intros column Hin. apply includes_In.
        exact (Permutation_in _ Hperm Hin). }
      rewrite Hall, (storable_check_values Hvalues). cbn [guard bind]. eauto.
  - intros i' H. pose proof (Insert_row_returns _ _ H) as [Hr Hv].
    rewrite Hcolumns in Hr. destruct Hr as [_ [_ Hc]]. auto.
Qed.

Lemma Insert_row_accepts_witness :
  ((exists i', Insert.row [("name", VStr "Jane"); ("id", VNum 2)] two_users
               = Ok i')
   <-> Permutation ["id"; "name"] (keys [("name", VStr "Jane"); ("id", VNum 2)])
       /\ Forall (fun v => storable v = true)
            (vals [("name", VStr "Jane"); ("id", VNum 2)]))
  /\ (forall i',
         Insert.row [("name", VStr "Jane"); ("id", VNum 2)] two_users = Ok i' ->
         Insert.columns i' = Some ["id"; "name"]
         /\ Insert.values i'
            = (Insert.values two_users
                 ++ [vals [("name", VStr "Jane"); ("id", VNum 2)]])%list).
Proof.
  apply (@Insert_row_accepts [("name", VStr "Jane"); ("id", VNum 2)]
           two_users ["id"; "name"] eq_refl).
  repeat constructor; cbn; intuition discriminate.
Defined.

(** ** No [DELETE] and no [UPDATE] without a condition *)

Lemma Condition_build_not_empty (c : Condition.t) (w : string) :
  Condition.build c = Ok w -> w <> "".
Proof.
  unfold Condition.build. intros H. returns H. inversion H; subst.
  match goal with
  | E : negb (Is.isEmptyStr _) = true |- _ =>
      unfold Is.isEmptyStr in E; apply negb_true_iff in E;
      now apply String.eqb_neq in E
  end.
Qed.

Lemma fullStr_not_empty (s : string) : Is.fullStr s = true <-> s <> "".
Proof.
  unfold Is.fullStr. rewrite negb_true_iff. apply String.eqb_neq.
Qed.

(** X17: [build] of a [Delete] returns exactly when a table that is not
    the empty string is set, a condition has been started and the
    condition builds; the text then is [DELETE FROM table WHERE condition;]
    with a condition text that is not empty.  A statement that would
    delete every row of a table is never built: without a condition
    [build] throws. *)
Theorem Delete_build_requires_where (d : Delete.t) :
  (forall text,
      Delete.build d = Ok text
      <-> exists table c w,
            Delete.table d = Some table /\ table <> ""
            /\ Delete.condition d = Some c
            /\ Condition.build c = Ok w /\ w <> ""
            /\ text = "DELETE FROM " ++ table ++ " WHERE " ++ w ++ ";")
  /\ (Delete.condition d = None ->
      exists message, Delete.build d = Throw message).
Proof.
  unfold Delete.build. split.
  - intros text. split.
    + intros H. destruct (Delete.table d) as [table|]; [|discriminate].
      returns H. destruct (Delete.condition d) as [c|]; [|discriminate].
      returns H. inversion H; subst. apply fullStr_not_empty in E.
      exists table, c, a. repeat split; try assumption.
      exact (@Condition_build_not_empty _ _ E0).
    + intros [table [c [w [Ht [Hfull [Hc [Hw [_ ->]]]]]]]].
      apply fullStr_not_empty in Hfull.
      rewrite Ht, Hfull, Hc, Hw. reflexivity.
  - intros ->. destruct (Delete.table d) as [table|]; [|eauto].
    destruct (Is.fullStr table); cbn; eauto.
Qed.

Lemma Delete_build_requires_where_witness :
  Delete.build inactive_users = Ok "DELETE FROM users WHERE status = ?;"
  <-> exists table c w,
        Delete.table inactive_users = Some table /\ table <> ""
        /\ Delete.condition inactive_users = Some c
        /\ Condition.build c = Ok w /\ w <> ""
        /\ "DELETE FROM users WHERE status = ?;"
           = "DELETE FROM " ++ table ++ " WHERE " ++ w ++ ";".
Proof.
  exact (proj1 (Delete_build_requires_where inactive_users)
           "DELETE FROM users WHERE status = ?;").
Defined.

Lemma mapi_length {A B} (f : A -> nat -> B) (from : nat) (l : list A) :
  length (Update.mapi f from l) = length l.
Proof.
  revert from; induction l as [|x l IH]; intros from; [reflexivity|].
  cbn [Update.mapi length]. now rewrite IH.
Qed.

(** X18: [build] of an [Update] that returns has found a table that is
    not the empty string, a column list and a sink that are not empty,
    and a condition that builds to a text that is not empty; the text
    ends in [ WHERE condition;].  A statement that would update every row
    of a table is never built: without a condition [build] throws. *)
Theorem Update_build_requires_where (u : Update.t) :
  (forall text u',
      Update.build u = Ok (text, u') ->
      exists table c w assignments,
        Update.table (Update.state u) = Some table /\ table <> ""
        /\ Update.columns (Update.state u) <> []
        /\ Update.values u <> []
        /\ Update.condition (Update.state u) = Some c
        /\ Condition.build c = Ok w /\ w <> ""
        /\ length assignments = length (Update.columns (Update.state u))
        /\ text = "UPDATE " ++ table ++ " SET " ++ Str.join ", " assignments
                  ++ " WHERE " ++ w ++ ";")
  /\ (Update.condition (Update.state u) = None ->
      exists message, Update.build u = Throw message).
Proof.
  unfold Update.build. split.
  - intros text u' H.
    destruct (Update.table (Update.state u)) as [table|]; [|discriminate].
    returns H.
    destruct (Update.condition (Update.state u)) as [c|]; [|discriminate].
    returns H. inversion H; subst; clear H. apply fullStr_not_empty in E.
    exists table, c, a.
    exists (Update.mapi
              (fun c i => if Update.null_at (Update.values u) i
                          then c ++ " = NULL" else c ++ " = ?")
              0 (Update.columns (Update.state u))).
    repeat split; try assumption.
    + destruct (Update.columns (Update.state u)); discriminate.
    + destruct (Update.values u); discriminate.
    + exact (@Condition_build_not_empty _ _ E2).
    + apply mapi_length.
  - intros ->. destruct (Update.table (Update.state u)) as [table|]; [|eauto].
    destruct (Is.fullStr table); cbn; eauto.
    destruct (Is.isFullArr (Update.columns (Update.state u))); cbn; eauto.
    destruct (Is.isFullArr (Update.values u)); cbn; eauto.
Qed.

Lemma Update_build_requires_where_witness :
  exists table c w assignments,
    Update.table (Update.state banned_user) = Some table /\ table <> ""
    /\ Update.columns (Update.state banned_user) <> []
    /\ Update.values banned_user <> []
    /\ Update.condition (Update.state banned_user) = Some c
    /\ Condition.build c = Ok w /\ w <> ""
    /\ length assignments = length (Update.columns (Update.state banned_user))
    /\ "UPDATE users SET name = NULL, status = ? WHERE id = ?;"
       = "UPDATE " ++ table ++ " SET " ++ Str.join ", " assignments
         ++ " WHERE " ++ w ++ ";".
Proof.
  exact (proj1 (Update_build_requires_where banned_user) _ _ eq_refl).
Defined.

(** ** Counting and paginating *)

Lemma append_assoc (a b c : string) : (a ++ b) ++ c = a ++ b ++ c.
Proof. induction a as [|x a IH]; cbn; [reflexivity | now rewrite IH]. Qed.

Lemma with_columns_same (s : Select.t) :
  with_columns (Select.columns (Select.state s)) s = s.
Proof. destruct s as [[] ? ? ?]; reflexivity. Qed.

(** The text of a [Select] around its column list. *)
Lemma Select_build_around_columns (s : Select.t) (columns : Select.Columns)
  (text : string) :
  Select.build false (with_columns columns s) = Ok text ->
  exists distinct rest,
    text = "SELECT " ++ distinct ++ columns_text columns ++ rest
    /\ forall other,
        Select.build false (with_columns other s)
        = Ok ("SELECT " ++ distinct ++ columns_text other ++ rest).
Proof.
  destruct s as [[tb cols ord grp dis lim jns wh hv uns off] vs cn q].
  unfold with_columns, Select.build, Select.checked_table,
    Select.joins_clause, Select.where_clause, Select.having_clause,
    Select.group_clause, Select.order_clause, Select.limit_clause,
    Select.offset_clause, Select.unions_clause.
  cbn [Select.state Select.with_state Select.set_columns Select.table
       Select.columns Select.order Select.group Select.distinct_
       Select.limit_ Select.joins Select.where_condition
       Select.having_condition Select.unions Select.offset_].
  intros H. returns H. rewrite !append_assoc in H.
  inversion H; subst; clear H.
  eexists; eexists. split; [reflexivity|].
  intros other. rewrite E, E0, E1, E2. cbn [bind].
  rewrite !append_assoc. reflexivity.
Qed.

Lemma count_asks (s s' : Select.t) (n : jsval) :
  Select.query s = None ->
  Select.count s = Ok (n, s') ->
  exists text rows,
    Select.build false
      (with_columns (Select.Cols ["COUNT(*) AS count"]) s) = Ok text
    /\ connection_query (Select.connection s) text (Select.values s) = Ok rows
    /\ Select.first_count rows = Ok n.
Proof.
  intros Hq H. unfold Select.count in H. returns H.
  unfold get_query in E0. cbn in E0. rewrite Hq in E0. returns E0.
  inversion E0; subst; clear E0. inversion H; subst; clear H.
  eexists; eexists. split; [eassumption|]. split; eassumption.
Qed.

(** X19: [count] asks the connection for the statement of the builder
    with the column list replaced by the count of the rows: every other
    clause of the statement, the limit and the offset included, stays in
    the counting query, and the sink is handed over as it is.  What
    [count] returns is the property [count] of the first row as the
    connection reports it, a number or not, and the builder is as it was
    before the call. *)
Theorem count_asks_for_the_statement (s s' : Select.t) (n : jsval)
  (Hfresh : Select.query s = None)
  (Hcount : Select.count s = Ok (n, s')) :
  s' = s
  /\ exists distinct rest rows,
      Select.build false s
      = Ok ("SELECT " ++ distinct
            ++ columns_text (Select.columns (Select.state s)) ++ rest)
      /\ connection_query (Select.connection s)
           ("SELECT " ++ distinct ++ "COUNT(*) AS count" ++ rest)
           (Select.values s)
         = Ok rows
      /\ Select.first_count rows = Ok n.
Proof.
  split; [exact (@count_restores _ _ _ Hfresh Hcount)|].
  destruct (@count_asks _ _ _ Hfresh Hcount) as [text [rows [Hb [Hrows Hn]]]].
  apply Select_build_around_columns in Hb.
  destruct Hb as [distinct [rest [-> Hother]]].
  exists distinct, rest, rows. split; [|split; assumption].
  specialize (Hother (Select.columns (Select.state s))).
  now rewrite with_columns_same in Hother.
Qed.

Lemma count_asks_for_the_statement_witness :
  users_55 = users_55
  /\ exists distinct rest rows,
      Select.build false users_55
      = Ok ("SELECT " ++ distinct
            ++ columns_text (Select.columns (Select.state users_55)) ++ rest)
      /\ connection_query (Select.connection users_55)
           ("SELECT " ++ distinct ++ "COUNT(*) AS count" ++ rest)
           (Select.values users_55)
         = Ok rows
      /\ Select.first_count rows = Ok (VNum 55).
Proof.
  exact (@count_asks_for_the_statement users_55 users_55 (VNum 55)
           eq_refl eq_refl).
Defined.

Lemma limit_returns (n : Z) (s : Select.t) :
  (0 <= n)%Z ->
  Select.limit (VNum n) s
  = Ok (Select.with_state (Select.set_limit (Some n) (Select.state s)) s).
Proof.
  intros Hn. unfold Select.limit. cbn [Is.isInt number negb orb].
  destruct (Z.ltb_spec n 0); [lia | reflexivity].
Qed.

Lemma offset_returns (n : Z) (s : Select.t) :
  (0 <= n)%Z ->
  Select.offset (VNum n) s
  = Ok (Select.with_state (Select.set_offset (Some n) (Select.state s)) s).
Proof.
  intros Hn. unfold Select.offset. cbn [Is.isInt number negb orb].
  destruct (Z.ltb_spec n 0); [lia | reflexivity].
Qed.

(** X20: [paginate] does not throw because of its arguments.  On a
    [Select] that [count] counts with a safe integer from zero on, and
    with a connection that answers the reading query, [paginate] returns
    a page for every page number and every number of items, whatever
    values they are, as long as the numbers it normalizes them to and the
    offset [(page - 1) * items] are safe integers: the normalized limit
    and offset pass the checks of [limit] and [offset], and the statement
    with them builds. *)
Theorem paginate_returns (p n : jsval) (s : Select.t) (counted : Z)
  (Hfresh : Select.query s = None)
  (Hcount : Select.count s = Ok (VNum counted, s))
  (Hcounted : Double.safe counted = true)
  (Hpos : (0 <= counted)%Z)
  (Hpage : Double.safe (Select.normalize 1 p) = true)
  (Hitems : Double.safe (Select.normalize 10 n) = true)
  (Hoffset : Double.safe ((Select.normalize 1 p - 1) * Select.normalize 10 n)
             = true)
  (Hread : forall text,
      exists rows,
        connection_query (Select.connection s) text (Select.values s)
        = Ok rows) :
  exists pg s', Select.paginate p n s = Some (Ok (pg, s')).
Proof.
  pose proof (@normalize_bound 1%Z p ltac:(lia)) as Hp.
  pose proof (@normalize_bound 10%Z n ltac:(lia)) as Hn.
  destruct (@count_asks _ _ _ Hfresh Hcount) as [text [_ [Hb _]]].
  assert (Hexec : exists rows t',
             (u <- Select.limit (VNum (Select.normalize 10 n)) s ;;
              u <- Select.offset
                     (VNum ((Select.normalize 1 p - 1)
                            * Select.normalize 10 n)%Z) u ;;
              exec u) = Ok (rows, t')).
  { rewrite limit_returns by lia. cbn [bind].
    rewrite offset_returns by nia. cbn [bind].
    set (s2 := Select.with_state _ _).
    assert (Hs2 : exists t2, Select.build false s2 = Ok t2).
    { apply Select_build_returns_when.
      apply (proj1 (Select_build_returns_when false _) (ex_intro _ _ Hb)). }
    destruct Hs2 as [t2 Ht2]. destruct (Hread t2) as [rows Hrows].
    unfold exec, exec_arguments, get_query.
    cbn [this_query Select.Query_Select build_ flat_values this_connection].
    replace (Select.query s2) with (Select.query s) by reflexivity.
    rewrite Hfresh, Ht2. cbn [bind].
    replace (Select.connection s2) with (Select.connection s) by reflexivity.
    replace (Select.values s2) with (Select.values s) by reflexivity.
    rewrite Hrows. cbn [bind]. eauto. }
  destruct Hexec as [rows [t' Hexec]].
  eexists; eexists.
  exact (@paginate_page p n s s counted rows t' Hcount Hpage Hitems Hoffset
           Hcounted Hpos Hexec).
Qed.

Lemma paginate_returns_witness :
  exists pg s',
    Select.paginate (VReal "2.5") VUndefined users_55 = Some (Ok (pg, s')).
Proof.
  apply (@paginate_returns (VReal "2.5") VUndefined users_55 55%Z
           eq_refl eq_refl eq_refl ltac:(lia) eq_refl eq_refl
           eq_refl).
  intros text. cbn. destruct (String.prefix _ text); eauto.
Defined.

(** ** What [reset] leaves *)

(** X21: what [reset] restores.  [reset] of an [Update] and of a
    [Delete] gives the builder that the constructor gives for the same
    connection.  [reset] of a [Select] gives it but for the offset, which
    stays; [reset] of an [Insert] gives it but for the returning columns,
    which stay.  So a [Select] on which [offset] has not been called, and
    an [Insert] on which [returning] has not been called, are as new after
    [reset]. *)
Theorem reset_restores :
  (forall u, Update.reset u = Update.new (Update.connection u))
  /\ (forall d, Delete.reset d = Delete.new (Delete.connection d))
  /\ (forall s,
         Select.reset s
         = Select.with_state
             (Select.set_offset (Select.offset_ (Select.state s))
                Select.initial)
             (Select.new (Select.connection s)))
  /\ (forall i,
         Insert.reset i
         = {| Insert.table := None; Insert.columns := None;
              Insert.returnings := Insert.returnings i;
              Insert.values := []; Insert.connection := Insert.connection i;
              Insert.query := None |})
  /\ (forall s,
         Select.offset_ (Select.state s) = None ->
         Select.reset s = Select.new (Select.connection s))
  /\ (forall i,
         Insert.returnings i = None ->
         Insert.reset i = Insert.new (Insert.connection i)).
Proof.
  repeat split.
  - intros s Hoff. destruct s as [[] ? ? ?]. cbn in Hoff. subst. reflexivity.
  - intros i Hret. destruct i. cbn in Hret. subst. reflexivity.
Qed.

Lemma reset_restores_witness :
  Select.reset users_55 = Select.new (Select.connection users_55).
Proof.
  exact (proj1 (proj2 (proj2 (proj2 (proj2 reset_restores))))
           users_55 eq_refl).
Defined.

(** ** Calls that need a condition *)

(** X23: [and], [or] and [close] of a statement need a condition that
    has been started: on a statement without one they throw, and on a
    statement with one they are [where] with the function that makes the
    same call on the condition.  [open] and [paren] start the condition
    when there is none: they always are [where] with that function. *)
Theorem statement_calls_are_where :
  (forall s,
      Select.open s = Select.where_ Condition.open s
      /\ Select.paren s = Select.where_ Condition.paren s
      /\ match Select.where_condition (Select.state s) with
         | Some _ =>
             Select.and s = Select.where_ Condition.and s
             /\ Select.or s = Select.where_ Condition.or s
             /\ Select.close s = Select.where_ Condition.close s
         | None =>
             Select.and s = Throw "Invalid SELECT condition"
             /\ Select.or s = Throw "Invalid SELECT condition"
             /\ Select.close s = Throw "Invalid SELECT condition"
         end)
  /\ (forall u,
         Update.open u = Update.where_ Condition.open u
         /\ Update.paren u = Update.where_ Condition.paren u
         /\ match Update.condition (Update.state u) with
            | Some _ =>
                Update.and u = Update.where_ Condition.and u
                /\ Update.or u = Update.where_ Condition.or u
                /\ Update.close u = Update.where_ Condition.close u
            | None =>
                Update.and u = Throw "Invalid UPDATE condition"
                /\ Update.or u = Throw "Invalid UPDATE condition"
                /\ Update.close u = Throw "Invalid UPDATE condition"
            end)
  /\ (forall d,
         Delete.open d = Delete.where_ Condition.open d
         /\ Delete.paren d = Delete.where_ Condition.paren d
         /\ match Delete.condition d with
            | Some _ =>
                Delete.and d = Delete.where_ Condition.and d
                /\ Delete.or d = Delete.where_ Condition.or d
                /\ Delete.close d = Delete.where_ Condition.close d
            | None =>
                Delete.and d = Throw "Invalid DELETE condition"
                /\ Delete.or d = Throw "Invalid DELETE condition"
                /\ Delete.close d = Throw "Invalid DELETE condition"
            end).
Proof.
  split; [|split].
  - intros s. unfold Select.open, Select.paren, Select.and, Select.or,
      Select.close, Select.where_.
    destruct (Select.where_condition (Select.state s)); repeat split.
  - intros u. unfold Update.open, Update.paren, Update.and, Update.or,
      Update.close, Update.where_.
    destruct (Update.condition (Update.state u)); repeat split.
  - intros d. unfold Delete.open, Delete.paren, Delete.and, Delete.or,
      Delete.close, Delete.where_.
    destruct (Delete.condition d); repeat split.
Qed.

(** ** Rows inserted in bulk *)

Lemma each_row_chain (rs : Rows) (i : Insert.t) :
  Insert.each_row rs i = run_insert (map IRow rs) i.
Proof.
  revert i; induction rs as [|r rs IH]; intros i; [reflexivity|].
  cbn [Insert.each_row map run_insert call_insert].
  destruct (Insert.row r i); cbn [bind]; [apply IH | reflexivity].
Qed.

(** X24: [rows] throws for fewer than two rows, whatever the rows are,
    and for two rows or more it is the chain of the calls of [row] on the
    rows in their order: the rows before the first row that [row] rejects
    are checked against the column list exactly as single rows are. *)
Theorem rows_is_a_chain_of_row (rs : Rows) (i : Insert.t) :
  (length rs < 2 -> exists message, Insert.rows rs i = Throw message)
  /\ (2 <= length rs -> Insert.rows rs i = run_insert (map IRow rs) i).
Proof.
  unfold Insert.rows. split.
  - intros Hlen. destruct rs as [|r [|r' rs]]; cbn in Hlen |- *; eauto; lia.
  - intros Hlen. destruct rs as [|r [|r' rs]]; cbn in Hlen; try lia.
    cbn [Is.isFullArr Is.isEmptyArr negb guard bind length Nat.ltb Nat.leb].
    apply each_row_chain.
Qed.

Lemma rows_is_a_chain_of_row_witness :
  Insert.rows [[("id", VNum 2)]; [("id", VNum 3)]] (Insert.new mysql)
  = run_insert (map IRow [[("id", VNum 2)]; [("id", VNum 3)]])
      (Insert.new mysql).
Proof.
  apply (proj2 (rows_is_a_chain_of_row [[("id", VNum 2)]; [("id", VNum 3)]]
                  (Insert.new mysql))).
  cbn. lia.
Defined.

(** ** One built condition *)

Lemma Condition_build_checks_witness :
  Condition.build (Condition.mk ["("; "a IS NULL"; " OR "; ")"] false 0%Z None)
  = Throw "Invalid syntax: AND/OR cannot directly precede a closing parenthesis.".
Proof.
  apply (proj1 (proj2 (proj2 (proj2
           (Condition_build_checks
              (Condition.mk ["("; "a IS NULL"; " OR "; ")"] false 0%Z None)))))).
  - reflexivity.
  - intros H. apply After_open_test in H. vm_compute in H. discriminate H.
  - right. exists "(a IS NULL ", " ", "". split; reflexivity.
Defined.

(** ** The sink of a [Delete] follows its text *)

Lemma delete_on_condition_follows (con : MegaPoolConnection)
  (made later : list ConditionCall) (m : Condition.method) (c : Condition.t)
  (d d' : Delete.t) :
  appends_calls con later m ->
  Delete.connection d = con ->
  clean_column c = true ->
  follows con made (Condition.stack c) (Delete.values d) ->
  Delete.on_condition m c d = Ok d' ->
  delete_follows con (made ++ later) d'.
Proof.
  intros Hm Hcon Hc Hf H. unfold Delete.on_condition in H. returns H.
  inversion H; subst; clear H.
  destruct (Hm _ _ _ _ Hc E) as [Hc' [pushed [added [Hs [-> [Ha _]]]]]].
  unfold delete_follows. cbn [Delete.condition Delete.values
    Delete.connection].
  split; [reflexivity|]. split; [exact Hc'|].
  rewrite Hs. now apply follows_app.
Qed.

Lemma call_delete_follows (con : MegaPoolConnection) (call : DeleteCall)
  (rest : list DeleteCall) (made : list ConditionCall) (d d' : Delete.t) :
  plain_delete_call call = true ->
  delete_follows con made d -> call_delete call d = Ok d' ->
  exists made',
    delete_follows con made' d'
    /\ delete_calls (call :: rest) made = delete_calls rest made'.
Proof.
  intros Hp [Hcon Hd] H.
  assert (Hon : forall m later (lazy : bool),
             appends_calls con later m ->
             match Delete.condition d with
             | None => if lazy then Delete.on_condition m Condition.new d
                       else Throw "Invalid DELETE condition"
             | Some c => Delete.on_condition m c d
             end = Ok d' ->
             delete_follows con (made ++ later) d').
  { intros m later lazy Hm Hc.
    destruct (Delete.condition d) as [c|].
    - destruct Hd as [Hclean Hf].
      exact (@delete_on_condition_follows con made later m c d d' Hm Hcon
               Hclean Hf Hc).
    - destruct lazy; [|discriminate]. destruct Hd as [-> Hv].
      apply (@delete_on_condition_follows con [] later m Condition.new d d'
               Hm Hcon eq_refl); [|exact Hc].
      rewrite Hv. apply follows_done. }
  destruct call; cbn [call_delete plain_delete_call delete_calls] in *.
  - exists made. split; [|reflexivity].
    unfold Delete.from in H. returns H. inversion H; subst.
    split; [reflexivity | exact Hd].
  - eexists. split; [|reflexivity].
    apply (Hon _ _ true (@run_appends_calls con condition Hp)).
    rewrite Hcon in H.
    unfold Delete.where_ in H. destruct (Delete.condition d); exact H.
  - eexists. split; [|reflexivity].
    apply (Hon _ _ false (@call_appends_calls con CAnd eq_refl)).
    unfold Delete.and in H. destruct (Delete.condition d); exact H.
  - eexists. split; [|reflexivity].
    apply (Hon _ _ false (@call_appends_calls con COr eq_refl)).
    unfold Delete.or in H. destruct (Delete.condition d); exact H.
  - eexists. split; [|reflexivity].
    apply (Hon _ _ true (@call_appends_calls con CParen eq_refl)).
    unfold Delete.paren in H. destruct (Delete.condition d); exact H.
  - eexists. split; [|reflexivity].
    apply (Hon _ _ true (@call_appends_calls con COpen eq_refl)).
    unfold Delete.open in H. destruct (Delete.condition d); exact H.
  - eexists. split; [|reflexivity].
    apply (Hon _ _ false (@call_appends_calls con CClose eq_refl)).
    unfold Delete.close in H. destruct (Delete.condition d); exact H.
  - exists []. split; [|reflexivity]. inversion H; subst.
    split; [reflexivity|]. split; reflexivity.
Qed.

Lemma run_delete_follows (con : MegaPoolConnection) (chain : list DeleteCall)
  (made : list ConditionCall) (d d' : Delete.t) :
  forallb plain_delete_call chain = true ->
  delete_follows con made d -> run_delete chain d = Ok d' ->
  delete_follows con (delete_calls chain made) d'.
Proof.
  revert made d; induction chain as [|call chain IH]; intros made d Hp Hd H;
    cbn [run_delete] in H.
  - now inversion H; subst.
  - cbn [forallb] in Hp. apply andb_prop in Hp. destruct Hp as [Hc Hp].
    returns H.
    destruct (@call_delete_follows con call chain made d a Hc Hd E)
      as [made' [Hd' ->]].
    exact (IH _ _ Hp Hd' H).
Qed.

(** X25: the sink of a [Delete] follows its text from left to right.
    For every chain of calls on a new [Delete], all of which return, that
    splices clean names only and binds in each raw fragment as many
    values as the fragment has question marks, the text that [exec] hands
    to the connection is [DELETE FROM table WHERE] followed by the tokens
    of the condition, joined and trimmed.  The tokens are those of the
    calls made on the condition since the last [reset] -- the calls of
    the functions handed to [where], and those that [and], [or],
    [paren], [open] and [close] of the statement make -- in the order of
    the calls, and the sink holds the values that each of these calls has
    bound, one call after the other, as many as the token of the call has
    placeholders. *)
Theorem Delete_sink_follows_text (con : MegaPoolConnection)
  (chain : list DeleteCall) (text : string) (values : list jsval)
  (Hplain : forallb plain_delete_call chain = true)
  (Hexec : handed con (OnDelete chain) = Ok (text, values)) :
  exists table tokens,
    text = "DELETE FROM " ++ table ++ " WHERE "
           ++ Str.trim (Str.join "" tokens) ++ ";"
    /\ follows con (delete_calls chain []) tokens values
    /\ values = flat_map (bound_by con) (delete_calls chain []).
Proof.
  cbn [handed] in Hexec. returns Hexec. destruct p as [text' values'].
  inversion Hexec; subst; clear Hexec.
  assert (Hnew : delete_follows con [] (Delete.new con))
    by (split; [reflexivity | split; reflexivity]).
  pose proof (@run_delete_follows con chain [] (Delete.new con) a Hplain
                Hnew E) as [_ Hd].
  apply run_delete_fixed in E. destruct E as [_ Hq].
  unfold exec_arguments, get_query in E0. cbn in E0.
  rewrite (Hq eq_refl) in E0. returns E0. returns E. finish.
  unfold Delete.build in E1.
  destruct (Delete.table t) as [table|]; [|discriminate]. returns E1.
  destruct (Delete.condition t) as [c|]; [|discriminate]. returns E1.
  inversion E1; subst; clear E1. destruct Hd as [_ Hf].
  exists table, (Condition.stack c).
  split; [|split; [exact Hf | exact (follows_values Hf)]].
  unfold Condition.build in E0. returns E0. now inversion E0.
Qed.

Lemma Delete_sink_follows_text_witness :
  exists table tokens,
    "DELETE FROM users WHERE (status = ? OR age BETWEEN ? AND ?);"
    = "DELETE FROM " ++ table ++ " WHERE "
      ++ Str.trim (Str.join "" tokens) ++ ";"
    /\ follows mysql
         [CParen; CCol "status"; CEqual (OVal (VStr "inactive")); COr;
          CCol "age"; CBetween (OVal (VNum 1)) (OVal (VNum 17)); CParen]
         tokens [VStr "inactive"; VNum 1; VNum 17]
    /\ [VStr "inactive"; VNum 1; VNum 17]
       = ([VStr "inactive"] ++ [VNum 1; VNum 17])%list.
Proof.
  exact (@Delete_sink_follows_text mysql
           [DFrom "users"; DParen;
            DWhere (CThen (CCol "status")
                      (CThen (CEqual (OVal (VStr "inactive"))) CDone));
            DOr;
            DWhere (CThen (CCol "age")
                      (CThen (CBetween (OVal (VNum 1)) (OVal (VNum 17)))
                         CDone));
            DParen]
           _ _ eq_refl eq_refl).
Defined.

(** ** The sink of an [Update] follows its text *)

Lemma update_follows_weaken (con : MegaPoolConnection)
  (made : list ConditionCall) (conditioned : bool) (u : Update.t) :
  update_follows con made conditioned u -> update_follows con made true u.
Proof. intros [Hcon [H _]]. split; [exact Hcon|]. split; [exact H | discriminate]. Qed.

Lemma update_condition_follows (con : MegaPoolConnection)
  (made later : list ConditionCall) (m : Condition.method) (lazy : bool)
  (u u' : Update.t) :
  appends_calls con later m ->
  update_follows con made true u ->
  match Update.condition (Update.state u) with
  | None => if lazy then Update.on_condition m Condition.new u
            else Throw "Invalid UPDATE condition"
  | Some c => Update.on_condition m c u
  end = Ok u' ->
  update_follows con (made ++ later) true u'.
Proof.
  intros Hm [Hcon [[of_row [of_condition [Hv [Hlen [Hnn Hc]]]]] _]] H.
  assert (Hon : forall c made0,
             clean_column c = true ->
             follows con made0 (Condition.stack c) of_condition ->
             Update.on_condition m c u = Ok u' ->
             update_follows con (made0 ++ later) true u').
  { intros c made0 Hclean Hf Hc'. unfold Update.on_condition in Hc'.
    returns Hc'. inversion Hc'; subst; clear Hc'.
    destruct (Hm _ _ _ _ Hclean E)
      as [Hclean' [pushed [added [Hs [-> [Ha Hna]]]]]].
    split; [reflexivity|]. split; [|discriminate].
    exists of_row, (of_condition ++ added)%list.
    cbn [Update.values Update.state Update.columns Update.condition].
    rewrite Hv, <- app_assoc. repeat split; try assumption.
    - now apply Forall_app.
    - rewrite Hs. now apply follows_app. }
  destruct (Update.condition (Update.state u)) as [c|].
  - destruct Hc as [Hclean Hf]. exact (Hon c made Hclean Hf H).
  - destruct lazy; [|discriminate]. destruct Hc as [-> ->].
    exact (Hon Condition.new [] eq_refl (follows_done con) H).
Qed.

Lemma run_update_follows (con : MegaPoolConnection) (chain : list UpdateCall)
  (made : list ConditionCall) (conditioned : bool) (u u' : Update.t) :
  forallb plain_update_call chain = true ->
  set_first conditioned chain = true ->
  update_follows con made conditioned u ->
  run_update chain u = Ok u' ->
  update_follows con (update_calls chain made) true u'.
Proof.
  revert made conditioned u;
    induction chain as [|call chain IH]; intros made conditioned u Hp Hs Hu H;
    cbn [run_update update_calls] in *.
  - inversion H; subst. eapply update_follows_weaken; eassumption.
  - cbn [forallb] in Hp. apply andb_prop in Hp. destruct Hp as [Hc Hp].
    returns H. pose proof Hu as [Hcon _].
    destruct call; cbn [call_update plain_update_call set_first] in *.
    + refine (IH made conditioned _ Hp Hs _ H).
      unfold Update.table_ in E. returns E. inversion E; subst. exact Hu.
    + apply andb_prop in Hs. destruct Hs as [Hf Hs].
      destruct conditioned; [discriminate|].
      refine (IH made false _ Hp Hs _ H).
      unfold Update.set in E. returns E. inversion E; subst; clear E.
      destruct Hu as [_ [[of_row [of_condition [_ [_ [_ Hc0]]]]] Hnone]].
      specialize (Hnone eq_refl). rewrite Hnone in Hc0.
      destruct Hc0 as [Hmade _].
      split; [reflexivity|]. split; [|intros _; exact Hnone].
      exists (vals row), []. cbn. rewrite Hnone, app_nil_r.
      repeat split; [|constructor|exact Hmade].
      unfold vals, keys. now rewrite !length_map.
    + refine (IH _ true _ Hp Hs _ H).
      apply (@update_condition_follows con made _ _ true u a
               (@run_appends_calls con condition Hc)
               (update_follows_weaken Hu)).
      rewrite Hcon in E. unfold Update.where_ in E.
      destruct (Update.condition (Update.state u)); exact E.
    + refine (IH _ true _ Hp Hs _ H).
      apply (@update_condition_follows con made _ _ false u a
               (@call_appends_calls con CAnd eq_refl)
               (update_follows_weaken Hu)).
      unfold Update.and in E.
      destruct (Update.condition (Update.state u)); exact E.
    + refine (IH _ true _ Hp Hs _ H).
      apply (@update_condition_follows con made _ _ false u a
               (@call_appends_calls con COr eq_refl)
               (update_follows_weaken Hu)).
      unfold Update.or in E.
      destruct (Update.condition (Update.state u)); exact E.
    + refine (IH _ true _ Hp Hs _ H).
      apply (@update_condition_follows con made _ _ true u a
               (@call_appends_calls con CParen eq_refl)
               (update_follows_weaken Hu)).
      unfold Update.paren in E.
      destruct (Update.condition (Update.state u)); exact E.
    + refine (IH _ true _ Hp Hs _ H).
      apply (@update_condition_follows con made _ _ true u a
               (@call_appends_calls con COpen eq_refl)
               (update_follows_weaken Hu)).
      unfold Update.open in E.
      destruct (Update.condition (Update.state u)); exact E.
    + refine (IH _ true _ Hp Hs _ H).
      apply (@update_condition_follows con made _ _ false u a
               (@call_appends_calls con CClose eq_refl)
               (update_follows_weaken Hu)).
      unfold Update.close in E.
      destruct (Update.condition (Update.state u)); exact E.
    + inversion E; subst. refine (IH [] false _ Hp Hs _ H).
      split; [reflexivity|]. split; [|reflexivity].
      exists [], []. repeat split. constructor.
Qed.

(** X26: the sink of an [Update] follows its text from left to right.
    For every chain of calls on a new [Update], all of which return, that
    splices clean names only, binds in each raw fragment as many values
    as the fragment has question marks and calls [set] before the
    condition is started, the text that [exec] hands to the connection is
    [UPDATE table SET] with one assignment per column, [NULL] for a null
    value and a placeholder for any other, followed by [WHERE] and the
    tokens of the condition, joined and trimmed.  The sink holds the
    values of the row that are not null, in the order of the columns,
    followed by the values of the condition; the tokens are those of the
    calls made on the condition since the last [reset], in the order of
    the calls, and the values of the condition are those that each of
    these calls has bound, one call after the other, as many as the token
    of the call has placeholders. *)
Theorem Update_sink_follows_text (con : MegaPoolConnection)
  (chain : list UpdateCall) (text : string) (values : list jsval)
  (Hplain : plain (OnUpdate chain) = true)
  (Hexec : handed con (OnUpdate chain) = Ok (text, values)) :
  exists table columns of_row tokens of_condition,
    length columns = length of_row
    /\ text = "UPDATE " ++ table ++ " SET "
              ++ Str.join ", " (assignments columns of_row)
              ++ " WHERE " ++ Str.trim (Str.join "" tokens) ++ ";"
    /\ values = (filter Insert.not_null of_row ++ of_condition)%list
    /\ follows con (update_calls chain []) tokens of_condition
    /\ of_condition = flat_map (bound_by con) (update_calls chain []).
Proof.
  cbn [plain] in Hplain. apply andb_prop in Hplain.
  destruct Hplain as [Hplain Hset].
  cbn [handed] in Hexec. returns Hexec. destruct p as [text' values'].
  inversion Hexec; subst; clear Hexec.
  assert (Hnew : update_follows con [] false (Update.new con)).
  { split; [reflexivity|]. split; [|reflexivity].
    exists [], []. repeat split. constructor. }
  pose proof (@run_update_follows con chain [] false (Update.new con) a
                Hplain Hset Hnew E) as [_ [[of_row [of_condition Hu]] _]].
  destruct Hu as [Hv [Hlen [Hnn Hc]]].
  apply run_update_fixed in E. destruct E as [_ Hq].
  unfold exec_arguments, get_query in E0. cbn in E0.
  rewrite (Hq eq_refl) in E0. returns E0. finish.
  unfold Update.build in E.
  destruct (Update.table (Update.state a)) as [table|]; [|discriminate].
  returns E.
  destruct (Update.condition (Update.state a)) as [c|]; [|discriminate].
  returns E. inversion E; subst; clear E. destruct Hc as [_ Hf].
  exists table, (Update.columns (Update.state a)), of_row,
    (Condition.stack c), of_condition.
  cbn [flat_values Update.Query_Update Update.values].
  rewrite Hv, filter_app, (filter_not_null_id Hnn).
  pose proof (@mapi_assignments (Update.columns (Update.state a)) []
                of_row of_condition Hlen) as Hmapi.
  cbn [app length] in Hmapi. rewrite Hmapi.
  assert (Hw : a0 = Str.trim (Str.join "" (Condition.stack c))).
  { unfold Condition.build in E3. returns E3. now inversion E3. }
  rewrite Hw. repeat split; auto. exact (follows_values Hf).
Qed.

Lemma Update_sink_follows_text_witness :
  exists table columns of_row tokens of_condition,
    length columns = length of_row
    /\ "UPDATE users SET name = ?, bio = NULL WHERE id = ?;"
       = "UPDATE " ++ table ++ " SET "
         ++ Str.join ", " (assignments columns of_row)
         ++ " WHERE " ++ Str.trim (Str.join "" tokens) ++ ";"
    /\ [VStr "John"; VNum 1]
       = (filter Insert.not_null of_row ++ of_condition)%list
    /\ follows mysql (update_calls set_before_where []) tokens of_condition
    /\ of_condition = flat_map (bound_by mysql)
                        (update_calls set_before_where []).
Proof.
  exact (@Update_sink_follows_text mysql set_before_where _ _
           eq_refl eq_refl).
Defined.

(** ** The order of the calls that set clauses *)

Lemma clause_call_acts (call : SelectCall) (a : Clause) (s s' : Select.t) :
  clause_of call = Some a ->
  call_select call s = Ok s' ->
  forall s0,
    call_select call s0
    = Ok (Select.with_state (clause_set call (Select.state s0)) s0).
Proof.
  intros Hcall H s0.
  destruct call; try discriminate Hcall; cbn [call_select clause_set] in *.
  - unfold Select.from in *. returns H. now rewrite E.
  - unfold Select.col in *. returns H. now rewrite E.
  - reflexivity.
  - unfold Select.offset in *. returns H. now rewrite E.
  - unfold Select.limit in *. returns H. now rewrite E.
  - unfold Select.groupBy in *. returns H. now rewrite E.
  - unfold Select.orderBy in *. returns H. now rewrite E.
Qed.

Lemma clause_sets_commute (first second : SelectCall) (a b : Clause)
  (s : Select.t) :
  clause_of first = Some a ->
  clause_of second = Some b ->
  a <> b ->
  Select.with_state
    (clause_set second
       (Select.state
          (Select.with_state (clause_set first (Select.state s)) s)))
    (Select.with_state (clause_set first (Select.state s)) s)
  = Select.with_state
      (clause_set first
         (Select.state
            (Select.with_state (clause_set second (Select.state s)) s)))
      (Select.with_state (clause_set second (Select.state s)) s).
Proof.
  intros Hfirst Hsecond Hother.
  destruct first; try discriminate Hfirst;
    destruct second; try discriminate Hsecond;
    cbn [clause_of] in Hfirst, Hsecond;
    inversion Hfirst; inversion Hsecond; subst;
    try (exfalso; apply Hother; reflexivity);
    destruct s as [[] ? ? ?]; reflexivity.
Qed.

(** X27: the calls that set a clause of a [Select] ([from], [col],
    [distinct], [offset], [limit], [groupBy], [orderBy]) can be made in
    any order: when two calls that set different clauses return one after
    the other, they return in the other order as well and leave the same
    builder. *)
Theorem clause_calls_commute (first second : SelectCall)
  (a b : Clause) (s s' : Select.t)
  (Hfirst : clause_of first = Some a)
  (Hsecond : clause_of second = Some b)
  (Hother : a <> b)
  (Hret : (s1 <- call_select first s ;; call_select second s1) = Ok s') :
  (s1 <- call_select second s ;; call_select first s1) = Ok s'.
Proof.
  apply bind_Ok in Hret. destruct Hret as [s1 [H1 H2]].
  pose proof (@clause_call_acts first a s s1 Hfirst H1) as A1.
  pose proof (@clause_call_acts second b s1 s' Hsecond H2) as A2.
  rewrite (A1 s) in H1. inversion H1; subst s1; clear H1.
  rewrite A2 in H2. inversion H2; subst s'; clear H2.
  rewrite (A2 s). cbn [bind]. rewrite A1. f_equal.
  symmetry. exact (@clause_sets_commute first second a b s
                     Hfirst Hsecond Hother).
Qed.

Lemma clause_calls_commute_witness :
  (s1 <- call_select (SLimit (VNum 5)) (Select.new mysql) ;;
   call_select (SFrom "users") s1)
  = Ok {| Select.state :=
            Select.set_limit (Some 5%Z)
              (Select.set_table (Some "users") Select.initial);
          Select.values := []; Select.connection := mysql;
          Select.query := None |}.
Proof.
  apply (@clause_calls_commute (SFrom "users") (SLimit (VNum 5))
           TableClause LimitClause (Select.new mysql) _ eq_refl eq_refl).
  - discriminate.
  - reflexivity.
Defined.

(** X28: [limit] and [offset] accept exactly the integral numbers from
    zero on, zero included and without an upper bound; they throw for a
    negative number, for a number with a fractional part and for every
    value that is not a number. *)
Theorem limit_and_offset_bounds (v : jsval) (s : Select.t) :
  ((exists s', Select.limit v s = Ok s')
   <-> exists z, v = VNum z /\ (0 <= z)%Z)
  /\ ((exists s', Select.offset v s = Ok s')
      <-> exists z, v = VNum z /\ (0 <= z)%Z).
Proof.
  unfold Select.limit, Select.offset. split; split.
  all: try (intros [s' H]; returns H; destruct v; try discriminate E;
            cbn in E; exists z; split; [reflexivity|];
            destruct (Z.ltb_spec z 0); [discriminate E | assumption]).
  all: intros [z [-> Hz]]; cbn [Is.isInt number negb orb];
    destruct (Z.ltb_spec z 0); [lia | cbn; eauto].
Qed.
